(** * video-filters: the image-transform pipeline and the clap detector

    A shallow embedding of [filters.js] (colour utilities, the 3D LUT
    engine, the Sobel edge detector, the [FilterPipeline] class) and of the
    gesture code of [app.js] (the clap detector and the point smoother),
    with the properties of the specification stated over it.

    Numbers.  JavaScript numbers are modelled as exact rationals [Q]; two
    numbers are compared with [==] ([Qeq]).  Integers that the code uses as
    array indices or counters are [Z].  Typed arrays ([Float32Array],
    [Uint8ClampedArray]) are lists read with [!!] and written with
    [<[i:=v]>]; a write outside the array does nothing, as for a typed
    array.  A read outside the array gives [undefined] in JavaScript, which
    turns every arithmetic result it flows into into [NaN]: such reads are
    [None] here and the option monad propagates them. *)

From Stdlib Require Import ZArith QArith Qround Qabs Qminmax Lqa Lia.
From stdpp Require Import gmap strings list.

Open Scope Q_scope.

(** ** Loops *)

(** [for (let i = lo; i < hi; i++) body] as a fold over the loop state. *)
Definition for_range {S : Type} (lo hi : Z) (body : Z → S → S) (s : S) : S :=
  fold_left (λ acc i, body i acc) (seqZ lo (hi - lo)) s.

(** [for (let i = 0; i < hi; i += 4) body]. *)
Definition for_stride4 {S : Type} (hi : Z) (body : Z → S → S) (s : S) : S :=
  fold_left (λ acc p, body (4 * p)%Z acc) (seqZ 0 ((hi + 3) / 4)) s.

(** ** Number helpers *)

Definition Qltb (x y : Q) : bool := if Qlt_le_dec x y then true else false.
Definition Qgtb (x y : Q) : bool := Qltb y x.
Definition Qgeb (x y : Q) : bool := negb (Qltb x y).

Definition Math_max3 (a b c : Q) : Q := Qmax (Qmax a b) c.
Definition Math_min3 (a b c : Q) : Q := Qmin (Qmin a b) c.

(** [Math.round]: the nearest integer, halves upwards. *)
Definition Math_round (x : Q) : Z := Qfloor (x + 0.5).

(** A triple of channels, the model of a three-element array. *)
Definition RGB : Type := Q * Q * Q.
Definition ch0 (c : RGB) : Q := c.1.1.
Definition ch1 (c : RGB) : Q := c.1.2.
Definition ch2 (c : RGB) : Q := c.2.

Definition RGB_eq (c c' : RGB) : Prop :=
  ch0 c == ch0 c' ∧ ch1 c == ch1 c' ∧ ch2 c == ch2 c'.

Definition RGB_in01 (c : RGB) : Prop :=
  (0 <= ch0 c <= 1) ∧ (0 <= ch1 c <= 1) ∧ (0 <= ch2 c <= 1).

(** ** Utility helpers of filters.js *)

Definition clamp01 (x : Q) : Q :=
  if Qltb x 0 then 0 else if Qgtb x 1 then 1 else x.

Definition mix (a b t : Q) : Q := a + (b - a) * t.

Definition rgbToHsl (r g b : Q) : RGB :=
  let max := Math_max3 r g b in
  let min := Math_min3 r g b in
  let l := (max + min) / 2 in
  if Qeq_bool max min then (0, 0, l)
  else
    let d := max - min in
    let s := if Qgtb l 0.5 then d / (2 - max - min) else d / (max - min) in
    let h :=
      if Qeq_bool max r then (g - b) / d + (if Qltb g b then 6 else 0)
      else if Qeq_bool max g then (b - r) / d + 2
      else if Qeq_bool max b then (r - g) / d + 4
      else 0 in
    (h / 6, s, l).

Definition hue2rgb (p q t : Q) : Q :=
  let t := if Qltb t 0 then t + 1 else t in
  let t := if Qgtb t 1 then t - 1 else t in
  if Qltb t (1 / 6) then p + (q - p) * 6 * t
  else if Qltb t (1 / 2) then q
  else if Qltb t (2 / 3) then p + (q - p) * (2 / 3 - t) * 6
  else p.

Definition hslToRgb (h s l : Q) : RGB :=
  if Qeq_bool s 0 then (l, l, l)
  else
    let q := if Qltb l 0.5 then l * (1 + s) else l + s - l * s in
    let p := 2 * l - q in
    (hue2rgb p q (h + 1 / 3), hue2rgb p q h, hue2rgb p q (h - 1 / 3)).

Definition luma (r g b : Q) : Q := 0.2126 * r + 0.7152 * g + 0.0722 * b.

Definition sCurve (x c : Q) : Q :=
  let k := 1 + c in
  let y := (x - 0.5) * k + 0.5 in
  clamp01 y.

(** ** The 3D LUT engine *)

Module LUT.
Record t : Type := { size : Z; data : list Q }.
End LUT.

(** The three stores of one innermost iteration, with [idx++] after each. *)
Definition store3 (out : RGB) (st : list Q * Z) : list Q * Z :=
  let '(data, idx) := st in
  let data := <[Z.to_nat idx := clamp01 (ch0 out)]> data in
  let idx := (idx + 1)%Z in
  let data := <[Z.to_nat idx := clamp01 (ch1 out)]> data in
  let idx := (idx + 1)%Z in
  let data := <[Z.to_nat idx := clamp01 (ch2 out)]> data in
  let idx := (idx + 1)%Z in
  (data, idx).

Definition generate3DLUT (size : Z) (transformFn : Q → Q → Q → RGB) : LUT.t :=
  let n := size in
  let data := replicate (Z.to_nat (n * n * n * 3)) 0 in
  let idx := 0%Z in
  let st :=
    for_range 0 n (λ ri st,
      for_range 0 n (λ gi st,
        for_range 0 n (λ bi st,
          let r := inject_Z ri / inject_Z (n - 1) in
          let g := inject_Z gi / inject_Z (n - 1) in
          let b := inject_Z bi / inject_Z (n - 1) in
          let out := transformFn r g b in
          store3 out st) st) st) (data, idx) in
  {| LUT.size := n; LUT.data := st.1 |}.

(** [d[i]]: [None] stands for [undefined]. *)
Definition arr_get {A : Type} (d : list A) (i : Z) : option A :=
  if (i <? 0)%Z then None else d !! Z.to_nat i.

(** The lines of [sampleLUT3D] that pick, for one axis, the two bounding
    planes and the fractional offset: [rf], [r0], [r1] and [tr]. *)
Definition latticeCell (n : Z) (x : Q) : Z * Z * Q :=
  let xf := x * inject_Z (n - 1) in
  let x0 := Qfloor xf in
  let x1 := Z.min (n - 1) (x0 + 1) in
  (x0, x1, xf - inject_Z x0).

Definition lutIdx (n ri gi bi : Z) : Z := (((ri * n + gi) * n + bi) * 3)%Z.

Definition lerp3 (d : list Q) (i0 i1 : Z) (t : Q) : option RGB :=
  a0 ← arr_get d i0; b0 ← arr_get d i1;
  a1 ← arr_get d (i0 + 1); b1 ← arr_get d (i1 + 1);
  a2 ← arr_get d (i0 + 2); b2 ← arr_get d (i1 + 2);
  Some (mix a0 b0 t, mix a1 b1 t, mix a2 b2 t).

Definition mix3 (u v : RGB) (t : Q) : RGB :=
  (mix (ch0 u) (ch0 v) t, mix (ch1 u) (ch1 v) t, mix (ch2 u) (ch2 v) t).

Definition sampleLUT3D (lut : LUT.t) (r g b : Q) : option RGB :=
  let n := LUT.size lut in
  let d := LUT.data lut in
  let '(r0, r1, tr) := latticeCell n r in
  let '(g0, g1, tg) := latticeCell n g in
  let '(b0, b1, tb) := latticeCell n b in
  let idx := lutIdx n in
  let c000 := idx r0 g0 b0 in
  let c100 := idx r1 g0 b0 in
  let c010 := idx r0 g1 b0 in
  let c110 := idx r1 g1 b0 in
  let c001 := idx r0 g0 b1 in
  let c101 := idx r1 g0 b1 in
  let c011 := idx r0 g1 b1 in
  let c111 := idx r1 g1 b1 in
  x00 ← lerp3 d c000 c100 tr;
  x10 ← lerp3 d c010 c110 tr;
  x01 ← lerp3 d c001 c101 tr;
  x11 ← lerp3 d c011 c111 tr;
  let y0 := mix3 x00 x10 tg in
  let y1 := mix3 x01 x11 tg in
  Some (mix3 y0 y1 tb).

Definition LUT_SIZE : Z := 17.

(** ** Looks (procedural transforms)

    [Math.pow] with a real exponent and [Math.sqrt] have no rational
    model; they are taken from the host, together with the browser's CSS
    filter functions that [ctx.filter] names. *)

Module ImageData.
(** [data] holds [width * height * 4] bytes, RGBA, row by row. *)
Record t : Type := { width : Z; height : Z; data : list Z }.
End ImageData.

Class Host : Type := {
  Math_pow : Q → Q → Q;
  Math_sqrt : Q → Q;
  cssFilter : string → ImageData.t → ImageData.t
}.

(** An entry of [FilterList]: the object's [kind] field is the tag. *)
Inductive FilterMeta : Type :=
| MetaCss (key name value : string)
| MetaSimple (key name value : string)
| MetaLut (key name : string) (makeLUT : unit → LUT.t) (strength : option Q)
| MetaPixelate (key name : string)
| MetaEdge (key name : string).

Definition meta_key (m : FilterMeta) : string :=
  match m with
  | MetaCss k _ _ | MetaSimple k _ _ | MetaLut k _ _ _
  | MetaPixelate k _ | MetaEdge k _ => k
  end.

Section Looks.
Context `{Host}.

Definition highsSafe (y : Q) : Q := Math_pow y 1.2.

Definition lookWongKarWaiNeon (r g b : Q) : RGB :=
  let y := luma r g b in
  let shadows := Math_pow (1 - y) 1.25 in
  let highs := Math_pow y 1.5 in
  let r := r + (-0.02 * shadows + 0.06 * highs) in
  let g := g + (0.08 * shadows + 0.03 * highs) in
  let b := b + (0.06 * shadows - 0.03 * highs) in
  let r := sCurve r 0.25 in
  let g := sCurve g 0.25 in
  let b := sCurve b 0.25 in
  let '(h, s, l) := rgbToHsl (clamp01 r) (clamp01 g) (clamp01 b) in
  let s := clamp01 (s * 1.25) in
  let l := clamp01 (l * 0.98 + 0.01) in
  hslToRgb h s l.

Definition lookWesAndersonPastel (r g b : Q) : RGB :=
  let '(h, s, l) := rgbToHsl r g b in
  let l := mix l (0.5 + (l - 0.5) * 0.8) 0.6 in
  let l := l * 0.95 + 0.03 in
  let s := clamp01 (s * 0.9 + 0.05) in
  let '(rr, gg, bb) := hslToRgb h s l in
  let y := luma rr gg bb in
  let warm := Math_pow y 1.2 in
  let rr := rr + 0.04 * warm in
  let gg := gg + 0.02 * warm in
  let bb := bb - 0.015 * warm in
  (clamp01 rr, clamp01 gg, clamp01 bb).

Definition lookWesAndersonVintageWarm (r g b : Q) : RGB :=
  let y := luma r g b in
  let lift := 0.05 in
  let r := mix r (r + lift) 0.3 in
  let g := mix g (g + lift) 0.25 in
  let b := mix b (b + lift) 0.15 in
  let highs := Math_pow y 1.4 in
  let r := r + 0.05 * highs in
  let g := g + 0.025 * highs in
  let b := b - 0.02 * highs in
  let '(h, s, l) := rgbToHsl (clamp01 r) (clamp01 g) (clamp01 b) in
  let s := clamp01 (s * 0.92) in
  let l := clamp01 (l * 1.02) in
  hslToRgb h s l.

Definition lookWongKarWaiVerdant (r g b : Q) : RGB :=
  let y := luma r g b in
  let shadows := Math_pow (1 - y) 1.3 in
  let mids := Math_pow (1 - Qabs (y - 0.5) * 2) 1.5 in
  let g := g + (0.06 * mids + 0.05 * shadows) in
  let r := r + (0.01 * mids - 0.02 * shadows) in
  let b := b - (0.01 * mids + 0.015 * highsSafe y) in
  let r := sCurve r 0.15 in
  let g := sCurve g 0.15 in
  let b := sCurve b 0.15 in
  let '(h, s, l) := rgbToHsl (clamp01 r) (clamp01 g) (clamp01 b) in
  let s := clamp01 (s * 0.95) in
  let l := clamp01 (l * 0.98 + 0.01) in
  hslToRgb h s l.

Definition makeLUT_WKW_Neon (_ : unit) : LUT.t :=
  generate3DLUT LUT_SIZE lookWongKarWaiNeon.
Definition makeLUT_WKW_Verdant (_ : unit) : LUT.t :=
  generate3DLUT LUT_SIZE lookWongKarWaiVerdant.
Definition makeLUT_WA_Pastel (_ : unit) : LUT.t :=
  generate3DLUT LUT_SIZE lookWesAndersonPastel.
Definition makeLUT_WA_Vintage (_ : unit) : LUT.t :=
  generate3DLUT LUT_SIZE lookWesAndersonVintageWarm.

Definition FilterList : list FilterMeta :=
  [ MetaCss "normal" "Normal" "none";
    MetaLut "wkw_neon" "Wong Kar-Wai - Neon Night" makeLUT_WKW_Neon (Some 1.0);
    MetaLut "wkw_verdant" "Wong Kar-Wai - Verdant Mood" makeLUT_WKW_Verdant (Some 0.95);
    MetaLut "wes_pastel" "Wes Anderson - Pastel Pop" makeLUT_WA_Pastel (Some 0.95);
    MetaLut "wes_vintage" "Wes Anderson - Vintage Warm" makeLUT_WA_Vintage (Some 0.95) ].
End Looks.

(** ** The canvas

    The 2D context is the browser's.  Its model here keeps what the
    pipeline uses: a bitmap, a drawing state (filter, an axis-aligned
    transform, the smoothing flag) and the stack of saved states.  Images
    are sampled at pixel centres with the nearest source pixel, which is
    what the browser does when the scale is 1 or smoothing is off; a drawn
    pixel replaces the target pixel (video frames are opaque). *)

Definition Pixel : Type := Z * Z * Z * Z.

Definition bytes (p : Pixel) : list Z :=
  let '(r, g, b, a) := p in [r; g; b; a].

Definition inBitmap (W H x y : Z) : bool :=
  ((0 <=? x) && (x <? W) && (0 <=? y) && (y <? H))%Z.

Definition byte_at (d : list Z) (i : Z) : Z := default 0%Z (arr_get d i).

(** The pixel of [img] at column [x], row [y]; transparent black outside. *)
Definition pixel_at (img : ImageData.t) (x y : Z) : Pixel :=
  if inBitmap (ImageData.width img) (ImageData.height img) x y then
    let o := ((y * ImageData.width img + x) * 4)%Z in
    (byte_at (ImageData.data img) o, byte_at (ImageData.data img) (o + 1),
     byte_at (ImageData.data img) (o + 2), byte_at (ImageData.data img) (o + 3))
  else (0, 0, 0, 0)%Z.

(** A [W] by [H] bitmap given pixel by pixel. *)
Definition tabulate (W H : Z) (f : Z → Z → Pixel) : ImageData.t :=
  {| ImageData.width := W; ImageData.height := H;
     ImageData.data :=
       mjoin ((λ p, bytes (f (p `mod` W) (p `div` W))%Z) <$> seqZ 0 (W * H)) |}.

(** A cleared bitmap: transparent black. *)
Definition blank (W H : Z) : ImageData.t :=
  {| ImageData.width := W; ImageData.height := H;
     ImageData.data := replicate (Z.to_nat (W * H * 4)) 0%Z |}.

(** The transform [x' = a x + e], [y' = d y + f]. *)
Record Transform : Type := { ta : Q; td : Q; te : Q; tf : Q }.

Definition identityTransform : Transform := {| ta := 1; td := 1; te := 0; tf := 0 |}.

Module DrawState.
Record t : Type :=
  { filter : string; transform : Transform; imageSmoothingEnabled : bool }.
End DrawState.

Module Ctx.
Record t : Type :=
  { canvas : ImageData.t; state : DrawState.t; stack : list DrawState.t }.
End Ctx.

Definition initialDrawState : DrawState.t :=
  {| DrawState.filter := "none"; DrawState.transform := identityTransform;
     DrawState.imageSmoothingEnabled := true |}.

(** [document.createElement('canvas').getContext('2d')]: 300 by 150. *)
Definition createCanvas : Ctx.t :=
  {| Ctx.canvas := blank 300 150; Ctx.state := initialDrawState; Ctx.stack := [] |}.

(** Assigning [canvas.width] and [canvas.height] clears the bitmap and
    resets the context. *)
Definition setCanvasSize (W H : Z) : Ctx.t :=
  {| Ctx.canvas := blank W H; Ctx.state := initialDrawState; Ctx.stack := [] |}.

Definition with_state (ctx : Ctx.t) (st : DrawState.t) : Ctx.t :=
  {| Ctx.canvas := Ctx.canvas ctx; Ctx.state := st; Ctx.stack := Ctx.stack ctx |}.

Definition with_canvas (ctx : Ctx.t) (cv : ImageData.t) : Ctx.t :=
  {| Ctx.canvas := cv; Ctx.state := Ctx.state ctx; Ctx.stack := Ctx.stack ctx |}.

Definition ctx_save (ctx : Ctx.t) : Ctx.t :=
  {| Ctx.canvas := Ctx.canvas ctx; Ctx.state := Ctx.state ctx;
     Ctx.stack := Ctx.state ctx :: Ctx.stack ctx |}.

Definition ctx_restore (ctx : Ctx.t) : Ctx.t :=
  match Ctx.stack ctx with
  | [] => ctx
  | st :: rest => {| Ctx.canvas := Ctx.canvas ctx; Ctx.state := st; Ctx.stack := rest |}
  end.

Definition ctx_setFilter (ctx : Ctx.t) (f : string) : Ctx.t :=
  with_state ctx
    {| DrawState.filter := f;
       DrawState.transform := DrawState.transform (Ctx.state ctx);
       DrawState.imageSmoothingEnabled := DrawState.imageSmoothingEnabled (Ctx.state ctx) |}.

Definition ctx_setSmoothing (ctx : Ctx.t) (b : bool) : Ctx.t :=
  with_state ctx
    {| DrawState.filter := DrawState.filter (Ctx.state ctx);
       DrawState.transform := DrawState.transform (Ctx.state ctx);
       DrawState.imageSmoothingEnabled := b |}.

Definition ctx_setTransform (ctx : Ctx.t) (t : Transform) : Ctx.t :=
  with_state ctx
    {| DrawState.filter := DrawState.filter (Ctx.state ctx);
       DrawState.transform := t;
       DrawState.imageSmoothingEnabled := DrawState.imageSmoothingEnabled (Ctx.state ctx) |}.

Definition ctx_translate (ctx : Ctx.t) (x y : Q) : Ctx.t :=
  let t := DrawState.transform (Ctx.state ctx) in
  ctx_setTransform ctx
    {| ta := ta t; td := td t; te := te t + ta t * x; tf := tf t + td t * y |}.

Definition ctx_scale (ctx : Ctx.t) (sx sy : Q) : Ctx.t :=
  let t := DrawState.transform (Ctx.state ctx) in
  ctx_setTransform ctx {| ta := ta t * sx; td := td t * sy; te := te t; tf := tf t |}.

(** The point of user space that the centre of bitmap pixel [(X, Y)] is
    the image of. *)
Definition user_x (t : Transform) (X : Z) : Q := (inject_Z X + 0.5 - te t) / ta t.
Definition user_y (t : Transform) (Y : Z) : Q := (inject_Z Y + 0.5 - tf t) / td t.

Definition inSpan (u : Q) (lo len : Z) : bool :=
  Qle_bool (inject_Z lo) u && Qltb u (inject_Z (lo + len)).

Definition ctx_clearRect (ctx : Ctx.t) (x y w h : Z) : Ctx.t :=
  let t := DrawState.transform (Ctx.state ctx) in
  let cv := Ctx.canvas ctx in
  with_canvas ctx
    (tabulate (ImageData.width cv) (ImageData.height cv) (λ X Y,
       if inSpan (user_x t X) x w && inSpan (user_y t Y) y h
       then (0, 0, 0, 0)%Z else pixel_at cv X Y)).

Definition ctx_getImageData (ctx : Ctx.t) (sx sy sw sh : Z) : ImageData.t :=
  tabulate sw sh (λ X Y, pixel_at (Ctx.canvas ctx) (sx + X) (sy + Y)).

Definition ctx_putImageData (ctx : Ctx.t) (img : ImageData.t) (dx dy : Z) : Ctx.t :=
  let cv := Ctx.canvas ctx in
  with_canvas ctx
    (tabulate (ImageData.width cv) (ImageData.height cv) (λ X Y,
       if inBitmap (ImageData.width img) (ImageData.height img) (X - dx) (Y - dy)
       then pixel_at img (X - dx) (Y - dy) else pixel_at cv X Y)).

Section Canvas.
Context `{Host}.

(** [ctx.drawImage(source, sx, sy, sw, sh, dx, dy, dw, dh)]. *)
Definition ctx_drawImage9 (ctx : Ctx.t) (source : ImageData.t)
    (sx sy sw sh dx dy dw dh : Z) : Ctx.t :=
  let st := Ctx.state ctx in
  let t := DrawState.transform st in
  let src :=
    if String.eqb (DrawState.filter st) "none" then source
    else cssFilter (DrawState.filter st) source in
  let cv := Ctx.canvas ctx in
  with_canvas ctx
    (tabulate (ImageData.width cv) (ImageData.height cv) (λ X Y,
       let u := user_x t X in
       let v := user_y t Y in
       if inSpan u dx dw && inSpan v dy dh then
         pixel_at src
           (sx + Qfloor ((u - inject_Z dx) * inject_Z sw / inject_Z dw))
           (sy + Qfloor ((v - inject_Z dy) * inject_Z sh / inject_Z dh))
       else pixel_at cv X Y)).

(** [ctx.drawImage(source, dx, dy, dw, dh)]: the whole source. *)
Definition ctx_drawImage5 (ctx : Ctx.t) (source : ImageData.t)
    (dx dy dw dh : Z) : Ctx.t :=
  ctx_drawImage9 ctx source 0 0 (ImageData.width source) (ImageData.height source)
    dx dy dw dh.
End Canvas.

(** ** The Sobel edge detector *)

(** The conversion of a number stored into a [Uint8ClampedArray]: [NaN]
    becomes 0, the value is clamped to [0, 255] and rounded to the nearest
    integer, halves to the even one. *)
Definition roundHalfEven (x : Q) : Z :=
  let f := Qfloor x in
  let r := x - inject_Z f in
  if Qltb r 0.5 then f
  else if Qltb 0.5 r then (f + 1)%Z
  else if Z.even f then f else (f + 1)%Z.

Definition toUint8Clamped (v : option Q) : Z :=
  match v with
  | None => 0%Z
  | Some x =>
      if Qle_bool x 0 then 0%Z
      else if Qle_bool 255 x then 255%Z
      else roundHalfEven x
  end.

(** An element of the [gray] array; [None] is [NaN]. *)
Definition gray_at (gray : list (option Q)) (i : Z) : option Q :=
  mjoin (arr_get gray i).

Section Sobel.
Context `{Host}.

(** The first loop: [gray[i]] from the bytes at [j = 4 i]. *)
Definition grayLoop (src : list Z) (width height : Z) : list (option Q) :=
  let gray := replicate (Z.to_nat (width * height)) (Some 0) in
  (for_range 0 (Z.of_nat (length gray)) (λ i '(gray, j),
     let v :=
       r ← arr_get src j; g ← arr_get src (j + 1); b ← arr_get src (j + 2);
       Some (0.2126 * inject_Z r + 0.7152 * inject_Z g + 0.0722 * inject_Z b) in
     (<[Z.to_nat i := v]> gray, (j + 4)%Z)) (gray, 0%Z)).1.

(** The value [v] computed for the pixel of index [i]. *)
Definition sobelAt (gray : list (option Q)) (w i : Z) : option Q :=
  tl ← gray_at gray (i - w - 1); tc ← gray_at gray (i - w);
  tr ← gray_at gray (i - w + 1);
  ml ← gray_at gray (i - 1); mc ← gray_at gray i; mr ← gray_at gray (i + 1);
  bl ← gray_at gray (i + w - 1); bc ← gray_at gray (i + w);
  br ← gray_at gray (i + w + 1);
  let gx := - tl + tr + -2 * ml + 2 * mr + - bl + br in
  let gy := - tl - 2 * tc - tr + bl + 2 * bc + br in
  let mag := Math_sqrt (gx * gx + gy * gy) * 0.25 in
  Some (if Qgtb mag 255 then 255 else mag).

Definition sobelEdge (imageData : ImageData.t) (width height : Z) : ImageData.t :=
  let src := ImageData.data imageData in
  let gray := grayLoop src width height in
  let out := replicate (length src) 0%Z in
  let w := width in
  let h := height in
  let out :=
    for_range 1 (h - 1) (λ y out,
      for_range 1 (w - 1) (λ x out,
        let i := (y * w + x)%Z in
        let v := toUint8Clamped (sobelAt gray w i) in
        let o := (i * 4)%Z in
        let out := <[Z.to_nat (o + 2) := v]> out in
        let out := <[Z.to_nat (o + 1) := v]> out in
        let out := <[Z.to_nat o := v]> out in
        <[Z.to_nat (o + 3) := 255%Z]> out) out) out in
  {| ImageData.width := width; ImageData.height := height; ImageData.data := out |}.
End Sobel.

(** ** The filter pipeline *)

Module EdgeCache.
Record t : Type :=
  { imageData : option ImageData.t; lastUpdateTs : Q; frameCounter : Z; skip : Z }.
End EdgeCache.

Module Pipeline.
(** [pixelCtx] holds the pixel canvas and its context. *)
Record t : Type :=
  { pixelCtx : Ctx.t; edgeCache : EdgeCache.t; lutCache : gmap string LUT.t;
    w : Z; h : Z }.
End Pipeline.

(** What a call computed afresh: the trace the throttling and caching
    properties are stated on. *)
Inductive Event : Type :=
| SobelComputed
| LutBuilt (key : string).

Definition Event_eqb (e e' : Event) : bool :=
  match e, e' with
  | SobelComputed, SobelComputed => true
  | LutBuilt k, LutBuilt k' => String.eqb k k'
  | _, _ => false
  end.

(** [new FilterPipeline()]. *)
Definition newFilterPipeline : Pipeline.t :=
  {| Pipeline.pixelCtx := createCanvas;
     Pipeline.edgeCache :=
       {| EdgeCache.imageData := None; EdgeCache.lastUpdateTs := 0;
          EdgeCache.frameCounter := 0; EdgeCache.skip := 1 |};
     Pipeline.lutCache := ∅;
     Pipeline.w := 0; Pipeline.h := 0 |}.

Definition resize (p : Pipeline.t) (w h : Z) : Pipeline.t :=
  if ((Pipeline.w p =? w) && (Pipeline.h p =? h))%Z then p
  else
    let targetSmallW := Z.max 32 (Math_round (inject_Z w / 24)) in
    let targetSmallH := Z.max 32 (Math_round (inject_Z h / 24)) in
    {| Pipeline.pixelCtx := setCanvasSize targetSmallW targetSmallH;
       Pipeline.edgeCache := Pipeline.edgeCache p;
       Pipeline.lutCache := Pipeline.lutCache p;
       Pipeline.w := w; Pipeline.h := h |}.

Definition getOrCreateLUT (p : Pipeline.t) (key : string) (makeLUT : unit → LUT.t)
    : Pipeline.t * LUT.t * list Event :=
  match Pipeline.lutCache p !! key with
  | Some lut => (p, lut, [])
  | None =>
      let built := makeLUT () in
      ({| Pipeline.pixelCtx := Pipeline.pixelCtx p;
          Pipeline.edgeCache := Pipeline.edgeCache p;
          Pipeline.lutCache := <[key := built]> (Pipeline.lutCache p);
          Pipeline.w := Pipeline.w p; Pipeline.h := Pipeline.h p |},
       built, [LutBuilt key])
  end.

Definition with_edgeCache (p : Pipeline.t) (ec : EdgeCache.t) : Pipeline.t :=
  {| Pipeline.pixelCtx := Pipeline.pixelCtx p; Pipeline.edgeCache := ec;
     Pipeline.lutCache := Pipeline.lutCache p;
     Pipeline.w := Pipeline.w p; Pipeline.h := Pipeline.h p |}.

Definition with_pixelCtx (p : Pipeline.t) (c : Ctx.t) : Pipeline.t :=
  {| Pipeline.pixelCtx := c; Pipeline.edgeCache := Pipeline.edgeCache p;
     Pipeline.lutCache := Pipeline.lutCache p;
     Pipeline.w := Pipeline.w p; Pipeline.h := Pipeline.h p |}.

(** [s || 'none']. *)
Definition orNone (s : string) : string := if String.eqb s "" then "none" else s.

(** The store of a number that [Math.round] produced into a
    [Uint8ClampedArray]. *)
Definition u8 (z : Z) : Z := Z.max 0 (Z.min 255 z).

Section Methods.
Context `{Host}.

Definition drawMirrored (ctx : Ctx.t) (source : ImageData.t) (w h : Z)
    (filterStr : string) : Ctx.t :=
  let ctx := ctx_save ctx in
  let ctx := ctx_setFilter ctx (orNone filterStr) in
  let ctx := ctx_translate ctx (inject_Z w) 0 in
  let ctx := ctx_scale ctx (-1) 1 in
  let ctx := ctx_drawImage5 ctx source 0 0 w h in
  let ctx := ctx_restore ctx in
  ctx_setFilter ctx "none".

Definition renderPixelate (p : Pipeline.t) (offCtx : Ctx.t) (video : ImageData.t)
    : Pipeline.t * Ctx.t * list Event :=
  let w := Pipeline.w p in
  let h := Pipeline.h p in
  if ((w =? 0) || (h =? 0))%Z then (p, offCtx, [])
  else
    let pctx := Pipeline.pixelCtx p in
    let pw := ImageData.width (Ctx.canvas pctx) in
    let ph := ImageData.height (Ctx.canvas pctx) in
    let pctx := ctx_save pctx in
    let pctx := ctx_setSmoothing pctx false in
    let pctx := ctx_clearRect pctx 0 0 pw ph in
    let pctx := ctx_translate pctx (inject_Z pw) 0 in
    let pctx := ctx_scale pctx (-1) 1 in
    let pctx := ctx_drawImage5 pctx video 0 0 pw ph in
    let pctx := ctx_restore pctx in
    let offCtx := ctx_save offCtx in
    let offCtx := ctx_setSmoothing offCtx false in
    let offCtx := ctx_clearRect offCtx 0 0 w h in
    let offCtx := ctx_drawImage9 offCtx (Ctx.canvas pctx) 0 0 pw ph 0 0 w h in
    let offCtx := ctx_restore offCtx in
    (with_pixelCtx p pctx, offCtx, []).

(** [now] is the reading of [performance.now()] during the call. *)
Definition renderEdge (p : Pipeline.t) (offCtx : Ctx.t) (video : ImageData.t)
    (now : Q) : Pipeline.t * Ctx.t * list Event :=
  let w := Pipeline.w p in
  let h := Pipeline.h p in
  if ((w =? 0) || (h =? 0))%Z then (p, offCtx, [])
  else
    let offCtx := drawMirrored offCtx video w h "none" in
    let ec := Pipeline.edgeCache p in
    let ec :=
      {| EdgeCache.imageData := EdgeCache.imageData ec;
         EdgeCache.lastUpdateTs := EdgeCache.lastUpdateTs ec;
         EdgeCache.frameCounter := (EdgeCache.frameCounter ec + 1)%Z;
         EdgeCache.skip := EdgeCache.skip ec |} in
    let shouldCompute :=
      (Z.rem (EdgeCache.frameCounter ec) (EdgeCache.skip ec + 1) =? 0)%Z
      || negb (bool_decide (is_Some (EdgeCache.imageData ec))) in
    let '(ec, ev) :=
      if shouldCompute then
        let frame := ctx_getImageData offCtx 0 0 w h in
        let edged := sobelEdge frame w h in
        ({| EdgeCache.imageData := Some edged;
            EdgeCache.lastUpdateTs := now;
            EdgeCache.frameCounter := EdgeCache.frameCounter ec;
            EdgeCache.skip := EdgeCache.skip ec |}, [SobelComputed])
      else (ec, []) in
    let offCtx :=
      match EdgeCache.imageData ec with
      | Some img => ctx_putImageData offCtx img 0 0
      | None => offCtx
      end in
    (with_edgeCache p ec, offCtx, ev).

(** One iteration of the pixel loop of [renderLUT], at byte offset [i]. *)
Definition gradePixel (lut : LUT.t) (strength : Q) (i : Z) (data : list Z) : list Z :=
  let graded :=
    r ← (λ v, inject_Z v / 255) <$> arr_get data i;
    g ← (λ v, inject_Z v / 255) <$> arr_get data (i + 1);
    b ← (λ v, inject_Z v / 255) <$> arr_get data (i + 2);
    c ← sampleLUT3D lut r g b;
    Some (Math_round (clamp01 (mix r (ch0 c) strength) * 255),
          Math_round (clamp01 (mix g (ch1 c) strength) * 255),
          Math_round (clamp01 (mix b (ch2 c) strength) * 255)) in
  let '(nr, ng, nb) := default (0, 0, 0)%Z graded in
  let data := <[Z.to_nat i := u8 nr]> data in
  let data := <[Z.to_nat (i + 1) := u8 ng]> data in
  <[Z.to_nat (i + 2) := u8 nb]> data.

Definition renderLUT (p : Pipeline.t) (offCtx : Ctx.t) (video : ImageData.t)
    (key : string) (makeLUT : unit → LUT.t) (metaStrength : option Q)
    : Pipeline.t * Ctx.t * list Event :=
  let w := Pipeline.w p in
  let h := Pipeline.h p in
  if ((w =? 0) || (h =? 0))%Z then (p, offCtx, [])
  else
    let offCtx := drawMirrored offCtx video w h "none" in
    let frame := ctx_getImageData offCtx 0 0 w h in
    let data := ImageData.data frame in
    let '(p, lut, ev) := getOrCreateLUT p key makeLUT in
    let strength := default 1.0 metaStrength in
    let data := for_stride4 (Z.of_nat (length data)) (gradePixel lut strength) data in
    let frame :=
      {| ImageData.width := ImageData.width frame;
         ImageData.height := ImageData.height frame; ImageData.data := data |} in
    (p, ctx_putImageData offCtx frame 0 0, ev).

Definition apply (p : Pipeline.t) (offCtx : Ctx.t) (video : ImageData.t)
    (filterKey : string) (now : Q) : Pipeline.t * Ctx.t * list Event :=
  let w := Pipeline.w p in
  let h := Pipeline.h p in
  if ((w =? 0) || (h =? 0))%Z then (p, offCtx, [])
  else
    match find (λ f, String.eqb (meta_key f) filterKey) FilterList with
    | Some (MetaCss _ _ value) | Some (MetaSimple _ _ value) =>
        (p, drawMirrored offCtx video w h (orNone value), [])
    | Some (MetaLut key _ makeLUT strength) =>
        renderLUT p offCtx video key makeLUT strength
    | Some (MetaPixelate _ _) => renderPixelate p offCtx video
    | Some (MetaEdge _ _) => renderEdge p offCtx video now
    | None =>
        if String.eqb filterKey "pixelate" then renderPixelate p offCtx video
        else if String.eqb filterKey "edge" then renderEdge p offCtx video now
        else (p, drawMirrored offCtx video w h "none", [])
    end.
End Methods.

(** ** The clap detector of app.js *)

Definition thresholdRel : Q := 0.16.
Definition minDurationMs : Q := 90.
Definition cooldownMs : Q := 650.
Definition hysteresisUp : Q := thresholdRel * 1.35.

Module Clap.
(** The three variables the closure of [createClapDetector] captures. *)
Record t : Type :=
  { belowSince : option Q; cooldownUntil : Q; inClapZone : bool }.
End Clap.

Definition createClapDetector : Clap.t :=
  {| Clap.belowSince := None; Clap.cooldownUntil := 0; Clap.inClapZone := false |}.

Definition update (st : Clap.t) (distNorm : Q) (bothHands : bool) (now : Q)
    : bool * Clap.t :=
  if negb bothHands then
    (false, {| Clap.belowSince := None; Clap.cooldownUntil := Clap.cooldownUntil st;
               Clap.inClapZone := false |})
  else if Qltb now (Clap.cooldownUntil st) then (false, st)
  else if negb (Clap.inClapZone st) && Qltb distNorm thresholdRel then
    let belowSince :=
      match Clap.belowSince st with None => now | Some t => t end in
    if Qgeb (now - belowSince) minDurationMs then
      (true, {| Clap.belowSince := None; Clap.cooldownUntil := now + cooldownMs;
                Clap.inClapZone := true |})
    else
      (false, {| Clap.belowSince := Some belowSince;
                 Clap.cooldownUntil := Clap.cooldownUntil st;
                 Clap.inClapZone := Clap.inClapZone st |})
  else if Clap.inClapZone st && Qgtb distNorm hysteresisUp then
    (false, {| Clap.belowSince := Clap.belowSince st;
               Clap.cooldownUntil := Clap.cooldownUntil st;
               Clap.inClapZone := false |})
  else if negb (Clap.inClapZone st) && Qgeb distNorm thresholdRel then
    (false, {| Clap.belowSince := None; Clap.cooldownUntil := Clap.cooldownUntil st;
               Clap.inClapZone := Clap.inClapZone st |})
  else (false, st).

(** One call of [update]: its three arguments. *)
Record Call : Type := { distNorm : Q; bothHands : bool; now : Q }.

Definition step (st : Clap.t) (c : Call) : bool * Clap.t :=
  update st (distNorm c) (bothHands c) (now c).

(** The results of a sequence of calls on one detector, and its last state. *)
Fixpoint updates (st : Clap.t) (cs : list Call) : list bool * Clap.t :=
  match cs with
  | [] => ([], st)
  | c :: cs =>
      let '(fired, st) := step st c in
      let '(rest, st) := updates st cs in
      (fired :: rest, st)
  end.

(** ** The point smoother of app.js *)

Definition Point : Type := Q * Q.

Module Smoother.
Record t : Type := { alpha : Q; pt : option Point }.
End Smoother.

(** [makePointSmoother(alpha = 0.5)]: [None] is an omitted argument. *)
Definition makePointSmoother (alpha : option Q) : Smoother.t :=
  {| Smoother.alpha := default 0.5 alpha; Smoother.pt := None |}.

Definition push (s : Smoother.t) (x y : Q) : Point * Smoother.t :=
  let a := Smoother.alpha s in
  let pt :=
    match Smoother.pt s with
    | None => (x, y)
    | Some pt => (pt.1 * (1 - a) + x * a, pt.2 * (1 - a) + y * a)
    end in
  (pt, {| Smoother.alpha := a; Smoother.pt := Some pt |}).

Definition get (s : Smoother.t) : option Point := Smoother.pt s.

Definition reset (s : Smoother.t) : Smoother.t :=
  {| Smoother.alpha := Smoother.alpha s; Smoother.pt := None |}.

Definition leftSmoother : Smoother.t := makePointSmoother (Some 0.4).
Definition rightSmoother : Smoother.t := makePointSmoother (Some 0.4).

(** ** Sequences of method calls on one pipeline *)

(** A method call on a pipeline, with its arguments. *)
Inductive Op : Type :=
| CallResize (w h : Z)
| CallApply (offCtx : Ctx.t) (video : ImageData.t) (filterKey : string) (now : Q).

Section Runs.
Context `{Host}.

Definition call (p : Pipeline.t) (op : Op) : Pipeline.t * list Event :=
  match op with
  | CallResize w h => (resize p w h, [])
  | CallApply offCtx video filterKey now =>
      let '(p, _, ev) := apply p offCtx video filterKey now in (p, ev)
  end.

(** The pipeline after a sequence of calls, and the events of each call. *)
Fixpoint calls (p : Pipeline.t) (ops : list Op) : Pipeline.t * list (list Event) :=
  match ops with
  | [] => (p, [])
  | op :: ops =>
      let '(p, ev) := call p op in
      let '(p, evs) := calls p ops in
      (p, ev :: evs)
  end.
End Runs.

(** How many times the LUT of [key] was built during the calls. *)
Definition builds (key : string) (evs : list (list Event)) : nat :=
  length (List.filter (Event_eqb (LutBuilt key)) (concat evs)).

(** The condition [shouldCompute] of [renderEdge], on the cache as the call
    finds it: the counter is incremented before the test. *)
Definition shouldCompute (ec : EdgeCache.t) : bool :=
  (Z.rem (EdgeCache.frameCounter ec + 1) (EdgeCache.skip ec + 1) =? 0)%Z
  || negb (bool_decide (is_Some (EdgeCache.imageData ec))).

(** ** Notions the properties are stated with *)

(** A table as [generate3DLUT] builds them: [size]^3 entries of 3 numbers. *)
Definition lut_wf (lut : LUT.t) : Prop :=
  (1 <= LUT.size lut)%Z ∧
  length (LUT.data lut) = Z.to_nat (LUT.size lut * LUT.size lut * LUT.size lut * 3).

Definition in01 (v : Q) : Prop := 0 <= v <= 1.

(** Both planes that [latticeCell] picked are planes of the table. *)
Definition cell_in_table (n : Z) (c : Z * Z * Q) : Prop :=
  (0 <= c.1.1 <= n - 1)%Z ∧ (0 <= c.1.2 <= n - 1)%Z.

(** The three numbers stored from offset [o]. *)
Definition texel (d : list Q) (o : Z) : RGB :=
  (default 0 (arr_get d o), default 0 (arr_get d (o + 1)), default 0 (arr_get d (o + 2))).

(** The result of [sampleLUT3D] when its eight corners are in the table. *)
Definition trilinear (d : list Q) (n : Z) (cr cg cb : Z * Z * Q) : RGB :=
  let '(r0, r1, tr) := cr in
  let '(g0, g1, tg) := cg in
  let '(b0, b1, tb) := cb in
  mix3
    (mix3 (mix3 (texel d (lutIdx n r0 g0 b0)) (texel d (lutIdx n r1 g0 b0)) tr)
          (mix3 (texel d (lutIdx n r0 g1 b0)) (texel d (lutIdx n r1 g1 b0)) tr) tg)
    (mix3 (mix3 (texel d (lutIdx n r0 g0 b1)) (texel d (lutIdx n r1 g0 b1)) tr)
          (mix3 (texel d (lutIdx n r0 g1 b1)) (texel d (lutIdx n r1 g1 b1)) tr) tg)
    tb.

(** A loop body that appends the block [blk] at the write index. *)
Definition writes_block (m : nat) (body : list Q * Z → list Q * Z) (blk : list Q) : Prop :=
  length blk = m ∧
  ∀ pre rest, (m ≤ length rest)%nat →
    body (pre ++ rest, Z.of_nat (length pre))
    = (pre ++ blk ++ drop m rest, Z.of_nat (length pre + m)).

(** The look at the grid point [(ri, gi, bi)], and the block stored for it. *)
Definition gridEntry (n : Z) (f : Q → Q → Q → RGB) (ri gi bi : Z) : RGB :=
  f (inject_Z ri / inject_Z (n - 1)) (inject_Z gi / inject_Z (n - 1))
    (inject_Z bi / inject_Z (n - 1)).

Definition entryBlock (c : RGB) : list Q :=
  [clamp01 (ch0 c); clamp01 (ch1 c); clamp01 (ch2 c)].

(** A write at index [i] of the value [val i]. *)
Definition poke {A : Type} (val : Z → A) (l : list A) (i : Z) : list A :=
  <[Z.to_nat i := val i]> l.

(** The value the first loop of [sobelEdge] stores for the pixel whose bytes
    start at [j]. *)
Definition grayVal (src : list Z) (j : Z) : option Q :=
  r ← arr_get src j; g ← arr_get src (j + 1); b ← arr_get src (j + 2);
  Some (0.2126 * inject_Z r + 0.7152 * inject_Z g + 0.0722 * inject_Z b).

(** The offsets written for the pixel of index [i], in the order of the code,
    and those written by the two nested loops. *)
Definition quad (i : Z) : list Z := [i * 4 + 2; i * 4 + 1; i * 4; i * 4 + 3]%Z.

Definition edgeOffsets (w h : Z) : list Z :=
  mjoin ((λ y, mjoin ((λ x, quad (y * w + x)) <$> seqZ 1 (w - 1 - 1)))
           <$> seqZ 1 (h - 1 - 1)).

(** The pixels the second loop of [sobelEdge] visits: all but the border. *)
Definition interior (w h x y : Z) : bool :=
  ((1 <=? x) && (x <? w - 1) && (1 <=? y) && (y <? h - 1))%Z.

(** A frame of [w] by [h] pixels that all are [c]. *)
Definition uniformFrame (img : ImageData.t) (w h : Z) (c : Pixel) : Prop :=
  ImageData.width img = w ∧ ImageData.height img = h ∧
  length (ImageData.data img) = Z.to_nat (w * h * 4) ∧
  ∀ x y, (0 <= x < w)%Z → (0 <= y < h)%Z → pixel_at img x y = c.

Section EdgeBytes.
Context `{Host}.

(** The byte that the second loop stores at offset [q], when it stores one. *)
Definition edgeByte (gray : list (option Q)) (w q : Z) : Z :=
  if (q `mod` 4 =? 3)%Z then 255%Z else toUint8Clamped (sobelAt gray w (q `div` 4)).
End EdgeBytes.

(** A call that lets the detector leave the clap zone: a hand is missing, or
    the cooldown is over and the hands are further apart than [hysteresisUp]. *)
Definition releases (deadline : Q) (c : Call) : Prop :=
  bothHands c = false ∨ (deadline <= now c ∧ hysteresisUp < distNorm c).

Definition releasesb (deadline : Q) (c : Call) : bool :=
  negb (bothHands c) || (Qle_bool deadline (now c) && Qltb hysteresisUp (distNorm c)).

(** A call of one of the smoother's methods. *)
Inductive SmootherOp : Type :=
| Push (x y : Q)
| Reset.

Definition smootherStep (s : Smoother.t) (op : SmootherOp) : Smoother.t :=
  match op with
  | Push x y => (push s x y).2
  | Reset => reset s
  end.

(** ** Concrete inputs *)

Definition identityLook (r g b : Q) : RGB := (r, g, b).

(** A host for evaluation: integer square root, a stand-in power and CSS
    filters that leave the image alone. *)
Definition exampleHost : Host :=
  {| Math_pow := λ x _, x;
     Math_sqrt := λ x, inject_Z (Z.sqrt (Qfloor x));
     cssFilter := λ _ img, img |}.

Definition grayFrame3 : ImageData.t := tabulate 3 3 (λ _ _, (10, 20, 30, 255)%Z).

Definition twoPixels : ImageData.t :=
  {| ImageData.width := 2; ImageData.height := 1;
     ImageData.data := [1; 2; 3; 255; 4; 5; 6; 255]%Z |}.

Definition twoClaps : list Call :=
  [ Build_Call 0.05 true 0; Build_Call 0.05 true 100; Build_Call 0.3 true 800;
    Build_Call 0.05 true 900; Build_Call 0.05 true 1000 ].

Definition smallLUT : LUT.t := generate3DLUT 2 identityLook.

Definition pipe33 : Pipeline.t := resize newFilterPipeline 3 3.
Definition canvas33 : Ctx.t := setCanvasSize 3 3.
Definition pipe21 : Pipeline.t := resize newFilterPipeline 2 1.
Definition canvas21 : Ctx.t := setCanvasSize 2 1.

(** A pipeline that has the table of one key in its cache. *)
Definition cachedPipeline : Pipeline.t :=
  {| Pipeline.pixelCtx := setCanvasSize 32 32;
     Pipeline.edgeCache := Pipeline.edgeCache newFilterPipeline;
     Pipeline.lutCache := {[ "wkw_neon" := smallLUT ]};
     Pipeline.w := 2; Pipeline.h := 1 |}.

Definition cachedCalls : list Op :=
  [ CallApply canvas21 twoPixels "wkw_neon" 0; CallResize 4 4;
    CallApply canvas21 twoPixels "wkw_neon" 1 ].


(** ** The rest of app.js: filter cycling, the cover rectangle, the palm
    centre and the handler of the hand-tracking results *)

(** [(filterIndex + 1) % FilterList.length] and
    [(filterIndex - 1 + FilterList.length) % FilterList.length]; [%] is the
    remainder of the truncated division. *)
Definition nextIndex (len filterIndex : Z) : Z := Z.rem (filterIndex + 1) len.
Definition prevIndex (len filterIndex : Z) : Z := Z.rem (filterIndex - 1 + len) len.

Section FilterCycle.
Context `{Host}.

Definition nextFilter (filterIndex : Z) : Z :=
  nextIndex (Z.of_nat (length FilterList)) filterIndex.

Definition prevFilter (filterIndex : Z) : Z :=
  prevIndex (Z.of_nat (length FilterList)) filterIndex.
End FilterCycle.

Module Rect.
Record t : Type := { x : Z; y : Z; w : Z; h : Z }.
End Rect.

(** For source dimensions other than 0: a division by 0 is [Infinity] or
    [NaN] in JavaScript. *)
Definition computeCoverRect (srcW srcH dstW dstH : Z) : Rect.t :=
  let scale := Qmax (inject_Z dstW / inject_Z srcW) (inject_Z dstH / inject_Z srcH) in
  let w := Math_round (inject_Z srcW * scale) in
  let h := Math_round (inject_Z srcH * scale) in
  let x := Math_round ((inject_Z dstW - inject_Z w) / 2) in
  let y := Math_round ((inject_Z dstH - inject_Z h) / 2) in
  {| Rect.x := x; Rect.y := y; Rect.w := w; Rect.h := h |}.

(** The landmark indices of the wrist and the knuckles. *)
Definition palmIdx : list nat := [0; 1; 5; 9; 13; 17]%nat.

(** [palmCenter(landmarks)]; [None] is the TypeError of reading [p.x] on a
    landmark that is not there. *)
Definition palmCenter (landmarks : list Point) : option Point :=
  acc ← fold_left (λ acc i,
           s ← acc; p ← landmarks !! i; Some (s.1 + p.1, s.2 + p.2))
         palmIdx (Some (0, 0));
  Some (acc.1 / inject_Z (Z.of_nat (length palmIdx)),
        acc.2 / inject_Z (Z.of_nat (length palmIdx))).

(** [String.prototype.toLowerCase] on ASCII letters. *)
Definition lowerAscii (c : Ascii.ascii) : Ascii.ascii :=
  let n := Ascii.nat_of_ascii c in
  if ((65 <=? n) && (n <=? 90))%nat then Ascii.ascii_of_nat (n + 32) else c.

Fixpoint toLowerCase (s : string) : string :=
  match s with
  | EmptyString => EmptyString
  | String c s => String (lowerAscii c) (toLowerCase s)
  end.

(** What the tracker sends: the hands' landmarks and, per hand, the entry
    of [multiHandedness] ([None]: no entry, or an entry without a label). *)
Record HandsResults : Type :=
  { multiHandLandmarks : option (list (list Point));
    multiHandedness : option (list (option string)) }.

(** [handed[i] && handed[i].label || ''], in lower case. *)
Definition labelAt (handed : list (option string)) (i : Z) : string :=
  toLowerCase (default "" (mjoin (arr_get handed i))).

(** The loop of [onHandsResults] that maps the hands by label. *)
Definition handsByLabel (multi : list (list Point)) (handed : list (option string))
    : option (list Point) * option (list Point) :=
  for_range 0 (Z.of_nat (length multi)) (λ i '(leftLm, rightLm),
    if String.eqb (labelAt handed i) "left" then (arr_get multi i, rightLm)
    else if String.eqb (labelAt handed i) "right" then (leftLm, arr_get multi i)
    else (leftLm, rightLm)) (None, None).

(** [a || b] on numbers. *)
Definition orElse (a b : Z) : Z := if (a =? 0)%Z then b else a.

Module App.
(** The state that [onHandsResults] reads and writes. *)
Record t : Type :=
  { filterIndex : Z; handsResults : option HandsResults;
    leftSmoother : Smoother.t; rightSmoother : Smoother.t;
    clapDetector : Clap.t }.
End App.

(** How a call of [onHandsResults] ends: it returns, or [palmCenter]
    throws; either way with the state it leaves. *)
Inductive Outcome : Type :=
| Returned (st : App.t)
| Threw (st : App.t).

Definition outcomeState (o : Outcome) : App.t :=
  match o with Returned st | Threw st => st end.

Section Hands.
Context `{Host}.

(** [videoWidth], [videoHeight]: the video's dimensions; [offW], [offH]:
    those of the offscreen canvas; [now]: the reading of
    [performance.now()]. *)
Definition onHandsResults (st : App.t) (results : HandsResults)
    (videoWidth videoHeight offW offH : Z) (now : Q) : Outcome :=
  let st :=
    {| App.filterIndex := App.filterIndex st; App.handsResults := Some results;
       App.leftSmoother := App.leftSmoother st;
       App.rightSmoother := App.rightSmoother st;
       App.clapDetector := App.clapDetector st |} in
  let multi := default [] (multiHandLandmarks results) in
  let handed := default [] (multiHandedness results) in
  let '(leftLm, rightLm) := handsByLabel multi handed in
  match leftLm, rightLm with
  | Some leftLm, Some rightLm =>
      match palmCenter leftLm, palmCenter rightLm with
      | Some lC, Some rC =>
          let '(ls, leftS) := push (App.leftSmoother st) lC.1 lC.2 in
          let '(rs, rightS) := push (App.rightSmoother st) rC.1 rC.2 in
          let vw := orElse videoWidth (orElse offW 1) in
          let vh := orElse videoHeight (orElse offH 1) in
          let dx := (ls.1 - rs.1) * inject_Z vw in
          let dy := (ls.2 - rs.2) * inject_Z vh in
          let dist := Math_sqrt (dx * dx + dy * dy) in
          let norm := dist / inject_Z (Z.min vw vh) in
          let '(fired, clap) := update (App.clapDetector st) norm true now in
          Returned
            {| App.filterIndex :=
                 if fired then nextFilter (App.filterIndex st) else App.filterIndex st;
               App.handsResults := App.handsResults st;
               App.leftSmoother := leftS; App.rightSmoother := rightS;
               App.clapDetector := clap |}
      | _, _ => Threw st
      end
  | _, _ =>
      Returned
        {| App.filterIndex := App.filterIndex st;
           App.handsResults := App.handsResults st;
           App.leftSmoother := reset (App.leftSmoother st);
           App.rightSmoother := reset (App.rightSmoother st);
           App.clapDetector := App.clapDetector st |}
  end.
End Hands.

(** ** The overlay of the hand landmarks

    The overlay is drawn with paths, which the bitmap model of the canvas
    does not cover; its model is the sequence of drawing calls it makes on
    the context of the visible canvas. *)

Definition HAND_CONNECTIONS : list (Z * Z) :=
  [ (0, 1); (1, 2); (2, 3); (3, 4);
    (5, 6); (6, 7); (7, 8);
    (9, 10); (10, 11); (11, 12);
    (13, 14); (14, 15); (15, 16);
    (17, 18); (18, 19); (19, 20);
    (0, 5); (5, 9); (9, 13); (13, 17) ]%Z.

Inductive DrawCmd : Type :=
| CmdSave
| CmdRestore
(** The five assignments to [lineCap], [lineJoin], [strokeStyle],
    [fillStyle] and [lineWidth]. *)
| CmdStyle (lineCap lineJoin strokeStyle fillStyle : string) (lineWidth : Q)
(** [beginPath(); moveTo(ax, ay); lineTo(bx, by); stroke()]. *)
| CmdLine (ax ay bx by_ : Q)
(** [beginPath(); arc(x, y, r, 0, Math.PI * 2); fill()]. *)
| CmdDot (x y r : Q).

(** The body of the loop over the connections, for connection [j] of the
    hand [lm]: nothing is drawn when an end is missing. *)
Definition strokeConnection (coverRect : Rect.t) (lm : list Point) (j : Z) : list DrawCmd :=
  match arr_get HAND_CONNECTIONS j with
  | Some (a, b) =>
      match arr_get lm a, arr_get lm b with
      | Some pa, Some pb =>
          let ax := inject_Z (Rect.x coverRect) + pa.1 * inject_Z (Rect.w coverRect) in
          let ay := inject_Z (Rect.y coverRect) + pa.2 * inject_Z (Rect.h coverRect) in
          let bx := inject_Z (Rect.x coverRect) + pb.1 * inject_Z (Rect.w coverRect) in
          let by_ := inject_Z (Rect.y coverRect) + pb.2 * inject_Z (Rect.h coverRect) in
          [CmdLine ax ay bx by_]
      | _, _ => []
      end
  | None => []
  end.

(** The body of the loop over the points, for landmark [k]. *)
Definition fillPoint (coverRect : Rect.t) (lm : list Point) (r : Q) (k : Z) : list DrawCmd :=
  match arr_get lm k with
  | Some p =>
      let x := inject_Z (Rect.x coverRect) + p.1 * inject_Z (Rect.w coverRect) in
      let y := inject_Z (Rect.y coverRect) + p.2 * inject_Z (Rect.h coverRect) in
      [CmdDot x y r]
  | None => []
  end.

(** [res] is [state.handsResults]; the result lists the calls made on
    [ctx], in order. *)
Definition drawHandLandmarksOverlay (res : option HandsResults) (coverRect : Rect.t)
    : list DrawCmd :=
  match res with
  | None => []
  | Some res =>
      match multiHandLandmarks res with
      | None => []
      | Some hands =>
          if ((Rect.w coverRect =? 0) || (Rect.h coverRect =? 0))%Z then []
          else
            let lw :=
              Qmax 1.5 (inject_Z (Math_round
                 (inject_Z (Z.min (Rect.w coverRect) (Rect.h coverRect)) / 350))) in
            let r := Qmax 2 (inject_Z (Math_round (lw * 1.25))) in
            let cmds :=
              [CmdSave;
               CmdStyle "round" "round" "rgba(255,255,255,0.9)" "rgba(255,255,255,0.9)" lw] in
            let cmds :=
              for_range 0 (Z.of_nat (length hands)) (λ i cmds,
                let lm := default [] (arr_get hands i) in
                let cmds :=
                  for_range 0 (Z.of_nat (length HAND_CONNECTIONS)) (λ j cmds,
                    cmds ++ strokeConnection coverRect lm j) cmds in
                for_range 0 (Z.of_nat (length lm)) (λ k cmds,
                  cmds ++ fillPoint coverRect lm r k) cmds) cmds in
            cmds ++ [CmdRestore]
      end
  end.

(** ** The draw loop of app.js *)

Module Loop.
(** The fields of [state] that the draw loop keeps for the hand tracker. *)
Record t : Type := { handsBusy : bool; lastHandsSend : Q }.
End Loop.

Definition newLoop : Loop.t := {| Loop.handsBusy := false; Loop.lastHandsSend := 0 |}.

(** What touches these fields: a frame drawn at [now] while the video has
    the given [readyState], and the promise of a [hands.send] that settles,
    fulfilled or rejected. *)
Inductive LoopEvent : Type :=
| Drawn (now : Q) (readyState : Z)
| Settled.

(** The end of [draw] and the two callbacks of the promise; the result
    tells whether [hands.send] was called. *)
Definition loopStep (s : Loop.t) (e : LoopEvent) : bool * Loop.t :=
  match e with
  | Drawn now readyState =>
      if negb (Loop.handsBusy s) && Qgtb (now - Loop.lastHandsSend s) 33
         && (2 <=? readyState)%Z
      then (true, {| Loop.handsBusy := true; Loop.lastHandsSend := now |})
      else (false, s)
  | Settled =>
      (false, {| Loop.handsBusy := false; Loop.lastHandsSend := Loop.lastHandsSend s |})
  end.

Fixpoint loopRun (s : Loop.t) (es : list LoopEvent) : list bool * Loop.t :=
  match es with
  | [] => ([], s)
  | e :: es =>
      let '(sent, s) := loopStep s e in
      let '(rest, s) := loopRun s es in
      (sent :: rest, s)
  end.

Module Screen.
(** The offscreen canvas with its context, the pipeline and the cover
    rectangle. *)
Record t : Type := { offscreen : Ctx.t; pipeline : Pipeline.t; coverRect : Rect.t }.
End Screen.

(** The three as the module creates them. *)
Definition newScreen : Screen.t :=
  {| Screen.offscreen := createCanvas; Screen.pipeline := newFilterPipeline;
     Screen.coverRect := {| Rect.x := 0; Rect.y := 0; Rect.w := 0; Rect.h := 0 |} |}.

Section Draw.
Context `{Host}.

(** The first half of [draw], down to [pipeline.apply], for a video that
    is ready; [video] carries the dimensions [videoWidth] and [videoHeight],
    [canvasW] and [canvasH] are those of the visible canvas.  [None]:
    [FilterList[state.filterIndex]] is [undefined] and reading its key
    throws. *)
Definition drawFrame (s : Screen.t) (filterIndex : Z) (video : ImageData.t)
    (canvasW canvasH : Z) (now : Q) : option (Screen.t * list Event) :=
  let s :=
    if negb (ImageData.width (Ctx.canvas (Screen.offscreen s)) =? ImageData.width video)%Z
       || negb (ImageData.height (Ctx.canvas (Screen.offscreen s))
                =? ImageData.height video)%Z
    then
      let offscreen := setCanvasSize (ImageData.width video) (ImageData.height video) in
      {| Screen.offscreen := offscreen;
         Screen.pipeline :=
           resize (Screen.pipeline s) (ImageData.width (Ctx.canvas offscreen))
             (ImageData.height (Ctx.canvas offscreen));
         Screen.coverRect :=
           computeCoverRect (ImageData.width (Ctx.canvas offscreen))
             (ImageData.height (Ctx.canvas offscreen)) canvasW canvasH |}
    else s in
  meta ← arr_get FilterList filterIndex;
  let '(p, offscreen, ev) :=
    apply (Screen.pipeline s) (Screen.offscreen s) video (meta_key meta) now in
  Some ({| Screen.offscreen := offscreen; Screen.pipeline := p;
           Screen.coverRect := Screen.coverRect s |}, ev).
End Draw.

(** ** The first snapshot of filters.js: the list and the [switch] *)

Definition FilterList_v1 : list FilterMeta :=
  [ MetaSimple "normal" "Normal" "none";
    MetaSimple "grayscale" "Grayscale" "grayscale(1)";
    MetaSimple "sepia" "Sepia" "sepia(1)";
    MetaSimple "invert" "Invert" "invert(1)";
    MetaSimple "hue" "Hue Rotate" "hue-rotate(180deg)";
    MetaSimple "blur" "Blur" "blur(4px)";
    MetaPixelate "pixelate" "Pixelate";
    MetaEdge "edge" "Edge Detect" ].

Section Switch.
Context `{Host}.

Definition apply_v1 (p : Pipeline.t) (offCtx : Ctx.t) (video : ImageData.t)
    (filterKey : string) (now : Q) : Pipeline.t * Ctx.t * list Event :=
  let w := Pipeline.w p in
  let h := Pipeline.h p in
  if ((w =? 0) || (h =? 0))%Z then (p, offCtx, [])
  else if String.eqb filterKey "normal" then
    (p, drawMirrored offCtx video w h "none", [])
  else if String.eqb filterKey "grayscale" then
    (p, drawMirrored offCtx video w h "grayscale(1)", [])
  else if String.eqb filterKey "sepia" then
    (p, drawMirrored offCtx video w h "sepia(1)", [])
  else if String.eqb filterKey "invert" then
    (p, drawMirrored offCtx video w h "invert(1)", [])
  else if String.eqb filterKey "hue" then
    (p, drawMirrored offCtx video w h "hue-rotate(180deg)", [])
  else if String.eqb filterKey "blur" then
    (p, drawMirrored offCtx video w h "blur(4px)", [])
  else if String.eqb filterKey "pixelate" then renderPixelate p offCtx video
  else if String.eqb filterKey "edge" then renderEdge p offCtx video now
  else (p, drawMirrored offCtx video w h "none", []).

(** The dispatcher of the later snapshots, for any list of filters. *)
Definition applyWith (filters : list FilterMeta) (p : Pipeline.t) (offCtx : Ctx.t)
    (video : ImageData.t) (filterKey : string) (now : Q)
    : Pipeline.t * Ctx.t * list Event :=
  let w := Pipeline.w p in
  let h := Pipeline.h p in
  if ((w =? 0) || (h =? 0))%Z then (p, offCtx, [])
  else
    match find (λ f, String.eqb (meta_key f) filterKey) filters with
    | Some (MetaCss _ _ value) | Some (MetaSimple _ _ value) =>
        (p, drawMirrored offCtx video w h (orNone value), [])
    | Some (MetaLut key _ makeLUT strength) =>
        renderLUT p offCtx video key makeLUT strength
    | Some (MetaPixelate _ _) => renderPixelate p offCtx video
    | Some (MetaEdge _ _) => renderEdge p offCtx video now
    | None =>
        if String.eqb filterKey "pixelate" then renderPixelate p offCtx video
        else if String.eqb filterKey "edge" then renderEdge p offCtx video now
        else (p, drawMirrored offCtx video w h "none", [])
    end.
End Switch.

(** ** More notions for the properties *)

(** [n] pushes of the same point. *)
Fixpoint pushes (n : nat) (s : Smoother.t) (x y : Q) : Smoother.t :=
  match n with
  | O => s
  | S n => pushes n (push s x y).2 x y
  end.

(** [q] to the power [n]. *)
Fixpoint Qpow (q : Q) (n : nat) : Q :=
  match n with
  | O => 1
  | S n => q * Qpow q n
  end.

Definition Point_in (lo hi : Q) (p : Point) : Prop :=
  lo <= p.1 <= hi ∧ lo <= p.2 <= hi.

Definition byte_ok (v : Z) : Prop := (0 <= v <= 255)%Z.

(** The frame that [renderLUT] writes back: the pixel loop over [data]. *)
Definition gradeAll (lut : LUT.t) (strength : Q) (data : list Z) : list Z :=
  for_stride4 (Z.of_nat (length data)) (gradePixel lut strength) data.



(** A drawing call of the overlay that stays within the rectangle. *)
Definition inRect (rect : Rect.t) (x y : Q) : Prop :=
  inject_Z (Rect.x rect) <= x <= inject_Z (Rect.x rect) + inject_Z (Rect.w rect) ∧
  inject_Z (Rect.y rect) <= y <= inject_Z (Rect.y rect) + inject_Z (Rect.h rect).

Definition cmdInRect (rect : Rect.t) (c : DrawCmd) : Prop :=
  match c with
  | CmdLine ax ay bx by_ => inRect rect ax ay ∧ inRect rect bx by_
  | CmdDot x y r => inRect rect x y ∧ 2 <= r
  | _ => False
  end.

(** The offscreen context is as the draw loop leaves it, and the pipeline
    has the dimensions of the offscreen canvas or none yet. *)
Definition inSync (s : Screen.t) : Prop :=
  Ctx.state (Screen.offscreen s) = initialDrawState ∧
  Ctx.stack (Screen.offscreen s) = [] ∧
  ((Pipeline.w (Screen.pipeline s) = ImageData.width (Ctx.canvas (Screen.offscreen s)) ∧
    Pipeline.h (Screen.pipeline s) = ImageData.height (Ctx.canvas (Screen.offscreen s))) ∨
   (Pipeline.w (Screen.pipeline s) = 0%Z ∧ Pipeline.h (Screen.pipeline s) = 0%Z)).

(** ** More concrete inputs *)

Definition palm18 : list Point :=
  replicate 18 (0.25, 0.75).

Definition twoHands : HandsResults :=
  {| multiHandLandmarks := Some [palm18; palm18];
     multiHandedness := Some [Some "Left"; Some "Right"] |}.

Definition oneHand : HandsResults :=
  {| multiHandLandmarks := Some [palm18];
     multiHandedness := Some [Some "Left"] |}.

Definition newApp : App.t :=
  {| App.filterIndex := 0; App.handsResults := None;
     App.leftSmoother := leftSmoother; App.rightSmoother := rightSmoother;
     App.clapDetector := createClapDetector |}.


(** The screen after the first frame of a video of 2 by 1 pixels. *)
Definition firstScreen : Screen.t :=
  {| Screen.offscreen :=
       @drawMirrored exampleHost (setCanvasSize 2 1) twoPixels 2 1 "none";
     Screen.pipeline := resize newFilterPipeline 2 1;
     Screen.coverRect := computeCoverRect 2 1 800 600 |}.

(** * Properties *)

(** ** Comparisons and integer parts *)

Lemma Qltb_spec x y : reflect (x < y) (Qltb x y).
Proof. unfold Qltb. destruct (Qlt_le_dec x y); constructor; [done | lra]. Qed.

Lemma Qltb_true x y : Qltb x y = true ↔ x < y.
Proof. destruct (Qltb_spec x y); split; try done; lra. Qed.

Lemma Qltb_false x y : Qltb x y = false ↔ y <= x.
Proof. destruct (Qltb_spec x y); split; try done; lra. Qed.

Lemma inject_Z_sub (a b : Z) : inject_Z (a - b) == inject_Z a - inject_Z b.
Proof. unfold Z.sub, Qminus. by rewrite inject_Z_plus, inject_Z_opp. Qed.

Lemma Qfloor_between (x : Q) (z : Z) :
  inject_Z z <= x → x < inject_Z z + 1 → Qfloor x = z.
Proof.
  intros Hlo Hhi.
  pose proof (Qfloor_le x) as Hle. pose proof (Qlt_floor x) as Hlt.
  rewrite inject_Z_plus in Hlt. change (inject_Z 1) with 1 in Hlt.
  assert (H1 : inject_Z z < inject_Z (Qfloor x) + 1) by lra.
  assert (H2 : inject_Z (Qfloor x) < inject_Z z + 1) by lra.
  change 1 with (inject_Z 1) in H1, H2. rewrite <- inject_Z_plus in H1, H2.
  rewrite <- Zlt_Qlt in H1, H2. lia.
Qed.

(** ** The LUT engine: what [generate3DLUT] stores *)


Lemma store3_writes_block (out : RGB) :
  writes_block 3 (store3 out) [clamp01 (ch0 out); clamp01 (ch1 out); clamp01 (ch2 out)].
Proof.
  split; [done|]. intros pre rest Hlen.
  destruct rest as [|a [|b [|c rest]]]; simpl in Hlen; try lia.
  unfold store3.
  replace (Z.to_nat (Z.of_nat (length pre))) with (length pre + 0)%nat by lia.
  replace (Z.to_nat (Z.of_nat (length pre) + 1)) with (length pre + 1)%nat by lia.
  replace (Z.to_nat (Z.of_nat (length pre) + 1 + 1)) with (length pre + 2)%nat by lia.
  rewrite !insert_app_r. simpl. f_equal. lia.
Qed.

Lemma fold_writes_block (m : nat) (body : Z → list Q * Z → list Q * Z)
    (blk : Z → list Q) (xs : list Z) :
  (∀ i, writes_block m (body i) (blk i)) →
  writes_block (m * length xs) (fold_left (λ acc i, body i acc) xs) (mjoin (blk <$> xs)).
Proof.
  intros Hb. induction xs as [|x xs [IHlen IH]].
  - split; [simpl; lia|]. intros pre rest _. simpl.
    rewrite Nat.mul_0_r, drop_0. do 2 f_equal. lia.
  - destruct (Hb x) as [Hxlen Hx]. split.
    + change (length (blk x ++ mjoin (blk <$> xs)) = (m * S (length xs))%nat).
      rewrite length_app, IHlen, Hxlen. lia.
    + intros pre rest Hlen.
      change (fold_left (λ acc i, body i acc) xs (body x (pre ++ rest, Z.of_nat (length pre)))
              = (pre ++ (blk x ++ mjoin (blk <$> xs)) ++ drop (m * S (length xs)) rest,
                 Z.of_nat (length pre + m * S (length xs)))).
      change (length (x :: xs)) with (S (length xs)) in Hlen.
      rewrite Hx by lia.
      replace (Z.of_nat (length pre + m)) with (Z.of_nat (length (pre ++ blk x)))
        by (rewrite length_app, Hxlen; done).
      rewrite (app_assoc pre (blk x)).
      rewrite IH by (rewrite length_drop; lia).
      rewrite drop_drop, length_app, Hxlen, <- !app_assoc.
      replace (m * S (length xs))%nat with (m + m * length xs)%nat by lia.
      by rewrite Nat.add_assoc.
Qed.

Lemma for_range_writes_block (m : nat) (body : Z → list Q * Z → list Q * Z)
    (blk : Z → list Q) (lo hi : Z) :
  (∀ i, writes_block m (body i) (blk i)) →
  writes_block (m * Z.to_nat (hi - lo)) (for_range lo hi body)
    (mjoin (blk <$> seqZ lo (hi - lo))).
Proof.
  intros Hb. unfold for_range.
  replace (Z.to_nat (hi - lo)) with (length (seqZ lo (hi - lo))) by apply length_seqZ.
  by apply fold_writes_block.
Qed.


Lemma generate3DLUT_data (n : Z) (f : Q → Q → Q → RGB) :
  (0 <= n)%Z →
  LUT.data (generate3DLUT n f) =
  mjoin ((λ ri, mjoin ((λ gi, mjoin ((λ bi, entryBlock (gridEntry n f ri gi bi))
                                      <$> seqZ 0 n)) <$> seqZ 0 n)) <$> seqZ 0 n).
Proof.
  intros Hn. unfold generate3DLUT. cbn [LUT.data].
  pose proof (for_range_writes_block _ _ _ 0 n
    (λ ri, for_range_writes_block _ _ _ 0 n
      (λ gi, for_range_writes_block _ _ _ 0 n
        (λ bi, store3_writes_block (gridEntry n f ri gi bi))))) as [_ Hw].
  specialize (Hw [] (replicate (Z.to_nat (n * n * n * 3)) 0)).
  rewrite !Z.sub_0_r, length_replicate in Hw.
  lapply Hw; [clear Hw; intros Hw | nia].
  match type of Hw with
  | ?l = _ => match goal with |- fst ?e = _ => change e with l end
  end.
  rewrite Hw. cbn [fst app].
  rewrite drop_ge, app_nil_r; [done|]. rewrite length_replicate. nia.
Qed.

Lemma lookup_join_blocks {A : Type} (m : nat) (blk : Z → list A) (cnt i : Z) (r : nat) :
  (∀ i, length (blk i) = m) → (0 <= i < cnt)%Z → (r < m)%nat →
  mjoin (blk <$> seqZ 0 cnt) !! (Z.to_nat i * m + r)%nat = blk i !! r.
Proof.
  intros Hlen Hi Hr.
  destruct (lookup_lt_is_Some_2 (blk i) r) as [x Hx]; [rewrite Hlen; lia|].
  rewrite Hx. apply (join_lookup_Some_same_length' m).
  - apply Forall_fmap, Forall_forall. intros ? _. apply Hlen.
  - done.
  - exists (blk i). split; [|done].
    rewrite list_lookup_fmap, lookup_seqZ_lt by lia. simpl. do 2 f_equal. lia.
Qed.

Lemma length_mjoin_blocks {A : Type} (m : nat) (blk : Z → list A) (cnt : Z) :
  (∀ i, length (blk i) = m) →
  length (mjoin (blk <$> seqZ 0 cnt)) = (Z.to_nat cnt * m)%nat.
Proof.
  intros Hlen. rewrite <- (length_seqZ 0 cnt).
  induction (seqZ 0 cnt) as [|x xs IH]; [done|].
  change (length (blk x ++ mjoin (blk <$> xs)) = (S (length xs) * m)%nat).
  rewrite length_app, IH, Hlen. lia.
Qed.

Lemma generate3DLUT_length n f :
  (0 <= n)%Z → length (LUT.data (generate3DLUT n f)) = Z.to_nat (n * n * n * 3).
Proof.
  intros Hn. rewrite generate3DLUT_data by done.
  rewrite (length_mjoin_blocks (Z.to_nat n * (Z.to_nat n * 3))).
  - nia.
  - intros i. rewrite (length_mjoin_blocks (Z.to_nat n * 3)); [done|].
    intros j. by rewrite (length_mjoin_blocks 3).
Qed.

Lemma generate3DLUT_lookup n f i j k (c : nat) :
  (0 <= i < n)%Z → (0 <= j < n)%Z → (0 <= k < n)%Z → (c < 3)%nat →
  LUT.data (generate3DLUT n f) !! (Z.to_nat (lutIdx n i j k) + c)%nat
  = entryBlock (gridEntry n f i j k) !! c.
Proof.
  intros Hi Hj Hk Hc. rewrite generate3DLUT_data by lia.
  replace (Z.to_nat (lutIdx n i j k) + c)%nat
    with (Z.to_nat i * (Z.to_nat n * (Z.to_nat n * 3))
          + (Z.to_nat j * (Z.to_nat n * 3) + (Z.to_nat k * 3 + c)))%nat
    by (unfold lutIdx; nia).
  rewrite (lookup_join_blocks (Z.to_nat n * (Z.to_nat n * 3))); [| |done|nia].
  2:{ intros a. rewrite (length_mjoin_blocks (Z.to_nat n * 3)); [done|].
      intros b. by rewrite (length_mjoin_blocks 3). }
  rewrite (lookup_join_blocks (Z.to_nat n * 3)); [| |done|nia].
  2:{ intros b. by rewrite (length_mjoin_blocks 3). }
  by rewrite (lookup_join_blocks 3).
Qed.

(** ** The LUT engine: sampling *)


Lemma arr_get_in_range {A : Type} (d : list A) (i : Z) :
  (0 <= i < Z.of_nat (length d))%Z → is_Some (arr_get d i).
Proof.
  intros Hi. unfold arr_get. destruct (Z.ltb_spec i 0); [lia|].
  apply lookup_lt_is_Some_2. lia.
Qed.

Lemma arr_get_out_of_range {A : Type} (d : list A) (i : Z) :
  (i < 0 ∨ Z.of_nat (length d) <= i)%Z → arr_get d i = None.
Proof.
  intros Hi. unfold arr_get. destruct (Z.ltb_spec i 0); [done|].
  apply lookup_ge_None_2. lia.
Qed.

Lemma lerp3_texel (d : list Q) (i0 i1 : Z) (t : Q) :
  (0 <= i0)%Z → (i0 + 2 < Z.of_nat (length d))%Z →
  (0 <= i1)%Z → (i1 + 2 < Z.of_nat (length d))%Z →
  lerp3 d i0 i1 t = Some (mix3 (texel d i0) (texel d i1) t).
Proof.
  intros. unfold lerp3, texel, mix3, ch0, ch1, ch2.
  destruct (arr_get_in_range d i0) as [a0 ->]; [lia|].
  destruct (arr_get_in_range d i1) as [b0 ->]; [lia|].
  destruct (arr_get_in_range d (i0 + 1)) as [a1 ->]; [lia|].
  destruct (arr_get_in_range d (i1 + 1)) as [b1 ->]; [lia|].
  destruct (arr_get_in_range d (i0 + 2)) as [a2 ->]; [lia|].
  destruct (arr_get_in_range d (i1 + 2)) as [b2 ->]; [lia|].
  done.
Qed.

Lemma lutIdx_bounds n a b c :
  (0 <= a <= n - 1)%Z → (0 <= b <= n - 1)%Z → (0 <= c <= n - 1)%Z →
  (0 <= lutIdx n a b c ∧ lutIdx n a b c + 2 < n * n * n * 3)%Z.
Proof. unfold lutIdx. intros. split; nia. Qed.



Lemma sampleLUT3D_in_table (lut : LUT.t) (r g b : Q) :
  lut_wf lut →
  cell_in_table (LUT.size lut) (latticeCell (LUT.size lut) r) →
  cell_in_table (LUT.size lut) (latticeCell (LUT.size lut) g) →
  cell_in_table (LUT.size lut) (latticeCell (LUT.size lut) b) →
  sampleLUT3D lut r g b =
  Some (trilinear (LUT.data lut) (LUT.size lut) (latticeCell (LUT.size lut) r)
          (latticeCell (LUT.size lut) g) (latticeCell (LUT.size lut) b)).
Proof.
  intros [Hn Hlen] Hr Hg Hb. unfold sampleLUT3D, trilinear.
  destruct (latticeCell (LUT.size lut) r) as [[r0 r1] tr].
  destruct (latticeCell (LUT.size lut) g) as [[g0 g1] tg].
  destruct (latticeCell (LUT.size lut) b) as [[b0 b1] tb].
  destruct Hr as [Hr0 Hr1], Hg as [Hg0 Hg1], Hb as [Hb0 Hb1]. simpl in *.
  assert (Hlen' : Z.of_nat (length (LUT.data lut))
                  = (LUT.size lut * LUT.size lut * LUT.size lut * 3)%Z) by nia.
  rewrite !lerp3_texel;
    try (rewrite ?Hlen'; apply lutIdx_bounds; assumption).
  done.
Qed.

Lemma generate3DLUT_size n f : LUT.size (generate3DLUT n f) = n.
Proof. reflexivity. Qed.

Lemma generate3DLUT_wf n f : (1 <= n)%Z → lut_wf (generate3DLUT n f).
Proof.
  intros Hn. split; [done|]. rewrite generate3DLUT_length by lia. done.
Qed.

Lemma inject_Z_nonzero (z : Z) : z ≠ 0%Z → ¬ inject_Z z == 0.
Proof. intros Hz Heq. apply Hz. unfold Qeq in Heq. simpl in Heq. lia. Qed.

Lemma latticeCell_grid (n i : Z) :
  (2 <= n)%Z → (0 <= i < n)%Z →
  ∃ t, latticeCell n (inject_Z i / inject_Z (n - 1)) = (i, Z.min (n - 1) (i + 1), t)
       ∧ t == 0.
Proof.
  intros Hn Hi. unfold latticeCell.
  assert (Hxf : inject_Z i / inject_Z (n - 1) * inject_Z (n - 1) == inject_Z i).
  { field. apply inject_Z_nonzero. lia. }
  assert (Hfl : Qfloor (inject_Z i / inject_Z (n - 1) * inject_Z (n - 1)) = i).
  { rewrite Hxf. apply Qfloor_Z. }
  rewrite Hfl. eexists. split; [reflexivity|]. rewrite Hxf. ring.
Qed.

Lemma latticeCell_unit (n : Z) (x : Q) :
  (1 <= n)%Z → 0 <= x <= 1 →
  cell_in_table n (latticeCell n x) ∧ 0 <= (latticeCell n x).2 < 1.
Proof.
  intros Hn [Hx0 Hx1]. unfold latticeCell, cell_in_table. cbn [fst snd].
  set (xf := x * inject_Z (n - 1)).
  assert (Hn1 : 0 <= inject_Z (n - 1)).
  { change 0 with (inject_Z 0). rewrite <- Zle_Qle. lia. }
  assert (Hxf0 : 0 <= xf) by (unfold xf; nra).
  assert (Hxf1 : xf <= inject_Z (n - 1)) by (unfold xf; nra).
  assert (Hf0 : (0 <= Qfloor xf)%Z).
  { change 0%Z with (Qfloor 0). by apply Qfloor_resp_le. }
  assert (Hf1 : (Qfloor xf <= n - 1)%Z).
  { rewrite <- (Qfloor_Z (n - 1)). by apply Qfloor_resp_le. }
  pose proof (Qfloor_le xf) as Hle. pose proof (Qlt_floor xf) as Hlt.
  rewrite inject_Z_plus in Hlt. change (inject_Z 1) with 1 in Hlt.
  repeat split; try lia; lra.
Qed.

Lemma mix_at_0 (a b t : Q) : t == 0 → mix a b t == a.
Proof. intros Ht. unfold mix. rewrite Ht. ring. Qed.

Lemma mix_in01 (a b t : Q) :
  0 <= a <= 1 → 0 <= b <= 1 → 0 <= t <= 1 → 0 <= mix a b t <= 1.
Proof. unfold mix. intros. split; nra. Qed.

Lemma mix3_at_0 (u v : RGB) (t : Q) : t == 0 → RGB_eq (mix3 u v t) u.
Proof.
  intros Ht. unfold RGB_eq, mix3, ch0, ch1, ch2. cbn [fst snd].
  repeat split; by apply mix_at_0.
Qed.

Lemma mix3_in01 (u v : RGB) (t : Q) :
  RGB_in01 u → RGB_in01 v → 0 <= t <= 1 → RGB_in01 (mix3 u v t).
Proof.
  intros (? & ? & ?) (? & ? & ?) ?. unfold RGB_in01, mix3, ch0, ch1, ch2 in *.
  cbn [fst snd]. repeat split; by apply mix_in01.
Qed.

Lemma RGB_eq_refl (c : RGB) : RGB_eq c c.
Proof. unfold RGB_eq. repeat split; reflexivity. Qed.

Lemma RGB_eq_trans (c c' c'' : RGB) : RGB_eq c c' → RGB_eq c' c'' → RGB_eq c c''.
Proof.
  intros (? & ? & ?) (? & ? & ?). unfold RGB_eq.
  repeat split; etransitivity; eassumption.
Qed.

Lemma mix3_proper_l (u u' v : RGB) (t : Q) :
  RGB_eq u u' → t == 0 → RGB_eq (mix3 u v t) u'.
Proof. intros Hu Ht. eapply RGB_eq_trans; [by apply mix3_at_0 | done]. Qed.

(** At a grid point of a table of any size, sampling returns the entry. *)
Lemma sampleLUT3D_grid_point (n : Z) (f : Q → Q → Q → RGB) (i j k : Z) :
  (2 <= n)%Z → (0 <= i < n)%Z → (0 <= j < n)%Z → (0 <= k < n)%Z →
  let lut := generate3DLUT n f in
  let o := (((i * n + j) * n + k) * 3)%Z in
  let out := f (inject_Z i / inject_Z (n - 1)) (inject_Z j / inject_Z (n - 1))
               (inject_Z k / inject_Z (n - 1)) in
  arr_get (LUT.data lut) o = Some (clamp01 (ch0 out)) ∧
  arr_get (LUT.data lut) (o + 1) = Some (clamp01 (ch1 out)) ∧
  arr_get (LUT.data lut) (o + 2) = Some (clamp01 (ch2 out)) ∧
  ∃ c, sampleLUT3D lut (inject_Z i / inject_Z (n - 1)) (inject_Z j / inject_Z (n - 1))
         (inject_Z k / inject_Z (n - 1)) = Some c
       ∧ RGB_eq c (clamp01 (ch0 out), clamp01 (ch1 out), clamp01 (ch2 out)).
Proof.
  intros Hn Hi Hj Hk lut o out.
  assert (Ho : (0 <= o)%Z) by (unfold o; nia).
  assert (Hget : ∀ c : nat, (c < 3)%nat →
            arr_get (LUT.data lut) (o + Z.of_nat c)
            = entryBlock out !! c).
  { intros c Hc. unfold arr_get. destruct (Z.ltb_spec (o + Z.of_nat c) 0); [lia|].
    replace (Z.to_nat (o + Z.of_nat c)) with (Z.to_nat (lutIdx n i j k) + c)%nat
      by (unfold lutIdx, o; lia).
    by apply generate3DLUT_lookup. }
  pose proof (Hget 0%nat ltac:(lia)) as H0. rewrite Z.add_0_r in H0.
  pose proof (Hget 1%nat ltac:(lia)) as H1.
  pose proof (Hget 2%nat ltac:(lia)) as H2.
  change (entryBlock out !! 0%nat) with (Some (clamp01 (ch0 out))) in H0.
  change (entryBlock out !! 1%nat) with (Some (clamp01 (ch1 out))) in H1.
  change (entryBlock out !! 2%nat) with (Some (clamp01 (ch2 out))) in H2.
  change (Z.of_nat 1) with 1%Z in H1. change (Z.of_nat 2) with 2%Z in H2.
  repeat (split; [assumption|]).
  destruct (latticeCell_grid n i Hn Hi) as (tr & Hcr & Htr).
  destruct (latticeCell_grid n j Hn Hj) as (tg & Hcg & Htg).
  destruct (latticeCell_grid n k Hn Hk) as (tb & Hcb & Htb).
  eexists. split.
  - apply sampleLUT3D_in_table.
    + apply generate3DLUT_wf. lia.
    + unfold lut. rewrite generate3DLUT_size, Hcr. split; simpl; lia.
    + unfold lut. rewrite generate3DLUT_size, Hcg. split; simpl; lia.
    + unfold lut. rewrite generate3DLUT_size, Hcb. split; simpl; lia.
  - unfold lut at 2 3 4 5. rewrite generate3DLUT_size, Hcr, Hcg, Hcb. unfold trilinear.
    apply mix3_proper_l; [|done]. apply mix3_proper_l; [|done].
    apply mix3_proper_l; [|done].
    unfold texel. change (lutIdx n i j k) with o.
    rewrite H0, H1, H2. apply RGB_eq_refl.
Qed.


Lemma texel_in01 (d : list Q) (o : Z) :
  Forall in01 d → RGB_in01 (texel d o).
Proof.
  intros Hall. unfold texel, RGB_in01, ch0, ch1, ch2. cbn [fst snd].
  assert (Hone : ∀ i, in01 (default 0 (arr_get d i))).
  { intros i. unfold arr_get. destruct (i <? 0)%Z; [unfold in01; simpl; lra|].
    destruct (d !! Z.to_nat i) as [v|] eqn:Hv; [|unfold in01; simpl; lra].
    simpl. eapply Forall_lookup_1; eassumption. }
  repeat split; apply Hone.
Qed.

Lemma trilinear_in01 (d : list Q) (n : Z) (cr cg cb : Z * Z * Q) :
  Forall in01 d → 0 <= cr.2 <= 1 → 0 <= cg.2 <= 1 → 0 <= cb.2 <= 1 →
  RGB_in01 (trilinear d n cr cg cb).
Proof.
  intros Hd Hr Hg Hb. destruct cr as [[r0 r1] tr], cg as [[g0 g1] tg], cb as [[b0 b1] tb].
  simpl in *. repeat apply mix3_in01; try assumption; by apply texel_in01.
Qed.

(** C4, as amended: for a query in the unit cube, the planes that
    [sampleLUT3D] picks on each axis lie in [0, N-1], so that every read is
    inside the table and a result is returned; it lies in the unit cube
    whenever the table data does. *)
Theorem sampleLUT3D_unit_cube_safe (lut : LUT.t) (r g b : Q) :
  lut_wf lut → 0 <= r <= 1 → 0 <= g <= 1 → 0 <= b <= 1 →
  cell_in_table (LUT.size lut) (latticeCell (LUT.size lut) r) ∧
  cell_in_table (LUT.size lut) (latticeCell (LUT.size lut) g) ∧
  cell_in_table (LUT.size lut) (latticeCell (LUT.size lut) b) ∧
  ∃ c, sampleLUT3D lut r g b = Some c ∧ (Forall in01 (LUT.data lut) → RGB_in01 c).
Proof.
  intros Hwf Hr Hg Hb.
  destruct (latticeCell_unit (LUT.size lut) r (proj1 Hwf) Hr) as [Hcr Htr].
  destruct (latticeCell_unit (LUT.size lut) g (proj1 Hwf) Hg) as [Hcg Htg].
  destruct (latticeCell_unit (LUT.size lut) b (proj1 Hwf) Hb) as [Hcb Htb].
  repeat (split; [assumption|]).
  eexists. split; [by apply sampleLUT3D_in_table|].
  intros Hd. apply trilinear_in01; [done | lra | lra | lra].
Qed.


Lemma lerp3_undefined (d : list Q) (i0 i1 : Z) (t : Q) :
  arr_get d i0 = None → lerp3 d i0 i1 t = None.
Proof. intros Hnone. unfold lerp3. by rewrite Hnone. Qed.

Lemma sampleLUT3D_corner_outside (lut : LUT.t) (r g b : Q) :
  arr_get (LUT.data lut)
    (lutIdx (LUT.size lut) (latticeCell (LUT.size lut) r).1.1
       (latticeCell (LUT.size lut) g).1.1 (latticeCell (LUT.size lut) b).1.1) = None →
  sampleLUT3D lut r g b = None.
Proof.
  intros Hnone. unfold sampleLUT3D.
  destruct (latticeCell (LUT.size lut) r) as [[r0 r1] tr].
  destruct (latticeCell (LUT.size lut) g) as [[g0 g1] tg].
  destruct (latticeCell (LUT.size lut) b) as [[b0 b1] tb].
  cbn [fst snd] in Hnone. cbv zeta.
  by rewrite (lerp3_undefined _ _ _ _ Hnone).
Qed.

(** C4 fails outside the unit cube: for the query 2 on a table of size 17
    the lower plane is 32, for -1/16 it is -1, and the reads at these planes
    are outside the table. *)
Lemma sampleLUT3D_out_of_range_cex :
  let lut := generate3DLUT LUT_SIZE identityLook in
  (latticeCell LUT_SIZE 2).1.1 = 32%Z ∧
  (latticeCell LUT_SIZE (-1 # 16)).1.1 = (-1)%Z ∧
  ¬ cell_in_table LUT_SIZE (latticeCell LUT_SIZE 2) ∧
  ¬ cell_in_table LUT_SIZE (latticeCell LUT_SIZE (-1 # 16)) ∧
  sampleLUT3D lut 2 0 0 = None ∧
  sampleLUT3D lut (-1 # 16) 0 0 = None.
Proof.
  intros lut.
  assert (H2 : (latticeCell LUT_SIZE 2).1.1 = 32%Z) by (vm_compute; reflexivity).
  assert (Hm : (latticeCell LUT_SIZE (-1 # 16)).1.1 = (-1)%Z) by (vm_compute; reflexivity).
  assert (H0 : (latticeCell LUT_SIZE 0).1.1 = 0%Z) by (vm_compute; reflexivity).
  split; [exact H2|]. split; [exact Hm|].
  split; [|split; [|split]].
  - unfold cell_in_table. rewrite H2. unfold LUT_SIZE. lia.
  - unfold cell_in_table. rewrite Hm. lia.
  - apply sampleLUT3D_corner_outside. unfold lut.
    rewrite generate3DLUT_size, H2, H0. apply arr_get_out_of_range. right.
    rewrite generate3DLUT_length by (unfold LUT_SIZE; lia). vm_compute. discriminate.
  - apply sampleLUT3D_corner_outside. unfold lut.
    rewrite generate3DLUT_size, Hm, H0. apply arr_get_out_of_range. left.
    vm_compute. reflexivity.
Qed.

(** C1: for a table of size 17 built from any look, sampling at the grid
    point (i/16, j/16, k/16) returns the three clamped numbers stored from
    offset ((i*17 + j)*17 + k)*3. *)
Theorem sampleLUT3D_grid_point_exact (f : Q → Q → Q → RGB) (i j k : Z) :
  (0 <= i < LUT_SIZE)%Z → (0 <= j < LUT_SIZE)%Z → (0 <= k < LUT_SIZE)%Z →
  let N := LUT_SIZE in
  let lut := generate3DLUT N f in
  let r := inject_Z i / inject_Z (N - 1) in
  let g := inject_Z j / inject_Z (N - 1) in
  let b := inject_Z k / inject_Z (N - 1) in
  let o := (((i * N + j) * N + k) * 3)%Z in
  let out := f r g b in
  arr_get (LUT.data lut) o = Some (clamp01 (ch0 out)) ∧
  arr_get (LUT.data lut) (o + 1) = Some (clamp01 (ch1 out)) ∧
  arr_get (LUT.data lut) (o + 2) = Some (clamp01 (ch2 out)) ∧
  ∃ c, sampleLUT3D lut r g b = Some c ∧ RGB_eq c (texel (LUT.data lut) o).
Proof.
  intros Hi Hj Hk N lut r g b o out.
  destruct (sampleLUT3D_grid_point N f i j k ltac:(unfold N, LUT_SIZE; lia) Hi Hj Hk)
    as (H0 & H1 & H2 & c & Hc & Heq).
  repeat (split; [assumption|]).
  exists c. split; [assumption|].
  unfold texel. fold lut in H0, H1, H2. fold o in H0, H1, H2.
  rewrite H0, H1, H2. exact Heq.
Qed.

Lemma sampleLUT3D_grid_point_exact_witness :
  let f := identityLook in
  let N := LUT_SIZE in
  let lut := generate3DLUT N f in
  let r := inject_Z 3 / inject_Z (N - 1) in
  let g := inject_Z 5 / inject_Z (N - 1) in
  let b := inject_Z 16 / inject_Z (N - 1) in
  let o := (((3 * N + 5) * N + 16) * 3)%Z in
  let out := f r g b in
  arr_get (LUT.data lut) o = Some (clamp01 (ch0 out)) ∧
  arr_get (LUT.data lut) (o + 1) = Some (clamp01 (ch1 out)) ∧
  arr_get (LUT.data lut) (o + 2) = Some (clamp01 (ch2 out)) ∧
  ∃ c, sampleLUT3D lut r g b = Some c ∧ RGB_eq c (texel (LUT.data lut) o).
Proof.
  apply (sampleLUT3D_grid_point_exact identityLook 3 5 16); unfold LUT_SIZE; lia.
Defined.

Lemma sampleLUT3D_unit_cube_safe_witness :
  cell_in_table (LUT.size smallLUT) (latticeCell (LUT.size smallLUT) (1 # 3)) ∧
  cell_in_table (LUT.size smallLUT) (latticeCell (LUT.size smallLUT) (1 # 2)) ∧
  cell_in_table (LUT.size smallLUT) (latticeCell (LUT.size smallLUT) 1) ∧
  ∃ c, sampleLUT3D smallLUT (1 # 3) (1 # 2) 1 = Some c
       ∧ (Forall in01 (LUT.data smallLUT) → RGB_in01 c).
Proof.
  apply (sampleLUT3D_unit_cube_safe smallLUT (1 # 3) (1 # 2) 1).
  - split; [vm_compute; discriminate | vm_compute; reflexivity].
  - split; vm_compute; discriminate.
  - split; vm_compute; discriminate.
  - split; vm_compute; discriminate.
Defined.

(** ** Bitmaps *)

Lemma length_bytes (p : Pixel) : length (bytes p) = 4%nat.
Proof. by destruct p as [[[? ?] ?] ?]. Qed.

Lemma inBitmap_true W H x y :
  (0 <= x < W)%Z → (0 <= y < H)%Z → inBitmap W H x y = true.
Proof. intros. unfold inBitmap. repeat (apply andb_true_intro; split); lia. Qed.

Lemma inBitmap_spec W H x y :
  inBitmap W H x y = true ↔ (0 <= x < W)%Z ∧ (0 <= y < H)%Z.
Proof. unfold inBitmap. rewrite !andb_true_iff. lia. Qed.

Lemma byte_at_tabulate W H f x y (c : nat) :
  (0 <= x < W)%Z → (0 <= y < H)%Z → (c < 4)%nat →
  byte_at (ImageData.data (tabulate W H f)) ((y * W + x) * 4 + Z.of_nat c)
  = default 0%Z (bytes (f x y) !! c).
Proof.
  intros Hx Hy Hc. unfold byte_at, arr_get, tabulate. cbn [ImageData.data].
  destruct (Z.ltb_spec ((y * W + x) * 4 + Z.of_nat c) 0); [nia|].
  replace (Z.to_nat ((y * W + x) * 4 + Z.of_nat c))
    with (Z.to_nat (y * W + x) * 4 + c)%nat by nia.
  rewrite (lookup_join_blocks 4 (λ p, bytes (f (p `mod` W) (p `div` W))%Z));
    [| intros; apply length_bytes | nia | done].
  replace ((y * W + x) `mod` W)%Z with x.
  2:{ rewrite Z.add_comm, Z.mod_add by lia. symmetry. apply Z.mod_small. lia. }
  replace ((y * W + x) `div` W)%Z with y.
  2:{ rewrite Z.add_comm, Z.div_add by lia. rewrite Z.div_small by lia. lia. }
  done.
Qed.

(** Reading a tabulated bitmap back gives the pixel it was built from. *)
Lemma pixel_at_tabulate W H f x y :
  (0 <= x < W)%Z → (0 <= y < H)%Z → pixel_at (tabulate W H f) x y = f x y.
Proof.
  intros Hx Hy. unfold pixel_at.
  change (ImageData.width (tabulate W H f)) with W.
  change (ImageData.height (tabulate W H f)) with H.
  rewrite inBitmap_true by done.
  pose proof (byte_at_tabulate W H f x y 0 Hx Hy ltac:(lia)) as H0.
  pose proof (byte_at_tabulate W H f x y 1 Hx Hy ltac:(lia)) as H1.
  pose proof (byte_at_tabulate W H f x y 2 Hx Hy ltac:(lia)) as H2.
  pose proof (byte_at_tabulate W H f x y 3 Hx Hy ltac:(lia)) as H3.
  rewrite Z.add_0_r in H0.
  change (Z.of_nat 1) with 1%Z in H1. change (Z.of_nat 2) with 2%Z in H2.
  change (Z.of_nat 3) with 3%Z in H3.
  rewrite H0, H1, H2, H3. by destruct (f x y) as [[[? ?] ?] ?].
Qed.

Lemma length_tabulate W H f :
  length (ImageData.data (tabulate W H f)) = (Z.to_nat (W * H) * 4)%nat.
Proof. unfold tabulate. cbn [ImageData.data]. apply length_mjoin_blocks. intros. apply length_bytes. Qed.


(** ** The Sobel edge detector *)

(** Loops that only write array elements *)

Lemma fold_left_blocks {S A B : Type} (ins : S → B → S) (blk : A → list B)
    (body : A → S → S) (xs : list A) (s : S) :
  (∀ a s, body a s = fold_left ins (blk a) s) →
  fold_left (λ acc a, body a acc) xs s = fold_left ins (mjoin (blk <$> xs)) s.
Proof.
  intros Hb. revert s. induction xs as [|x xs IH]; intros s; [done|].
  change (fold_left (λ acc a, body a acc) xs (body x s)
          = fold_left ins (blk x ++ mjoin (blk <$> xs)) s).
  by rewrite fold_left_app, IH, Hb.
Qed.

Lemma length_fold_poke {A : Type} (val : Z → A) (xs : list Z) (l : list A) :
  length (fold_left (poke val) xs l) = length l.
Proof.
  revert l. induction xs as [|x xs IH]; intros l; [done|].
  cbn [fold_left]. rewrite IH. apply length_insert.
Qed.

Lemma fold_poke_lookup {A : Type} (val : Z → A) (xs : list Z) (l : list A) (q : Z) :
  (0 <= q)%Z → Forall (λ x, 0 <= x)%Z xs → (Z.to_nat q < length l)%nat →
  fold_left (poke val) xs l !! Z.to_nat q
  = if decide (q ∈ xs) then Some (val q) else l !! Z.to_nat q.
Proof.
  intros Hq. revert l. induction xs as [|x xs IH]; intros l Hpos Hlen.
  - cbn [fold_left]. by rewrite decide_False by apply not_elem_of_nil.
  - inversion Hpos as [|? ? Hx Hxs]; subst. cbn [fold_left].
    rewrite IH by (done || (unfold poke; by rewrite length_insert)).
    destruct (decide (q ∈ xs)) as [Hin | Hnin].
    + by rewrite decide_True by (by right).
    + unfold poke. destruct (decide (q = x)) as [-> | Hne].
      * rewrite decide_True by (by left). by apply list_lookup_insert_eq.
      * rewrite decide_False by (intros [?|?]%elem_of_cons; done).
        apply list_lookup_insert_ne. lia.
Qed.

Section SobelProofs.
Context `{Host}.

Lemma grayLoop_fold (src : list Z) (n : nat) (lo : Z) (gray : list (option Q)) :
  fold_left (λ acc i, (λ '(gray, j),
               (<[Z.to_nat i := grayVal src j]> gray, (j + 4)%Z)) acc)
    (seqZ lo (Z.of_nat n)) (gray, (4 * lo)%Z)
  = (fold_left (poke (λ i, grayVal src (4 * i))) (seqZ lo (Z.of_nat n)) gray,
     (4 * (lo + Z.of_nat n))%Z).
Proof.
  revert lo gray. induction n as [|n IH]; intros lo gray.
  - change (Z.of_nat 0) with 0%Z. rewrite Z.add_0_r. reflexivity.
  - rewrite seqZ_cons by lia. cbn [fold_left].
    replace (Z.pred (Z.of_nat (S n))) with (Z.of_nat n) by lia.
    replace (4 * lo + 4)%Z with (4 * Z.succ lo)%Z by lia.
    rewrite IH. unfold poke at 3. do 2 f_equal. lia.
Qed.

Lemma gray_at_grayLoop (src : list Z) (w h i : Z) :
  (0 <= i < w * h)%Z →
  gray_at (grayLoop src w h) i = grayVal src (4 * i).
Proof.
  intros Hi. unfold grayLoop, for_range.
  rewrite length_replicate, Z.sub_0_r.
  pose proof (grayLoop_fold src (Z.to_nat (w * h)) 0
                (replicate (Z.to_nat (w * h)) (Some 0))) as Hf.
  change (4 * 0)%Z with 0%Z in Hf.
  match type of Hf with
  | _ = ?r =>
      match goal with
      | |- gray_at (fst ?e) _ = _ => replace e with r by (symmetry; exact Hf)
      end
  end.
  cbn [fst]. unfold gray_at, arr_get.
  destruct (Z.ltb_spec i 0); [lia|].
  rewrite fold_poke_lookup.
  - rewrite decide_True; [done|]. apply elem_of_seqZ. lia.
  - lia.
  - apply Forall_forall. intros x Hx%elem_of_seqZ. lia.
  - rewrite length_replicate. lia.
Qed.

Lemma offset_mod (i c : Z) : (0 <= c < 4)%Z → ((i * 4 + c) `mod` 4 = c)%Z.
Proof. intros Hc. symmetry. apply (Z.mod_unique _ _ i); lia. Qed.

Lemma offset_div (i c : Z) : (0 <= c < 4)%Z → ((i * 4 + c) `div` 4 = i)%Z.
Proof. intros Hc. symmetry. apply (Z.div_unique _ _ _ c); lia. Qed.

Lemma sobelEdge_data (img : ImageData.t) (w h : Z) :
  ImageData.data (sobelEdge img w h)
  = fold_left (poke (edgeByte (grayLoop (ImageData.data img) w h) w))
      (edgeOffsets w h) (replicate (length (ImageData.data img)) 0%Z).
Proof.
  unfold sobelEdge, for_range, edgeOffsets. cbn [ImageData.data].
  apply fold_left_blocks. intros y out.
  apply fold_left_blocks. intros x out'.
  unfold quad, poke, edgeByte. cbn [fold_left].
  rewrite !offset_mod, !offset_div, Z.mod_mul, Z.div_mul by lia.
  done.
Qed.

Lemma elem_of_edgeOffsets (w h q : Z) :
  q ∈ edgeOffsets w h ↔
  ∃ y x, (1 <= y < h - 1)%Z ∧ (1 <= x < w - 1)%Z ∧ q ∈ quad (y * w + x).
Proof.
  unfold edgeOffsets. rewrite list_elem_of_join. split.
  - intros (l & Hq & Hl). apply list_elem_of_fmap in Hl as (y & -> & Hy).
    apply list_elem_of_join in Hq as (l & Hq & Hl).
    apply list_elem_of_fmap in Hl as (x & -> & Hx).
    apply elem_of_seqZ in Hy, Hx. exists y, x. repeat split; (lia || done).
  - intros (y & x & Hy & Hx & Hq).
    exists (mjoin ((λ x, quad (y * w + x)) <$> seqZ 1 (w - 1 - 1))). split.
    + apply list_elem_of_join. exists (quad (y * w + x)). split; [exact Hq|].
      apply list_elem_of_fmap. exists x. split; [done|]. apply elem_of_seqZ. lia.
    + apply list_elem_of_fmap. exists y. split; [done|]. apply elem_of_seqZ. lia.
Qed.

Lemma elem_of_quad (i q : Z) :
  q ∈ quad i ↔ ∃ c, (0 <= c < 4)%Z ∧ q = (i * 4 + c)%Z.
Proof.
  unfold quad. rewrite !elem_of_cons, elem_of_nil. split.
  - intros [-> | [-> | [-> | [-> | []]]]];
      [exists 2%Z | exists 1%Z | exists 0%Z | exists 3%Z]; lia.
  - intros (c & Hc & ->).
    assert (c = 0 ∨ c = 1 ∨ c = 2 ∨ c = 3)%Z as [-> | [-> | [-> | ->]]] by lia;
      rewrite ?Z.add_0_r; auto.
Qed.

Lemma offset_written (w h x y c : Z) :
  (0 <= x < w)%Z → (0 <= y < h)%Z → (0 <= c < 4)%Z →
  ((y * w + x) * 4 + c)%Z ∈ edgeOffsets w h ↔ interior w h x y = true.
Proof.
  intros Hx Hy Hc. rewrite elem_of_edgeOffsets. unfold interior.
  rewrite !andb_true_iff, !Z.leb_le, !Z.ltb_lt. split.
  - intros (y' & x' & Hy' & Hx' & (c' & Hc' & Heq)%elem_of_quad).
    assert (y' * w + x' = y * w + x)%Z as Hpix by lia.
    assert (y' = y) by nia. subst y'. assert (x' = x) by lia. subst x'. lia.
  - intros Hint. exists y, x. repeat split; try lia.
    apply elem_of_quad. exists c. split; [lia | done].
Qed.

Lemma edgeOffsets_nonneg (w h : Z) : Forall (λ q, 0 <= q)%Z (edgeOffsets w h).
Proof.
  apply Forall_forall. intros q (y & x & Hy & Hx & (c & Hc & ->)%elem_of_quad)%elem_of_edgeOffsets.
  nia.
Qed.

(** Every pixel of the result. *)
Lemma sobelEdge_pixel (img : ImageData.t) (w h x y : Z) :
  length (ImageData.data img) = Z.to_nat (w * h * 4) →
  (0 <= x < w)%Z → (0 <= y < h)%Z →
  pixel_at (sobelEdge img w h) x y =
  if interior w h x y then
    let v := toUint8Clamped (sobelAt (grayLoop (ImageData.data img) w h) w (y * w + x)) in
    (v, v, v, 255%Z)
  else (0, 0, 0, 0)%Z.
Proof.
  intros Hlen Hx Hy. unfold pixel_at.
  change (ImageData.width (sobelEdge img w h)) with w.
  change (ImageData.height (sobelEdge img w h)) with h.
  assert (Hin : inBitmap w h x y = true).
  { unfold inBitmap. rewrite !andb_true_iff, !Z.leb_le, !Z.ltb_lt. lia. }
  rewrite Hin, sobelEdge_data.
  set (gray := grayLoop (ImageData.data img) w h).
  assert (Hbyte : ∀ c, (0 <= c < 4)%Z →
    byte_at (fold_left (poke (edgeByte gray w)) (edgeOffsets w h)
               (replicate (length (ImageData.data img)) 0%Z)) ((y * w + x) * 4 + c)
    = if interior w h x y then edgeByte gray w ((y * w + x) * 4 + c) else 0%Z).
  { intros c Hc. unfold byte_at, arr_get.
    destruct (Z.ltb_spec ((y * w + x) * 4 + c) 0); [nia|].
    rewrite fold_poke_lookup;
      [| nia | apply edgeOffsets_nonneg | rewrite length_replicate, Hlen; nia].
    destruct (interior w h x y) eqn:Hint.
    - rewrite decide_True; [done|]. by apply offset_written.
    - rewrite decide_False.
      + rewrite lookup_replicate_2; [done|]. rewrite Hlen. nia.
      + rewrite offset_written by done. congruence. }
  pose proof (Hbyte 0%Z ltac:(lia)) as H0. rewrite Z.add_0_r in H0.
  rewrite H0, !Hbyte by lia.
  destruct (interior w h x y); [|done].
  unfold edgeByte.
  rewrite !offset_mod, !offset_div, Z.mod_mul, Z.div_mul by lia.
  done.
Qed.

Lemma length_sobelEdge (img : ImageData.t) (w h : Z) :
  length (ImageData.data (sobelEdge img w h)) = length (ImageData.data img).
Proof. by rewrite sobelEdge_data, length_fold_poke, length_replicate. Qed.

Lemma uniformFrame_gray (img : ImageData.t) (w h r g b a i : Z) :
  uniformFrame img w h (r, g, b, a) → (0 < w)%Z → (0 <= i < w * h)%Z →
  gray_at (grayLoop (ImageData.data img) w h) i
  = Some (0.2126 * inject_Z r + 0.7152 * inject_Z g + 0.0722 * inject_Z b).
Proof.
  intros (Hw & Hh & Hlen & Hpix) Hwpos Hi. rewrite gray_at_grayLoop by done.
  assert (Hx : (0 <= i `mod` w < w)%Z) by (by apply Z.mod_pos_bound).
  assert (Hy : (0 <= i `div` w < h)%Z).
  { split; [apply Z.div_pos; lia | apply Z.div_lt_upper_bound; lia]. }
  specialize (Hpix _ _ Hx Hy).
  unfold pixel_at in Hpix. rewrite Hw, Hh, inBitmap_true in Hpix by done.
  replace (i `div` w * w + i `mod` w)%Z with i in Hpix
    by (rewrite (Z.div_mod i w) at 1; lia).
  injection Hpix as Hr Hg Hb _. unfold byte_at in Hr, Hg, Hb.
  unfold grayVal. replace (4 * i)%Z with (i * 4)%Z by lia.
  destruct (arr_get_in_range (ImageData.data img) (i * 4)) as [r' Hr']; [lia|].
  destruct (arr_get_in_range (ImageData.data img) (i * 4 + 1)) as [g' Hg']; [lia|].
  destruct (arr_get_in_range (ImageData.data img) (i * 4 + 2)) as [b' Hb']; [lia|].
  rewrite Hr' in Hr |- *. rewrite Hg' in Hg |- *. rewrite Hb' in Hb |- *.
  cbn in Hr, Hg, Hb. subst. done.
Qed.

Lemma toUint8Clamped_zero (x : Q) : x == 0 → toUint8Clamped (Some x) = 0%Z.
Proof.
  intros Hx. unfold toUint8Clamped.
  assert (Hle : Qle_bool x 0 = true) by (apply Qle_bool_iff; lra).
  by rewrite Hle.
Qed.

Lemma sobelAt_uniform (img : ImageData.t) (w h r g b a x y : Z) :
  (∀ q, q == 0 → Math_sqrt q == 0) →
  uniformFrame img w h (r, g, b, a) →
  interior w h x y = true →
  toUint8Clamped (sobelAt (grayLoop (ImageData.data img) w h) w (y * w + x)) = 0%Z.
Proof.
  intros Hsqrt Hu Hint. unfold interior in Hint.
  rewrite !andb_true_iff, !Z.leb_le, !Z.ltb_lt in Hint.
  unfold sobelAt.
  rewrite !(uniformFrame_gray img w h r g b a) by (done || nia).
  cbn [mbind option_bind].
  set (gv := 0.2126 * inject_Z r + 0.7152 * inject_Z g + 0.0722 * inject_Z b).
  set (gx := - gv + gv + -2 * gv + 2 * gv + - gv + gv).
  set (gy := - gv - 2 * gv - gv + gv + 2 * gv + gv).
  assert (Hmag : Math_sqrt (gx * gx + gy * gy) * 0.25 == 0).
  { rewrite Hsqrt; [ring|]. unfold gx, gy. ring. }
  destruct (Qgtb _ 255) eqn:Hgt.
  - unfold Qgtb in Hgt. destruct (Qltb_spec 255 (Math_sqrt (gx * gx + gy * gy) * 0.25));
      [lra | done].
  - by apply toUint8Clamped_zero.
Qed.

(** C6: on a uniform frame of width and height at least 3, [sobelEdge]
    returns a buffer of the same dimensions whose interior pixels are
    (0, 0, 0, 255) and whose border pixels are (0, 0, 0, 0).  [Math.sqrt] is
    the host's; that it maps 0 to 0 is all that is used of it. *)
Theorem sobelEdge_uniform_frame (img : ImageData.t) (w h : Z) (c : Pixel) :
  (∀ q, q == 0 → Math_sqrt q == 0) →
  (3 <= w)%Z → (3 <= h)%Z →
  uniformFrame img w h c →
  let out := sobelEdge img w h in
  ImageData.width out = w ∧ ImageData.height out = h ∧
  length (ImageData.data out) = length (ImageData.data img) ∧
  ∀ x y, (0 <= x < w)%Z → (0 <= y < h)%Z →
    pixel_at out x y =
    if interior w h x y then (0, 0, 0, 255)%Z else (0, 0, 0, 0)%Z.
Proof.
  intros Hsqrt Hw Hh Hu out. split; [done|]. split; [done|].
  split; [apply length_sobelEdge|].
  intros x y Hx Hy. unfold out.
  rewrite sobelEdge_pixel by (done || apply Hu).
  destruct (interior w h x y) eqn:Hint; [|done].
  destruct c as [[[r g] b] a].
  by rewrite (sobelAt_uniform img w h r g b a x y Hsqrt Hu Hint).
Qed.
End SobelProofs.

Lemma sobelEdge_uniform_frame_witness :
  let out := @sobelEdge exampleHost grayFrame3 3 3 in
  ImageData.width out = 3%Z ∧ ImageData.height out = 3%Z ∧
  length (ImageData.data out) = length (ImageData.data grayFrame3) ∧
  ∀ x y, (0 <= x < 3)%Z → (0 <= y < 3)%Z →
    pixel_at out x y = if interior 3 3 x y then (0, 0, 0, 255)%Z else (0, 0, 0, 0)%Z.
Proof.
  apply (@sobelEdge_uniform_frame exampleHost grayFrame3 3 3 (10, 20, 30, 255)%Z).
  - intros q Hq. cbn [Math_sqrt exampleHost]. rewrite Hq. reflexivity.
  - lia.
  - lia.
  - repeat split; try reflexivity.
    intros x y Hx Hy. unfold grayFrame3. by apply pixel_at_tabulate.
Defined.

(** ** The mirrored draw *)

Section Mirror.
Context `{Host}.

Lemma drawMirrored_pixel (ctx : Ctx.t) (video : ImageData.t) (w h x y : Z) :
  DrawState.transform (Ctx.state ctx) = identityTransform →
  ImageData.width (Ctx.canvas ctx) = w → ImageData.height (Ctx.canvas ctx) = h →
  ImageData.width video = w → ImageData.height video = h →
  (0 <= x < w)%Z → (0 <= y < h)%Z →
  pixel_at (Ctx.canvas (drawMirrored ctx video w h "none")) x y
  = pixel_at video (w - 1 - x) y.
Proof.
  intros Ht Hcw Hch Hvw Hvh Hx Hy.
  unfold drawMirrored, ctx_drawImage5, ctx_drawImage9.
  cbn -[tabulate pixel_at user_x user_y inSpan Qfloor Qdiv Qmult Qminus].
  rewrite Hcw, Hch, Hvw, Hvh, Ht.
  rewrite pixel_at_tabulate by done.
  unfold user_x, user_y. cbn [ta td te tf identityTransform].
  set (u := (inject_Z x + 0.5 - (0 + 1 * inject_Z w)) / (1 * -1)).
  set (v := (inject_Z y + 0.5 - (0 + 1 * 0)) / (1 * 1)).
  assert (Hu : u == inject_Z (w - 1 - x) + 0.5).
  { unfold u. rewrite !inject_Z_sub. change (inject_Z 1) with 1. field. }
  assert (Hv : v == inject_Z y + 0.5) by (unfold v; field).
  assert (Hwx : 0 <= inject_Z (w - 1 - x) ∧ inject_Z (w - 1 - x) + 1 <= inject_Z w).
  { rewrite !inject_Z_sub. change (inject_Z 1) with 1.
    assert (inject_Z 0 <= inject_Z x) by (rewrite <- Zle_Qle; lia).
    assert (inject_Z x + 1 <= inject_Z w).
    { change 1 with (inject_Z 1). rewrite <- inject_Z_plus, <- Zle_Qle. lia. }
    change (inject_Z 0) with 0 in *. split; lra. }
  assert (Hyh : 0 <= inject_Z y ∧ inject_Z y + 1 <= inject_Z h).
  { assert (inject_Z 0 <= inject_Z y) by (rewrite <- Zle_Qle; lia).
    assert (inject_Z y + 1 <= inject_Z h).
    { change 1 with (inject_Z 1). rewrite <- inject_Z_plus, <- Zle_Qle. lia. }
    change (inject_Z 0) with 0 in *. split; lra. }
  assert (Hin : inSpan u 0 w && inSpan v 0 h = true).
  { unfold inSpan. change (inject_Z 0) with 0. rewrite !Z.add_0_l.
    repeat (apply andb_true_intro; split).
    - apply Qle_bool_iff. lra.
    - destruct (Qltb_spec u (inject_Z w)); [done | lra].
    - apply Qle_bool_iff. lra.
    - destruct (Qltb_spec v (inject_Z h)); [done | lra]. }
  rewrite Hin. f_equal.
  - rewrite Z.add_0_l. apply Qfloor_between.
    + assert (Hq : (u - inject_Z 0) * inject_Z w / inject_Z w == u).
      { change (inject_Z 0) with 0. field. lra. }
      rewrite Hq. lra.
    + assert (Hq : (u - inject_Z 0) * inject_Z w / inject_Z w == u).
      { change (inject_Z 0) with 0. field. lra. }
      rewrite Hq. lra.
  - rewrite Z.add_0_l. apply Qfloor_between.
    + assert (Hq : (v - inject_Z 0) * inject_Z h / inject_Z h == v).
      { change (inject_Z 0) with 0. field. lra. }
      rewrite Hq. lra.
    + assert (Hq : (v - inject_Z 0) * inject_Z h / inject_Z h == v).
      { change (inject_Z 0) with 0. field. lra. }
      rewrite Hq. lra.
Qed.
End Mirror.

(** ** The filter pipeline *)

Section PipelineProofs.
Context `{Host}.

Lemma getOrCreateLUT_cached p key mk lut :
  Pipeline.lutCache p !! key = Some lut →
  getOrCreateLUT p key mk = (p, lut, []).
Proof. intros Hc. unfold getOrCreateLUT. by rewrite Hc. Qed.

Lemma getOrCreateLUT_fresh p key mk :
  Pipeline.lutCache p !! key = None →
  ∃ p', getOrCreateLUT p key mk = (p', mk (), [LutBuilt key]) ∧
        Pipeline.lutCache p' = <[key := mk ()]> (Pipeline.lutCache p) ∧
        Pipeline.w p' = Pipeline.w p ∧ Pipeline.h p' = Pipeline.h p ∧
        Pipeline.edgeCache p' = Pipeline.edgeCache p.
Proof. intros Hc. unfold getOrCreateLUT. rewrite Hc. eexists. by repeat split. Qed.

(** What [renderLUT] does to the cache and which events it emits. *)
Lemma renderLUT_cache p offCtx video key mk strength :
  Pipeline.w p ≠ 0%Z → Pipeline.h p ≠ 0%Z →
  let '(p', _, ev) := renderLUT p offCtx video key mk strength in
  match Pipeline.lutCache p !! key with
  | Some lut => p' = p ∧ ev = []
  | None => Pipeline.lutCache p' = <[key := mk ()]> (Pipeline.lutCache p)
            ∧ ev = [LutBuilt key]
  end.
Proof.
  intros Hw Hh. unfold renderLUT.
  destruct (Z.eqb_spec (Pipeline.w p) 0); [done|].
  destruct (Z.eqb_spec (Pipeline.h p) 0); [done|]. cbn [orb].
  unfold getOrCreateLUT.
  destruct (Pipeline.lutCache p !! key) as [lut|] eqn:Hc; cbn; done.
Qed.

Lemma renderEdge_cache p offCtx video now :
  let '(p', _, ev) := renderEdge p offCtx video now in
  Pipeline.lutCache p' = Pipeline.lutCache p ∧ (ev = [] ∨ ev = [SobelComputed]).
Proof.
  unfold renderEdge. destruct (_ || _)%bool; [by auto|].
  destruct (_ || _)%bool; cbn; auto.
Qed.

Lemma renderPixelate_cache p offCtx video :
  let '(p', _, ev) := renderPixelate p offCtx video in
  Pipeline.lutCache p' = Pipeline.lutCache p ∧ ev = [].
Proof. unfold renderPixelate. destruct (_ || _)%bool; by auto. Qed.

(** A call either leaves the LUT cache alone and builds nothing, or adds
    the table of the key it was called with, which was not cached. *)
Lemma apply_cache p offCtx video filterKey now :
  let '(p', _, ev) := apply p offCtx video filterKey now in
  (Pipeline.lutCache p' = Pipeline.lutCache p ∧ ∀ k, builds k [ev] = 0%nat) ∨
  (Pipeline.lutCache p !! filterKey = None ∧ ev = [LutBuilt filterKey] ∧
   ∃ lut, Pipeline.lutCache p' = <[filterKey := lut]> (Pipeline.lutCache p)).
Proof.
  unfold apply.
  destruct (Z.eqb_spec (Pipeline.w p) 0) as [|Hw]; [by left|].
  destruct (Z.eqb_spec (Pipeline.h p) 0) as [|Hh]; [by left|]. cbn [orb].
  destruct (find _ FilterList) as [m|] eqn:Hfind.
  - apply find_some in Hfind as [_ Hkey]. apply String.eqb_eq in Hkey.
    destruct m as [k nm v | k nm v | k nm mk st | k nm | k nm]; cbn in Hkey; subst k.
    + by left.
    + by left.
    + pose proof (renderLUT_cache p offCtx video filterKey mk st Hw Hh) as Hr.
      destruct (renderLUT _ _ _ _ _ _) as [[p' c'] ev].
      destruct (Pipeline.lutCache p !! filterKey) eqn:Hc.
      * destruct Hr as [-> ->]. by left.
      * destruct Hr as [Hp' ->]. right. eauto.
    + pose proof (renderPixelate_cache p offCtx video) as Hr.
      destruct (renderPixelate _ _ _) as [[p' c'] ev]. destruct Hr as [? ->]. by left.
    + pose proof (renderEdge_cache p offCtx video now) as Hr.
      destruct (renderEdge _ _ _ _) as [[p' c'] ev].
      destruct Hr as [? [-> | ->]]; by left.
  - destruct (String.eqb filterKey "pixelate").
    { pose proof (renderPixelate_cache p offCtx video) as Hr.
      destruct (renderPixelate _ _ _) as [[p' c'] ev]. destruct Hr as [? ->]. by left. }
    destruct (String.eqb filterKey "edge").
    { pose proof (renderEdge_cache p offCtx video now) as Hr.
      destruct (renderEdge _ _ _ _) as [[p' c'] ev].
      destruct Hr as [? [-> | ->]]; by left. }
    by left.
Qed.

Lemma builds_cons key ev evs :
  builds key (ev :: evs) = (builds key [ev] + builds key evs)%nat.
Proof.
  unfold builds. cbn [concat]. rewrite app_nil_r, List.filter_app, length_app. done.
Qed.

Lemma builds_one key k :
  builds key [[LutBuilt k]] = if String.eqb key k then 1%nat else 0%nat.
Proof. unfold builds. cbn. by destruct (String.eqb key k). Qed.

Lemma call_cache p op key :
  let '(p', ev) := call p op in
  match Pipeline.lutCache p !! key with
  | Some lut => Pipeline.lutCache p' !! key = Some lut ∧ builds key [ev] = 0%nat
  | None =>
      (Pipeline.lutCache p' !! key = None ∧ builds key [ev] = 0%nat) ∨
      (is_Some (Pipeline.lutCache p' !! key) ∧ builds key [ev] = 1%nat)
  end.
Proof.
  destruct op as [w h | offCtx video filterKey now]; cbn [call].
  - assert (Hc : Pipeline.lutCache (resize p w h) = Pipeline.lutCache p).
    { unfold resize. by destruct (_ && _)%bool. }
    rewrite Hc. destruct (Pipeline.lutCache p !! key); [done | by left].
  - pose proof (apply_cache p offCtx video filterKey now) as Ha.
    destruct (apply _ _ _ _ _) as [[p' c'] ev].
    destruct Ha as [[Hsame Hnone] | (Hfresh & -> & lut & Hins)].
    + rewrite Hsame. destruct (Pipeline.lutCache p !! key); [done | by left].
    + rewrite Hins, builds_one.
      destruct (String.eqb_spec key filterKey) as [-> | Hne].
      * rewrite Hfresh, lookup_insert_eq. right. eauto.
      * rewrite lookup_insert_ne by done.
        destruct (Pipeline.lutCache p !! key); [done | by left].
Qed.

Lemma calls_cons p op ops :
  calls p (op :: ops) =
  ((calls (call p op).1 ops).1, (call p op).2 :: (calls (call p op).1 ops).2).
Proof. cbn [calls]. destruct (call p op). cbn. by destruct (calls t ops). Qed.

Lemma calls_cached p ops key lut :
  Pipeline.lutCache p !! key = Some lut →
  Pipeline.lutCache (calls p ops).1 !! key = Some lut ∧ builds key (calls p ops).2 = 0%nat.
Proof.
  revert p. induction ops as [|op ops IH]; intros p Hc; [done|].
  rewrite calls_cons. cbn [fst snd]. rewrite builds_cons.
  pose proof (call_cache p op key) as Hstep. destruct (call p op) as [p' ev].
  cbn [fst snd]. rewrite Hc in Hstep. destruct Hstep as [Hc' ->]. by apply IH.
Qed.

Lemma calls_builds_le_1 p ops key : (builds key (calls p ops).2 ≤ 1)%nat.
Proof.
  revert p. induction ops as [|op ops IH]; intros p; [cbn; lia|].
  rewrite calls_cons. cbn [fst snd]. rewrite builds_cons.
  pose proof (call_cache p op key) as Hstep. destruct (call p op) as [p' ev].
  cbn [fst snd].
  destruct (Pipeline.lutCache p !! key) as [lut|].
  - destruct Hstep as [Hc' ->]. apply IH.
  - destruct Hstep as [[_ ->] | [[lut Hc'] ->]]; [apply IH|].
    destruct (calls_cached p' ops key lut Hc') as [_ ->]. lia.
Qed.

(** C5: over any sequence of calls on one pipeline the LUT of a key is built
    at most once; a table that is in the cache stays there unchanged and is
    never rebuilt; and the first LUT-grade call for a key of kind 'lut'
    builds the table of its [makeLUT] and stores it in the cache. *)
Theorem lut_built_at_most_once (p : Pipeline.t) (ops : list Op) (key : string) :
  (builds key (calls p ops).2 ≤ 1)%nat ∧
  (∀ lut, Pipeline.lutCache p !! key = Some lut →
     Pipeline.lutCache (calls p ops).1 !! key = Some lut ∧
     builds key (calls p ops).2 = 0%nat) ∧
  (∀ name makeLUT strength offCtx video now,
     MetaLut key name makeLUT strength ∈ FilterList →
     Pipeline.w p ≠ 0%Z → Pipeline.h p ≠ 0%Z →
     Pipeline.lutCache p !! key = None →
     let '(p', _, ev) := apply p offCtx video key now in
     ev = [LutBuilt key] ∧ Pipeline.lutCache p' !! key = Some (makeLUT ())).
Proof.
  split; [apply calls_builds_le_1|]. split; [intros lut; apply calls_cached|].
  intros name mk st offCtx video now Hin Hw Hh Hc.
  assert (Hfind : find (λ f, String.eqb (meta_key f) key) FilterList
                  = Some (MetaLut key name mk st)).
  { unfold FilterList in *.
    repeat (apply elem_of_cons in Hin as [Hin | Hin];
            [try discriminate Hin; injection Hin as -> -> -> ->; reflexivity|]).
    by apply elem_of_nil in Hin. }
  unfold apply.
  destruct (Z.eqb_spec (Pipeline.w p) 0); [done|].
  destruct (Z.eqb_spec (Pipeline.h p) 0); [done|]. cbn [orb].
  rewrite Hfind.
  pose proof (renderLUT_cache p offCtx video key mk st Hw Hh) as Hr.
  destruct (renderLUT _ _ _ _ _ _) as [[p' c'] ev]. rewrite Hc in Hr.
  destruct Hr as [-> ->]. by rewrite lookup_insert_eq.
Qed.

Lemma apply_edge p offCtx video now :
  apply p offCtx video "edge" now = renderEdge p offCtx video now.
Proof.
  unfold apply, renderEdge. by destruct ((Pipeline.w p =? 0)%Z || (Pipeline.h p =? 0)%Z).
Qed.

Lemma renderEdge_step p offCtx video now :
  Pipeline.w p ≠ 0%Z → Pipeline.h p ≠ 0%Z →
  let ec := Pipeline.edgeCache p in
  let w := Pipeline.w p in
  let h := Pipeline.h p in
  let mirrored := drawMirrored offCtx video w h "none" in
  let '(p', offCtx', ev) := renderEdge p offCtx video now in
  Pipeline.w p' = w ∧ Pipeline.h p' = h ∧
  EdgeCache.frameCounter (Pipeline.edgeCache p') = (EdgeCache.frameCounter ec + 1)%Z ∧
  EdgeCache.skip (Pipeline.edgeCache p') = EdgeCache.skip ec ∧
  if shouldCompute ec then
    let edged := sobelEdge (ctx_getImageData mirrored 0 0 w h) w h in
    ev = [SobelComputed] ∧
    EdgeCache.imageData (Pipeline.edgeCache p') = Some edged ∧
    offCtx' = ctx_putImageData mirrored edged 0 0
  else
    ev = [] ∧
    EdgeCache.imageData (Pipeline.edgeCache p') = EdgeCache.imageData ec ∧
    ∃ cached, EdgeCache.imageData ec = Some cached ∧
              offCtx' = ctx_putImageData mirrored cached 0 0.
Proof.
  intros Hw Hh. unfold renderEdge, shouldCompute.
  destruct (Z.eqb_spec (Pipeline.w p) 0); [done|].
  destruct (Z.eqb_spec (Pipeline.h p) 0); [done|]. cbn [orb].
  cbn [EdgeCache.frameCounter EdgeCache.skip EdgeCache.imageData].
  destruct (Z.rem _ _ =? 0)%Z; cbn [orb].
  - by repeat split.
  - destruct (EdgeCache.imageData (Pipeline.edgeCache p)) as [cached|] eqn:Hc.
    + rewrite bool_decide_eq_true_2 by eauto. cbn. repeat split. eauto.
    + rewrite bool_decide_eq_false_2 by (intros [? ?]; done). cbn. by repeat split.
Qed.

Lemma edge_call p offCtx video now :
  Pipeline.w p ≠ 0%Z → Pipeline.h p ≠ 0%Z →
  let r := call p (CallApply offCtx video "edge" now) in
  let ec := Pipeline.edgeCache p in
  let ec' := Pipeline.edgeCache r.1 in
  Pipeline.w r.1 = Pipeline.w p ∧ Pipeline.h r.1 = Pipeline.h p ∧
  EdgeCache.frameCounter ec' = (EdgeCache.frameCounter ec + 1)%Z ∧
  EdgeCache.skip ec' = EdgeCache.skip ec ∧
  r.2 = (if shouldCompute ec then [SobelComputed] else []) ∧
  is_Some (EdgeCache.imageData ec') ∧
  (shouldCompute ec = false → EdgeCache.imageData ec' = EdgeCache.imageData ec).
Proof.
  intros Hw Hh. cbn [call]. rewrite apply_edge.
  pose proof (renderEdge_step p offCtx video now Hw Hh) as Hs. cbv zeta in Hs.
  destruct (renderEdge p offCtx video now) as [[p' c'] ev]. cbn [fst snd].
  destruct Hs as (Hw' & Hh' & Hfc & Hsk & Hev).
  repeat (split; [assumption|]).
  destruct (shouldCompute (Pipeline.edgeCache p)).
  - destruct Hev as (-> & -> & _). repeat split; [eauto | done].
  - destruct Hev as (-> & -> & cached & -> & _). repeat split; eauto.
Qed.

Lemma shouldCompute_cached (ec : EdgeCache.t) :
  is_Some (EdgeCache.imageData ec) →
  shouldCompute ec
  = (Z.rem (EdgeCache.frameCounter ec + 1) (EdgeCache.skip ec + 1) =? 0)%Z.
Proof.
  intros Hc. unfold shouldCompute. rewrite bool_decide_eq_true_2 by done.
  apply orb_false_r.
Qed.

Lemma edge_first_four_frames (w h : Z) (c1 c2 c3 c4 : Ctx.t)
    (v1 v2 v3 v4 : ImageData.t) (t1 t2 t3 t4 : Q) :
  w ≠ 0%Z → h ≠ 0%Z →
  let p0 := resize newFilterPipeline w h in
  (calls p0 [CallApply c1 v1 "edge" t1; CallApply c2 v2 "edge" t2;
             CallApply c3 v3 "edge" t3; CallApply c4 v4 "edge" t4]).2
  = [[SobelComputed]; [SobelComputed]; []; [SobelComputed]] ∧
  let p2 := (calls p0 [CallApply c1 v1 "edge" t1; CallApply c2 v2 "edge" t2]).1 in
  let p3 := (call p2 (CallApply c3 v3 "edge" t3)).1 in
  EdgeCache.frameCounter (Pipeline.edgeCache p3) = 3%Z ∧
  EdgeCache.imageData (Pipeline.edgeCache p3) = EdgeCache.imageData (Pipeline.edgeCache p2).
Proof.
  intros Hw Hh p0.
  assert (Hp0 : Pipeline.w p0 = w ∧ Pipeline.h p0 = h ∧
                Pipeline.edgeCache p0 = Pipeline.edgeCache newFilterPipeline).
  { unfold p0, resize. cbn [Pipeline.w Pipeline.h newFilterPipeline].
    destruct (Z.eqb_spec 0 w); [congruence|]. by cbn. }
  destruct Hp0 as (Hw0 & Hh0 & Hec0).
  rewrite !calls_cons. cbn [calls fst snd].
  remember (call p0 (CallApply c1 v1 "edge" t1)) as r1 eqn:Hr1.
  pose proof (edge_call p0 c1 v1 t1) as H1. cbv zeta in H1. rewrite <- Hr1 in H1.
  destruct H1 as (Hw1 & Hh1 & Hfc1 & Hsk1 & Hev1 & Him1 & _); [congruence..|].
  rewrite Hec0 in Hfc1, Hsk1, Hev1.
  change (EdgeCache.frameCounter (Pipeline.edgeCache r1.1) = 1%Z) in Hfc1.
  change (EdgeCache.skip (Pipeline.edgeCache r1.1) = 1%Z) in Hsk1.
  change (r1.2 = [SobelComputed]) in Hev1.
  remember (call r1.1 (CallApply c2 v2 "edge" t2)) as r2 eqn:Hr2.
  pose proof (edge_call r1.1 c2 v2 t2) as H2. cbv zeta in H2. rewrite <- Hr2 in H2.
  destruct H2 as (Hw2 & Hh2 & Hfc2 & Hsk2 & Hev2 & Him2 & _); [congruence..|].
  rewrite shouldCompute_cached, Hfc1, Hsk1 in Hev2 by done.
  rewrite Hfc1 in Hfc2. rewrite Hsk1 in Hsk2.
  change (r2.2 = [SobelComputed]) in Hev2.
  remember (call r2.1 (CallApply c3 v3 "edge" t3)) as r3 eqn:Hr3.
  pose proof (edge_call r2.1 c3 v3 t3) as H3. cbv zeta in H3. rewrite <- Hr3 in H3.
  destruct H3 as (Hw3 & Hh3 & Hfc3 & Hsk3 & Hev3 & Him3 & Hkeep3); [congruence..|].
  rewrite shouldCompute_cached, Hfc2, Hsk2 in Hev3, Hkeep3 by done.
  rewrite Hfc2 in Hfc3. rewrite Hsk2 in Hsk3.
  change (r3.2 = []) in Hev3.
  remember (call r3.1 (CallApply c4 v4 "edge" t4)) as r4 eqn:Hr4.
  pose proof (edge_call r3.1 c4 v4 t4) as H4. cbv zeta in H4. rewrite <- Hr4 in H4.
  destruct H4 as (_ & _ & _ & _ & Hev4 & _); [congruence..|].
  rewrite shouldCompute_cached, Hfc3, Hsk3 in Hev4 by done.
  change (r4.2 = [SobelComputed]) in Hev4.
  rewrite Hev1, Hev2, Hev3, Hev4. split; [done|].
  split; [exact Hfc3 | by apply Hkeep3].
Qed.
(** C3, as amended: each call with the key 'edge' and nonzero dimensions
    increments the frame counter and recomputes the edge map exactly when the
    incremented counter is a multiple of [skip + 1] or no edge frame is
    cached; otherwise it redraws the cached frame unchanged.  With [skip = 1]
    the first four frames of a new pipeline recompute on frame 1 (nothing is
    cached yet) and on frames 2 and 4; frame 3 reuses the frame cached on
    frame 2. *)
Theorem edge_throttling :
  (∀ (p : Pipeline.t) (offCtx : Ctx.t) (video : ImageData.t) (now : Q),
     Pipeline.w p ≠ 0%Z → Pipeline.h p ≠ 0%Z →
     let ec := Pipeline.edgeCache p in
     let w := Pipeline.w p in
     let h := Pipeline.h p in
     let mirrored := drawMirrored offCtx video w h "none" in
     let '(p', offCtx', ev) := apply p offCtx video "edge" now in
     EdgeCache.frameCounter (Pipeline.edgeCache p') = (EdgeCache.frameCounter ec + 1)%Z ∧
     EdgeCache.skip (Pipeline.edgeCache p') = EdgeCache.skip ec ∧
     if shouldCompute ec then
       let edged := sobelEdge (ctx_getImageData mirrored 0 0 w h) w h in
       ev = [SobelComputed] ∧
       EdgeCache.imageData (Pipeline.edgeCache p') = Some edged ∧
       offCtx' = ctx_putImageData mirrored edged 0 0
     else
       ev = [] ∧
       EdgeCache.imageData (Pipeline.edgeCache p') = EdgeCache.imageData ec ∧
       ∃ cached, EdgeCache.imageData ec = Some cached ∧
                 offCtx' = ctx_putImageData mirrored cached 0 0) ∧
  (∀ (w h : Z) (c1 c2 c3 c4 : Ctx.t) (v1 v2 v3 v4 : ImageData.t) (t1 t2 t3 t4 : Q),
     w ≠ 0%Z → h ≠ 0%Z →
     let p0 := resize newFilterPipeline w h in
     (calls p0 [CallApply c1 v1 "edge" t1; CallApply c2 v2 "edge" t2;
                CallApply c3 v3 "edge" t3; CallApply c4 v4 "edge" t4]).2
     = [[SobelComputed]; [SobelComputed]; []; [SobelComputed]] ∧
     let p2 := (calls p0 [CallApply c1 v1 "edge" t1; CallApply c2 v2 "edge" t2]).1 in
     let p3 := (call p2 (CallApply c3 v3 "edge" t3)).1 in
     EdgeCache.frameCounter (Pipeline.edgeCache p3) = 3%Z ∧
     EdgeCache.imageData (Pipeline.edgeCache p3)
     = EdgeCache.imageData (Pipeline.edgeCache p2)).
Proof.
  split.
  - intros p offCtx video now Hw Hh. cbv zeta. rewrite apply_edge.
    pose proof (renderEdge_step p offCtx video now Hw Hh) as Hs. cbv zeta in Hs.
    destruct (renderEdge p offCtx video now) as [[p' c'] ev].
    destruct Hs as (_ & _ & Hfc & Hsk & Hev). done.
  - intros. by apply edge_first_four_frames.
Qed.

(** C8: a key that is neither in [FilterList] nor 'pixelate' nor 'edge'
    leaves the pipeline alone and draws the source mirrored with the filter
    'none': the pixel of column x is the source pixel of column w - 1 - x. *)
Theorem apply_unknown_key_mirrors (p : Pipeline.t) (offCtx : Ctx.t)
    (video : ImageData.t) (filterKey : string) (now : Q) :
  (∀ m, m ∈ FilterList → meta_key m ≠ filterKey) →
  filterKey ≠ "pixelate" → filterKey ≠ "edge" →
  Pipeline.w p ≠ 0%Z → Pipeline.h p ≠ 0%Z →
  DrawState.transform (Ctx.state offCtx) = identityTransform →
  ImageData.width (Ctx.canvas offCtx) = Pipeline.w p →
  ImageData.height (Ctx.canvas offCtx) = Pipeline.h p →
  ImageData.width video = Pipeline.w p →
  ImageData.height video = Pipeline.h p →
  let '(p', offCtx', ev) := apply p offCtx video filterKey now in
  p' = p ∧ ev = [] ∧
  offCtx' = drawMirrored offCtx video (Pipeline.w p) (Pipeline.h p) "none" ∧
  ∀ x y, (0 <= x < Pipeline.w p)%Z → (0 <= y < Pipeline.h p)%Z →
    pixel_at (Ctx.canvas offCtx') x y = pixel_at video (Pipeline.w p - 1 - x) y.
Proof.
  intros Hnone Hpix Hedge Hw Hh Ht Hcw Hch Hvw Hvh. unfold apply.
  destruct (Z.eqb_spec (Pipeline.w p) 0); [done|].
  destruct (Z.eqb_spec (Pipeline.h p) 0); [done|]. cbn [orb].
  destruct (find _ FilterList) as [m|] eqn:Hfind.
  { apply find_some in Hfind as [Hin Hkey]. apply String.eqb_eq in Hkey.
    exfalso. by apply (Hnone m); [apply list_elem_of_In|]. }
  apply String.eqb_neq in Hpix, Hedge. rewrite Hpix, Hedge.
  repeat split. intros x y Hx Hy. by apply drawMirrored_pixel.
Qed.
End PipelineProofs.

Lemma lut_built_at_most_once_witness :
  (builds "wkw_neon" (@calls exampleHost cachedPipeline cachedCalls).2 ≤ 1)%nat ∧
  (Pipeline.lutCache (@calls exampleHost cachedPipeline cachedCalls).1 !! "wkw_neon"
   = Some smallLUT ∧
   builds "wkw_neon" (@calls exampleHost cachedPipeline cachedCalls).2 = 0%nat) ∧
  (let '(p', _, ev) :=
     @apply exampleHost cachedPipeline canvas21 twoPixels "wes_pastel" 0 in
   ev = [LutBuilt "wes_pastel"] ∧
   Pipeline.lutCache p' !! "wes_pastel" = Some (@makeLUT_WA_Pastel exampleHost ())).
Proof.
  destruct (@lut_built_at_most_once exampleHost cachedPipeline cachedCalls "wkw_neon")
    as (Hle & Hkeep & _).
  destruct (@lut_built_at_most_once exampleHost cachedPipeline [] "wes_pastel")
    as (_ & _ & Hfirst).
  split; [exact Hle|]. split; [apply Hkeep; reflexivity|].
  apply (Hfirst "Wes Anderson - Pastel Pop" makeLUT_WA_Pastel (Some 0.95)).
  - unfold FilterList. do 3 right. left.
  - discriminate.
  - discriminate.
  - reflexivity.
Defined.

Lemma edge_throttling_witness :
  (let ec := Pipeline.edgeCache pipe33 in
   let w := Pipeline.w pipe33 in
   let h := Pipeline.h pipe33 in
   let mirrored := @drawMirrored exampleHost canvas33 grayFrame3 w h "none" in
   let '(p', offCtx', ev) := @apply exampleHost pipe33 canvas33 grayFrame3 "edge" 0 in
   EdgeCache.frameCounter (Pipeline.edgeCache p') = (EdgeCache.frameCounter ec + 1)%Z ∧
   EdgeCache.skip (Pipeline.edgeCache p') = EdgeCache.skip ec ∧
   if shouldCompute ec then
     let edged := @sobelEdge exampleHost (ctx_getImageData mirrored 0 0 w h) w h in
     ev = [SobelComputed] ∧
     EdgeCache.imageData (Pipeline.edgeCache p') = Some edged ∧
     offCtx' = ctx_putImageData mirrored edged 0 0
   else
     ev = [] ∧
     EdgeCache.imageData (Pipeline.edgeCache p') = EdgeCache.imageData ec ∧
     ∃ cached, EdgeCache.imageData ec = Some cached ∧
               offCtx' = ctx_putImageData mirrored cached 0 0) ∧
  (let p0 := resize newFilterPipeline 3 3 in
   (@calls exampleHost p0
      [CallApply canvas33 grayFrame3 "edge" 0; CallApply canvas33 grayFrame3 "edge" 16;
       CallApply canvas33 grayFrame3 "edge" 33; CallApply canvas33 grayFrame3 "edge" 50]).2
   = [[SobelComputed]; [SobelComputed]; []; [SobelComputed]] ∧
   let p2 := (@calls exampleHost p0
      [CallApply canvas33 grayFrame3 "edge" 0; CallApply canvas33 grayFrame3 "edge" 16]).1 in
   let p3 := (@call exampleHost p2 (CallApply canvas33 grayFrame3 "edge" 33)).1 in
   EdgeCache.frameCounter (Pipeline.edgeCache p3) = 3%Z ∧
   EdgeCache.imageData (Pipeline.edgeCache p3)
   = EdgeCache.imageData (Pipeline.edgeCache p2)).
Proof.
  destruct (@edge_throttling exampleHost) as [Hstep Hfour]. split.
  - apply (Hstep pipe33 canvas33 grayFrame3 0); discriminate.
  - apply (Hfour 3%Z 3%Z canvas33 canvas33 canvas33 canvas33
             grayFrame3 grayFrame3 grayFrame3 grayFrame3 0 16 33 50); discriminate.
Defined.

(** C3 fails as the specification words its example: on frame 1 of a new
    pipeline the counter is 1, which is odd, and the edge map is computed all
    the same, because nothing is cached yet. *)
Lemma edge_first_frame_recomputes_cex :
  let r := @call exampleHost pipe33 (CallApply canvas33 grayFrame3 "edge" 0) in
  EdgeCache.skip (Pipeline.edgeCache pipe33) = 1%Z ∧
  EdgeCache.frameCounter (Pipeline.edgeCache r.1) = 1%Z ∧
  r.2 = [SobelComputed] ∧
  ¬ (r.2 = [SobelComputed] ↔
     (EdgeCache.frameCounter (Pipeline.edgeCache r.1) `mod` 2 = 0)%Z).
Proof.
  intros r.
  assert (Hfc : EdgeCache.frameCounter (Pipeline.edgeCache r.1) = 1%Z)
    by (vm_compute; reflexivity).
  assert (Hev : r.2 = [SobelComputed]) by (vm_compute; reflexivity).
  split; [reflexivity|]. split; [exact Hfc|]. split; [exact Hev|].
  intros [Hiff _]. specialize (Hiff Hev). rewrite Hfc in Hiff. discriminate Hiff.
Qed.

Lemma apply_unknown_key_mirrors_witness :
  let '(p', offCtx', ev) := @apply exampleHost pipe21 canvas21 twoPixels "sparkle" 0 in
  p' = pipe21 ∧ ev = [] ∧
  offCtx' = @drawMirrored exampleHost canvas21 twoPixels (Pipeline.w pipe21)
              (Pipeline.h pipe21) "none" ∧
  ∀ x y, (0 <= x < Pipeline.w pipe21)%Z → (0 <= y < Pipeline.h pipe21)%Z →
    pixel_at (Ctx.canvas offCtx') x y = pixel_at twoPixels (Pipeline.w pipe21 - 1 - x) y.
Proof.
  apply (@apply_unknown_key_mirrors exampleHost pipe21 canvas21 twoPixels "sparkle" 0);
    try (reflexivity || discriminate).
  intros m Hm. unfold FilterList in Hm.
  repeat (apply elem_of_cons in Hm as [-> | Hm]; [discriminate|]).
  by apply elem_of_nil in Hm.
Defined.

(** ** The clap detector *)

(** C2: held at distance 0.05 with both hands present, the detector of
    app.js returns false at t = 0 and t = 50, true at t = 100 and false at
    t = 150; the trigger sets the cooldown deadline to 750. *)
Theorem clap_sequence_0_50_100_150 :
  (updates createClapDetector
     [Build_Call 0.05 true 0; Build_Call 0.05 true 50; Build_Call 0.05 true 100;
      Build_Call 0.05 true 150]).1
  = [false; false; true; false] ∧
  Clap.cooldownUntil
    (updates createClapDetector
       [Build_Call 0.05 true 0; Build_Call 0.05 true 50; Build_Call 0.05 true 100]).2
  == 750 ∧
  thresholdRel == 0.16 ∧ minDurationMs == 90 ∧ cooldownMs == 650.
Proof. repeat split; vm_compute; reflexivity. Qed.

Lemma step_fires st c :
  (step st c).1 = true →
  Clap.inClapZone (step st c).2 = true ∧
  Clap.cooldownUntil (step st c).2 = now c + cooldownMs ∧
  Clap.inClapZone st = false.
Proof.
  unfold step, update.
  destruct (bothHands c); simpl; [|done].
  destruct (Qltb (now c) (Clap.cooldownUntil st)); simpl; [done|].
  destruct (Clap.inClapZone st); simpl.
  - destruct (Qgtb _ _); simpl; done.
  - destruct (Qltb (distNorm c) thresholdRel); simpl.
    + destruct (Qgeb _ _); simpl; done.
    + destruct (Qgeb _ _); simpl; done.
Qed.

Lemma step_keeps_zone st c :
  Clap.inClapZone st = true →
  ¬ releases (Clap.cooldownUntil st) c →
  (step st c).1 = false ∧
  Clap.inClapZone (step st c).2 = true ∧
  Clap.cooldownUntil (step st c).2 = Clap.cooldownUntil st.
Proof.
  intros Hz Hrel. unfold releases in Hrel. unfold step, update.
  destruct (bothHands c) eqn:Hb; simpl; [|tauto].
  destruct (Qltb_spec (now c) (Clap.cooldownUntil st)); simpl; [done|].
  rewrite Hz. simpl.
  unfold Qgtb. destruct (Qltb_spec hysteresisUp (distNorm c)); simpl.
  - exfalso. apply Hrel. right. split; [lra | done].
  - rewrite Hz. done.
Qed.

Lemma releasesb_spec d c : releasesb d c = true ↔ releases d c.
Proof.
  unfold releasesb, releases. destruct (bothHands c); simpl.
  - rewrite andb_true_iff, Qle_bool_iff, Qltb_true. split; [by right | by intros [? | ?]].
  - split; [by left | done].
Qed.

Lemma updates_app st l1 l2 :
  updates st (l1 ++ l2) =
  ((updates st l1).1 ++ (updates (updates st l1).2 l2).1,
   (updates (updates st l1).2 l2).2).
Proof.
  revert st. induction l1 as [|c l1 IH]; intros st; simpl.
  - by destruct (updates st l2).
  - destruct (step st c) as [f st1]. rewrite IH.
    destruct (updates st1 l1) as [r1 st2]. simpl. done.
Qed.

Lemma updates_length st cs : length (updates st cs).1 = length cs.
Proof.
  revert st. induction cs as [|c cs IH]; intros st; simpl; [done|].
  destruct (step st c) as [f st1]. specialize (IH st1).
  destruct (updates st1 cs). simpl in *. by rewrite IH.
Qed.

Lemma updates_cons st c cs :
  updates st (c :: cs) =
  ((step st c).1 :: (updates (step st c).2 cs).1, (updates (step st c).2 cs).2).
Proof. simpl. destruct (step st c). simpl. by destruct (updates t cs). Qed.

Lemma zone_held st mid :
  Clap.inClapZone st = true →
  Forall (λ c, ¬ releases (Clap.cooldownUntil st) c) mid →
  Clap.inClapZone (updates st mid).2 = true.
Proof.
  revert st. induction mid as [|c mid IH]; intros st Hz Hall; [done|].
  rewrite updates_cons. simpl.
  inversion Hall as [|? ? Hc Hrest]; subst.
  destruct (step_keeps_zone st c Hz Hc) as (_ & Hz' & Hcd).
  apply IH; [done|]. by rewrite Hcd.
Qed.

(** C10: between two calls that return true there is a call with
    [bothHands] false, or a call at or after the cooldown deadline set by the
    first of them in which the distance exceeds [hysteresisUp]. *)
Theorem no_retrigger_until_released (st0 : Clap.t) (cs : list Call) (i j : nat) (ci : Call) :
  (i < j)%nat →
  cs !! i = Some ci →
  (updates st0 cs).1 !! i = Some true →
  (updates st0 cs).1 !! j = Some true →
  ∃ k c, (i < k < j)%nat ∧ cs !! k = Some c ∧
    (bothHands c = false ∨
     (now ci + cooldownMs <= now c ∧ hysteresisUp < distNorm c)).
Proof.
  intros Hij Hci Hri Hrj.
  assert (Hj : (j < length cs)%nat).
  { rewrite <- (updates_length st0 cs). by eapply lookup_lt_Some. }
  destruct (lookup_lt_is_Some_2 cs j Hj) as [cj Hcj].
  pose proof (take_drop_middle cs i ci Hci) as Hsplit.
  set (pre := take i cs) in *. set (post := drop (S i) cs) in *.
  assert (Hlen : length pre = i).
  { unfold pre. rewrite length_take. apply lookup_lt_Some in Hci. lia. }
  assert (Hcj' : post !! (j - S i)%nat = Some cj).
  { unfold post. rewrite lookup_drop. rewrite <- Hcj. f_equal. lia. }
  pose proof (take_drop_middle post _ cj Hcj') as Hsplit2.
  set (mid := take (j - S i) post) in *. set (rest := drop (S (j - S i)) post) in *.
  assert (Hlm : length mid = (j - S i)%nat).
  { unfold mid. rewrite length_take. apply lookup_lt_Some in Hcj'. lia. }
  rewrite <- Hsplit, <- Hsplit2 in Hri, Hrj.
  rewrite updates_app in Hri, Hrj. cbn [fst snd] in Hri, Hrj.
  set (st1 := (updates st0 pre).2) in *.
  rewrite lookup_app_r in Hri, Hrj by (rewrite updates_length; lia).
  rewrite updates_length, Hlen in Hri, Hrj.
  rewrite updates_cons in Hri, Hrj. cbn [fst snd] in Hri, Hrj.
  replace (i - i)%nat with 0%nat in Hri by lia.
  replace (j - i)%nat with (S (j - S i)) in Hrj by lia.
  rewrite lookup_cons in Hri, Hrj.
  injection Hri as Hfire.
  destruct (step_fires st1 ci Hfire) as (Hz & Hcd & _).
  set (st2 := (step st1 ci).2) in *.
  rewrite updates_app in Hrj. cbn [fst snd] in Hrj.
  rewrite lookup_app_r in Hrj by (rewrite updates_length; lia).
  rewrite updates_length, Hlm in Hrj.
  replace (j - S i - (j - S i))%nat with 0%nat in Hrj by lia.
  rewrite updates_cons in Hrj. cbn [fst snd] in Hrj. rewrite lookup_cons in Hrj.
  injection Hrj as Hfire2.
  destruct (decide (Exists (λ c, releasesb (Clap.cooldownUntil st2) c = true) mid))
    as [Hex | Hno].
  - apply Exists_exists in Hex as (c & Hin & Hrel).
    apply releasesb_spec in Hrel. rewrite Hcd in Hrel.
    apply list_elem_of_lookup in Hin as [k Hk].
    exists (S i + k)%nat, c. split.
    + apply lookup_lt_Some in Hk. lia.
    + split; [|exact Hrel].
      rewrite <- Hsplit. rewrite lookup_app_r by lia.
      rewrite Hlen. replace (S i + k - i)%nat with (S k) by lia. simpl.
      rewrite <- Hsplit2. by rewrite lookup_app_l by (apply lookup_lt_Some in Hk; lia).
  - exfalso.
    assert (Hheld : Clap.inClapZone (updates st2 mid).2 = true).
    { apply zone_held; [done|]. apply Forall_forall. intros c Hin Hrel.
      apply Hno, Exists_exists. exists c. split; [done|]. by apply releasesb_spec. }
    destruct (step_fires _ cj Hfire2) as (_ & _ & Hz2). congruence.
Qed.

Lemma no_retrigger_until_released_witness :
  ∃ k c, (1 < k < 4)%nat ∧ twoClaps !! k = Some c ∧
    (bothHands c = false ∨
     (now (Build_Call 0.05 true 100) + cooldownMs <= now c ∧ hysteresisUp < distNorm c)).
Proof.
  apply (no_retrigger_until_released createClapDetector twoClaps 1 4 (Build_Call 0.05 true 100)).
  - lia.
  - reflexivity.
  - vm_compute. reflexivity.
  - vm_compute. reflexivity.
Defined.

(** ** The point smoother *)

Lemma push_state (s : Smoother.t) (x y : Q) :
  Smoother.pt (push s x y).2 = Some (push s x y).1 ∧
  Smoother.alpha (push s x y).2 = Smoother.alpha s.
Proof. done. Qed.

Lemma smoother_alpha_kept (s : Smoother.t) (ops : list SmootherOp) :
  Smoother.alpha (fold_left smootherStep ops s) = Smoother.alpha s.
Proof.
  revert s. induction ops as [|op ops IH]; intros s; [done|].
  cbn [fold_left]. rewrite IH. by destruct op.
Qed.

(** C9, as amended: a smoother created without a coefficient has
    alpha = 0.5 (the two smoothers of app.js pass 0.4).  Whatever was called
    on it before, [push x y] returns and stores (x, y) when the state is
    absent and state * (1 - 0.5) + (x, y) * 0.5 otherwise, and [reset] clears
    the state so that the next push starts from its argument. *)
Theorem smoother_default_alpha (ops : list SmootherOp) (x y : Q) :
  let s := fold_left smootherStep ops (makePointSmoother None) in
  Smoother.alpha s = 0.5 ∧
  (push s x y).1
  = match Smoother.pt s with
    | None => (x, y)
    | Some pt => (pt.1 * (1 - 0.5) + x * 0.5, pt.2 * (1 - 0.5) + y * 0.5)
    end ∧
  get (push s x y).2 = Some (push s x y).1 ∧
  get (reset s) = None ∧
  (push (reset s) x y).1 = (x, y) ∧
  Smoother.alpha leftSmoother = 0.4 ∧ Smoother.alpha rightSmoother = 0.4.
Proof.
  intros s.
  assert (Ha : Smoother.alpha s = 0.5) by (unfold s; by rewrite smoother_alpha_kept).
  split; [exact Ha|]. split; [|done].
  unfold push. rewrite Ha. by destruct (Smoother.pt s).
Qed.

(** C9 fails with the coefficient the specification names: after push(0, 0),
    push(1, 1) on a smoother created without a coefficient returns
    (0.5, 0.5), not (0.4, 0.4). *)
Lemma smoother_default_alpha_cex :
  let s := (push (makePointSmoother None) 0 0).2 in
  (push s 1 1).1.1 == 0.5 ∧ (push s 1 1).1.2 == 0.5 ∧
  ¬ (push s 1 1).1.1 == 0 * (1 - 0.4) + 1 * 0.4.
Proof.
  cbv zeta. split; [vm_compute; reflexivity|]. split; [vm_compute; reflexivity|].
  vm_compute. discriminate.
Qed.

(** ** RGB and HSL *)

Lemma Qmax_cases (x y : Q) : (Qmax x y = x ∧ y <= x) ∨ (Qmax x y = y ∧ x <= y).
Proof.
  unfold Qmax, GenericMinMax.gmax.
  destruct (Qcompare_spec x y) as [Heq | Hlt | Hgt].
  - left. split; [done | lra].
  - right. split; [done | lra].
  - left. split; [done | lra].
Qed.

Lemma Qmin_cases (x y : Q) : (Qmin x y = x ∧ x <= y) ∨ (Qmin x y = y ∧ y <= x).
Proof.
  unfold Qmin, GenericMinMax.gmin.
  destruct (Qcompare_spec x y) as [Heq | Hlt | Hgt].
  - left. split; [done | lra].
  - left. split; [done | lra].
  - right. split; [done | lra].
Qed.

Lemma Math_max3_spec (r g b : Q) :
  r <= Math_max3 r g b ∧ g <= Math_max3 r g b ∧ b <= Math_max3 r g b ∧
  (Math_max3 r g b = r ∨ Math_max3 r g b = g ∨ Math_max3 r g b = b).
Proof.
  unfold Math_max3.
  destruct (Qmax_cases r g) as [[-> ?] | [-> ?]];
    [destruct (Qmax_cases r b) as [[-> ?] | [-> ?]]
    | destruct (Qmax_cases g b) as [[-> ?] | [-> ?]]];
    repeat split; try lra; auto.
Qed.

Lemma Math_min3_spec (r g b : Q) :
  Math_min3 r g b <= r ∧ Math_min3 r g b <= g ∧ Math_min3 r g b <= b ∧
  (Math_min3 r g b = r ∨ Math_min3 r g b = g ∨ Math_min3 r g b = b).
Proof.
  unfold Math_min3.
  destruct (Qmin_cases r g) as [[-> ?] | [-> ?]];
    [destruct (Qmin_cases r b) as [[-> ?] | [-> ?]]
    | destruct (Qmin_cases g b) as [[-> ?] | [-> ?]]];
    repeat split; try lra; auto.
Qed.

Lemma sixth : 1 / 6 == 1 # 6. Proof. reflexivity. Qed.
Lemma half : 1 / 2 == 1 # 2. Proof. reflexivity. Qed.
Lemma third : 1 / 3 == 1 # 3. Proof. reflexivity. Qed.
Lemma two_thirds : 2 / 3 == 2 # 3. Proof. reflexivity. Qed.

Ltac cmp :=
  pose proof sixth; pose proof half; pose proof third; pose proof two_thirds;
  repeat match goal with
  | |- context [Qltb ?a ?b] =>
      lazymatch a with
      | context [Qltb _ _] => fail
      | _ => lazymatch b with
             | context [Qltb _ _] => fail
             | _ => destruct (Qltb_spec a b)
             end
      end
  end.

Lemma hue2rgb_rise (p q t : Q) :
  0 <= t → t < 1 / 6 → hue2rgb p q t == p + (q - p) * 6 * t.
Proof. intros. unfold hue2rgb, Qgtb. cmp; lra. Qed.

Lemma hue2rgb_high (p q t : Q) :
  1 / 6 <= t → t < 1 / 2 → hue2rgb p q t == q.
Proof. intros. unfold hue2rgb, Qgtb. cmp; lra. Qed.

Lemma hue2rgb_fall (p q t : Q) :
  1 / 2 <= t → t < 2 / 3 → hue2rgb p q t == p + (q - p) * (2 / 3 - t) * 6.
Proof. intros. unfold hue2rgb, Qgtb. cmp; lra. Qed.

Lemma hue2rgb_low (p q t : Q) :
  2 / 3 <= t → t <= 1 → hue2rgb p q t == p.
Proof. intros. unfold hue2rgb, Qgtb. cmp; lra. Qed.

Lemma hue2rgb_wrap_up (p q t : Q) :
  t < 0 → 0 <= t + 1 <= 1 → hue2rgb p q t == hue2rgb p q (t + 1).
Proof. intros. unfold hue2rgb, Qgtb. cmp; lra. Qed.

Lemma hue2rgb_wrap_down (p q t : Q) :
  1 < t → 0 <= t - 1 <= 1 → hue2rgb p q t == hue2rgb p q (t - 1).
Proof. intros. unfold hue2rgb, Qgtb. cmp; lra. Qed.

(** [h * d == n] with [lo * d <= n <= hi * d] bounds [h]. *)
Lemma ratio_bounds (h d n lo hi : Q) :
  0 < d → h * d == n → lo * d <= n → n <= hi * d → lo <= h <= hi.
Proof. intros Hd Hn Hlo Hhi. split; nra. Qed.

Lemma ratio_below (h d n hi : Q) :
  0 < d → h * d == n → n < hi * d → h < hi.
Proof. intros Hd Hn Hhi. nra. Qed.

(** The three channels that [hslToRgb] rebuilds from [p == m], [q == M] and
    a hue [h] of the sector that [M] and the order of the two other channels
    determine. *)
Ltac channel Hp Hq :=
  unfold hue2rgb, Qgtb; cmp; try lra; rewrite ?Hp, ?Hq; try lra; try nra.

Lemma sector_red_up (p q h r g b : Q) :
  p == b → q == r → b <= g <= r → b < r → h * 6 * (r - b) == g - b →
  hue2rgb p q (h + 1 / 3) == r ∧ hue2rgb p q h == g ∧ hue2rgb p q (h - 1 / 3) == b.
Proof.
  intros Hp Hq Hord Hd Hh.
  assert (Hb : 0 <= h * 6 <= 1).
  { apply (ratio_bounds (h * 6) (r - b) (g - b)); lra. }
  repeat split; channel Hp Hq.
Qed.

Lemma sector_red_down (p q h r g b : Q) :
  p == g → q == r → g < b → b <= r →
  h * 6 * (r - g) == g - b + 6 * (r - g) →
  hue2rgb p q (h + 1 / 3) == r ∧ hue2rgb p q h == g ∧ hue2rgb p q (h - 1 / 3) == b.
Proof.
  intros Hp Hq Hgb Hbr Hh.
  assert (Hb : 5 <= h * 6 <= 6).
  { apply (ratio_bounds (h * 6) (r - g) (g - b + 6 * (r - g))); lra. }
  assert (Hb' : h * 6 < 6).
  { apply (ratio_below (h * 6) (r - g) (g - b + 6 * (r - g))); lra. }
  repeat split; channel Hp Hq.
Qed.

Lemma sector_green_up (p q h r g b : Q) :
  p == r → q == g → r <= b <= g → r < g →
  h * 6 * (g - r) == b - r + 2 * (g - r) →
  hue2rgb p q (h + 1 / 3) == r ∧ hue2rgb p q h == g ∧ hue2rgb p q (h - 1 / 3) == b.
Proof.
  intros Hp Hq Hord Hd Hh.
  assert (Hb : 2 <= h * 6 <= 3).
  { apply (ratio_bounds (h * 6) (g - r) (b - r + 2 * (g - r))); lra. }
  repeat split; channel Hp Hq.
Qed.

Lemma sector_green_down (p q h r g b : Q) :
  p == b → q == g → b < r → r <= g →
  h * 6 * (g - b) == b - r + 2 * (g - b) →
  hue2rgb p q (h + 1 / 3) == r ∧ hue2rgb p q h == g ∧ hue2rgb p q (h - 1 / 3) == b.
Proof.
  intros Hp Hq Hbr Hrg Hh.
  assert (Hb : 1 <= h * 6 <= 2).
  { apply (ratio_bounds (h * 6) (g - b) (b - r + 2 * (g - b))); lra. }
  assert (Hb' : h * 6 < 2).
  { apply (ratio_below (h * 6) (g - b) (b - r + 2 * (g - b))); lra. }
  repeat split; channel Hp Hq.
Qed.

Lemma sector_blue_up (p q h r g b : Q) :
  p == g → q == b → g <= r <= b → g < b →
  h * 6 * (b - g) == r - g + 4 * (b - g) →
  hue2rgb p q (h + 1 / 3) == r ∧ hue2rgb p q h == g ∧ hue2rgb p q (h - 1 / 3) == b.
Proof.
  intros Hp Hq Hord Hd Hh.
  assert (Hb : 4 <= h * 6 <= 5).
  { apply (ratio_bounds (h * 6) (b - g) (r - g + 4 * (b - g))); lra. }
  repeat split; channel Hp Hq.
Qed.

Lemma sector_blue_down (p q h r g b : Q) :
  p == r → q == b → r < g → g <= b →
  h * 6 * (b - r) == r - g + 4 * (b - r) →
  hue2rgb p q (h + 1 / 3) == r ∧ hue2rgb p q h == g ∧ hue2rgb p q (h - 1 / 3) == b.
Proof.
  intros Hp Hq Hrg Hgb Hh.
  assert (Hb : 3 <= h * 6 <= 4).
  { apply (ratio_bounds (h * 6) (b - r) (r - g + 4 * (b - r))); lra. }
  assert (Hb' : h * 6 < 4).
  { apply (ratio_below (h * 6) (b - r) (r - g + 4 * (b - r))); lra. }
  repeat split; channel Hp Hq.
Qed.

(** What [hslToRgb] computes for [q] and [p] when the lightness is above
    one half and the saturation is the one of the upper branch. *)
Lemma upper_pq (M m s l : Q) :
  l * 2 == M + m → s * (2 - M - m) == M - m →
  l + s - l * s == M ∧ 2 * l - (l + s - l * s) == m.
Proof.
  intros Hl Hs.
  assert (Hls : l * s * 2 == s * M + s * m) by (rewrite <- (Qmult_comm 2), Qmult_assoc; nra).
  split; lra.
Qed.

(** The round trip holds on the branch of [rgbToHsl] for a lightness above
    one half, where the saturation is [d / (2 - max - min)]. *)
Lemma hsl_round_trip_above_half (r g b : Q) :
  0 <= r <= 1 → 0 <= g <= 1 → 0 <= b <= 1 →
  ¬ Math_max3 r g b == Math_min3 r g b →
  1 < Math_max3 r g b + Math_min3 r g b →
  let '(h, s, l) := rgbToHsl r g b in RGB_eq (hslToRgb h s l) (r, g, b).
Proof.
  intros Hr Hg Hb Hchroma Hlight.
  destruct (Math_max3_spec r g b) as (HMr & HMg & HMb & HMis).
  destruct (Math_min3_spec r g b) as (Hmr & Hmg & Hmb & Hmis).
  unfold rgbToHsl.
  set (M := Math_max3 r g b) in *. set (m := Math_min3 r g b) in *.
  assert (HMis' : M == r ∨ M == g ∨ M == b)
    by (destruct HMis as [-> | [-> | ->]]; auto using Qeq_refl).
  assert (Hmis' : m == r ∨ m == g ∨ m == b)
    by (destruct Hmis as [-> | [-> | ->]]; auto using Qeq_refl).
  clear HMis Hmis. clearbody M m.
  assert (Hd : 0 < M - m) by lra.
  assert (HM1 : M <= 1) by (destruct HMis' as [-> | [-> | ->]]; lra).
  assert (Hm1 : m < 1) by lra.
  cbv zeta.
  destruct (Qeq_bool M m) eqn:Hachroma; [by apply Qeq_bool_iff in Hachroma|].
  assert (Hl : (M + m) / 2 * 2 == M + m) by field.
  assert (Hs : (M - m) / (2 - M - m) * (2 - M - m) == M - m) by (field; lra).
  set (l := (M + m) / 2) in *. set (s := (M - m) / (2 - M - m)) in *.
  unfold Qgtb. destruct (Qltb_spec 0.5 l); [|lra].
  assert (Hs0 : Qeq_bool s 0 = false).
  { destruct (Qeq_bool s 0) eqn:Hz; [|done]. apply Qeq_bool_iff in Hz.
    rewrite Hz in Hs. lra. }
  destruct (upper_pq M m s l Hl Hs) as [Hq Hp].
  assert (Hfin : ∀ h, (hue2rgb (2 * l - (l + s - l * s)) (l + s - l * s) (h + 1 / 3) == r ∧
                      hue2rgb (2 * l - (l + s - l * s)) (l + s - l * s) h == g ∧
                      hue2rgb (2 * l - (l + s - l * s)) (l + s - l * s) (h - 1 / 3) == b) →
                 RGB_eq (hslToRgb h s l) (r, g, b)).
  { intros h Hch. unfold hslToRgb. rewrite Hs0.
    destruct (Qltb_spec l 0.5); [lra|]. exact Hch. }
  clearbody l s.
  destruct (Qeq_bool M r) eqn:HeqR; [apply Qeq_bool_iff in HeqR | apply Qeq_bool_neq in HeqR].
  - (* the maximum is red *)
    destruct (Qltb_spec g b) as [Hgb | Hgb]; apply Hfin.
    + assert (Hmg' : m == g) by (destruct Hmis' as [? | [? | ?]]; lra).
      apply sector_red_down; try lra.
      rewrite <- HeqR, <- Hmg'. field. lra.
    + assert (Hmb' : m == b) by (destruct Hmis' as [? | [? | ?]]; lra).
      apply sector_red_up; try lra.
      rewrite <- HeqR, <- Hmb'. field. lra.
  - destruct (Qeq_bool M g) eqn:HeqG;
      [apply Qeq_bool_iff in HeqG | apply Qeq_bool_neq in HeqG].
    + (* the maximum is green *)
      apply Hfin. destruct (Qlt_le_dec b r) as [Hbr | Hbr].
      * assert (Hmb' : m == b) by (destruct Hmis' as [? | [? | ?]]; lra).
        apply sector_green_down; try lra.
        rewrite <- HeqG, <- Hmb'. field. lra.
      * assert (Hmr' : m == r) by (destruct Hmis' as [? | [? | ?]]; lra).
        apply sector_green_up; try lra.
        rewrite <- HeqG, <- Hmr'. field. lra.
    + (* the maximum is blue *)
      assert (HeqB : M == b) by (destruct HMis' as [? | [? | ?]]; done).
      apply Qeq_bool_iff in HeqB as HeqB'. rewrite HeqB'.
      apply Hfin. destruct (Qlt_le_dec r g) as [Hrg | Hrg].
      * assert (Hmr' : m == r) by (destruct Hmis' as [? | [? | ?]]; lra).
        apply sector_blue_down; try lra.
        rewrite <- HeqB, <- Hmr'. field. lra.
      * assert (Hmg' : m == g) by (destruct Hmis' as [? | [? | ?]]; lra).
        apply sector_blue_up; try lra.
        rewrite <- HeqB, <- Hmg'. field. lra.
Qed.

(** On the other branch the saturation is [d / (max - min)], which is 1
    whatever the colour. *)
Lemma rgbToHsl_saturation_below_half (r g b : Q) :
  ¬ Math_max3 r g b == Math_min3 r g b →
  Math_max3 r g b + Math_min3 r g b <= 1 →
  ch1 (rgbToHsl r g b) == 1.
Proof.
  intros Hchroma Hlight. unfold rgbToHsl.
  set (M := Math_max3 r g b) in *. set (m := Math_min3 r g b) in *. clearbody M m.
  cbv zeta.
  destruct (Qeq_bool M m) eqn:Hachroma; [by apply Qeq_bool_iff in Hachroma|].
  assert (Hl : (M + m) / 2 * 2 == M + m) by field.
  unfold Qgtb. destruct (Qltb_spec 0.5 ((M + m) / 2)); [lra|].
  unfold ch1. cbn [fst snd]. field. lra.
Qed.

(** C7 fails on the code: (0.5, 0.25, 0.25) has lightness 0.375 and true
    saturation 1/3, but [rgbToHsl] returns the saturation 1, and [hslToRgb]
    of its result is (0.75, 0, 0). *)
Theorem hsl_round_trip_fails_below_half :
  let '(h, s, l) := rgbToHsl 0.5 0.25 0.25 in
  h == 0 ∧ s == 1 ∧ l == 0.375 ∧
  RGB_eq (hslToRgb h s l) (0.75, 0, 0) ∧
  ¬ RGB_eq (hslToRgb h s l) (0.5, 0.25, 0.25).
Proof.
  vm_compute. repeat split; try reflexivity. intros (H & _). discriminate H.
Qed.

(** * More properties of the code *)

(** ** Filter cycling *)

Lemma nextIndex_range (n i : Z) : (0 <= i < n)%Z → (0 <= nextIndex n i < n)%Z.
Proof.
  intros Hi. unfold nextIndex. rewrite Z.rem_mod_nonneg by lia.
  apply Z.mod_pos_bound. lia.
Qed.

Lemma iter_nextIndex (n i : Z) (k : nat) :
  (0 <= i < n)%Z → Nat.iter k (nextIndex n) i = ((i + Z.of_nat k) `mod` n)%Z.
Proof.
  intros Hi. induction k as [|k IH].
  - change (i = ((i + 0) `mod` n)%Z). rewrite Z.add_0_r. symmetry. by apply Z.mod_small.
  - rewrite Nat.iter_succ, IH. unfold nextIndex.
    rewrite Z.rem_mod_nonneg; [| |lia].
    + rewrite Zplus_mod_idemp_l. f_equal. lia.
    + pose proof (Z.mod_pos_bound (i + Z.of_nat k)%Z n ltac:(lia)). lia.
Qed.

(** X1: on a list of [n] filters and an index in range, "next" and
    "previous" keep the index in range and undo each other, and [n] times
    "next" comes back to the index. *)
Theorem filter_cycle (n i : Z) :
  (0 <= i < n)%Z →
  (0 <= nextIndex n i < n)%Z ∧ (0 <= prevIndex n i < n)%Z ∧
  prevIndex n (nextIndex n i) = i ∧ nextIndex n (prevIndex n i) = i ∧
  Nat.iter (Z.to_nat n) (nextIndex n) i = i.
Proof.
  intros Hi.
  assert (Hp : (0 <= prevIndex n i < n)%Z).
  { unfold prevIndex. rewrite Z.rem_mod_nonneg by lia. apply Z.mod_pos_bound. lia. }
  split; [by apply nextIndex_range|]. split; [exact Hp|].
  split; [|split].
  - pose proof (nextIndex_range n i Hi) as Hn.
    unfold prevIndex. rewrite Z.rem_mod_nonneg by lia.
    unfold nextIndex in *. rewrite Z.rem_mod_nonneg in * by lia.
    destruct (Z.eq_dec (i + 1)%Z n) as [Heq | Hne].
    + rewrite Heq, Z.mod_same by lia.
      replace (0 - 1 + n)%Z with (n - 1)%Z by lia. rewrite Z.mod_small; lia.
    + rewrite (Z.mod_small (i + 1)%Z) by lia.
      replace (i + 1 - 1 + n)%Z with (i + 1 * n)%Z by lia.
      rewrite Z.mod_add by lia. apply Z.mod_small. lia.
  - unfold nextIndex. rewrite Z.rem_mod_nonneg by lia.
    unfold prevIndex in *. rewrite Z.rem_mod_nonneg in * by lia.
    destruct (Z.eq_dec i 0%Z) as [-> | Hne].
    + replace (0 - 1 + n)%Z with (n - 1)%Z by lia.
      rewrite (Z.mod_small (n - 1)%Z) by lia.
      replace (n - 1 + 1)%Z with n by lia. apply Z.mod_same. lia.
    + replace (i - 1 + n)%Z with (i - 1 + 1 * n)%Z by lia.
      rewrite Z.mod_add by lia. rewrite (Z.mod_small (i - 1)%Z) by lia.
      replace (i - 1 + 1)%Z with i by lia. apply Z.mod_small. lia.
  - rewrite iter_nextIndex by done. rewrite Z2Nat.id by lia.
    replace (i + n)%Z with (i + 1 * n)%Z by lia.
    rewrite Z.mod_add by lia. apply Z.mod_small. lia.
Qed.

Lemma filter_cycle_witness :
  (0 <= nextIndex 5 4 < 5)%Z ∧ (0 <= prevIndex 5 4 < 5)%Z ∧
  prevIndex 5 (nextIndex 5 4) = 4%Z ∧ nextIndex 5 (prevIndex 5 4) = 4%Z ∧
  Nat.iter (Z.to_nat 5) (nextIndex 5) 4%Z = 4%Z.
Proof. apply (filter_cycle 5 4). lia. Defined.

(** ** The cover rectangle *)

Lemma Math_round_ge (x : Q) (z : Z) : inject_Z z <= x → (z <= Math_round x)%Z.
Proof.
  intros Hx. unfold Math_round.
  rewrite <- (Qfloor_Z z). apply Qfloor_resp_le. lra.
Qed.

Lemma Math_round_le (x : Q) (z : Z) : x <= inject_Z z → (Math_round x <= z)%Z.
Proof.
  intros Hx. unfold Math_round.
  pose proof (Qfloor_le (x + 0.5)) as Hfl.
  assert (Hlt : inject_Z (Qfloor (x + 0.5)) < inject_Z (z + 1)).
  { rewrite inject_Z_plus. change (inject_Z 1) with 1. lra. }
  rewrite <- Zlt_Qlt in Hlt. lia.
Qed.

Lemma Math_round_Z (z : Z) : Math_round (inject_Z z) = z.
Proof.
  apply Z.le_antisymm; [apply Math_round_le | apply Math_round_ge]; lra.
Qed.

Lemma Math_round_lower (x : Q) : x - 0.5 < inject_Z (Math_round x).
Proof.
  unfold Math_round. pose proof (Qlt_floor (x + 0.5)) as Hlt.
  rewrite inject_Z_plus in Hlt. change (inject_Z 1) with 1 in Hlt. lra.
Qed.

Lemma inject_Z_pos (z : Z) : (0 < z)%Z → 0 < inject_Z z.
Proof. intros Hz. change 0 with (inject_Z 0). by rewrite <- Zlt_Qlt. Qed.

Lemma inject_Z_nonneg (z : Z) : (0 <= z)%Z → 0 <= inject_Z z.
Proof. intros Hz. change 0 with (inject_Z 0). by rewrite <- Zle_Qle. Qed.

(** X2: for a source and a destination of positive dimensions the cover
    rectangle is at least as wide and as high as the destination, matches it
    exactly in one of the two dimensions, starts at or before the origin and
    ends at or after the far edges: it covers the whole destination. *)
Theorem computeCoverRect_covers (srcW srcH dstW dstH : Z) :
  (0 < srcW)%Z → (0 < srcH)%Z → (0 < dstW)%Z → (0 < dstH)%Z →
  let r := computeCoverRect srcW srcH dstW dstH in
  (Rect.w r = dstW ∨ Rect.h r = dstH) ∧
  (dstW <= Rect.w r)%Z ∧ (dstH <= Rect.h r)%Z ∧
  (Rect.x r <= 0)%Z ∧ (Rect.y r <= 0)%Z ∧
  (dstW <= Rect.x r + Rect.w r)%Z ∧ (dstH <= Rect.y r + Rect.h r)%Z.
Proof.
  intros HsW HsH HdW HdH. unfold computeCoverRect. cbn [Rect.x Rect.y Rect.w Rect.h].
  pose proof (inject_Z_pos _ HsW) as HqsW. pose proof (inject_Z_pos _ HsH) as HqsH.
  set (scale := Qmax (inject_Z dstW / inject_Z srcW) (inject_Z dstH / inject_Z srcH)).
  assert (HscW : inject_Z dstW <= inject_Z srcW * scale).
  { assert (inject_Z dstW / inject_Z srcW <= scale) by apply Q.le_max_l.
    assert (Heq : inject_Z srcW * (inject_Z dstW / inject_Z srcW) == inject_Z dstW)
      by (field; lra).
    rewrite <- Heq. apply Qmult_le_l; lra. }
  assert (HscH : inject_Z dstH <= inject_Z srcH * scale).
  { assert (inject_Z dstH / inject_Z srcH <= scale) by apply Q.le_max_r.
    assert (Heq : inject_Z srcH * (inject_Z dstH / inject_Z srcH) == inject_Z dstH)
      by (field; lra).
    rewrite <- Heq. apply Qmult_le_l; lra. }
  assert (Hexact : Math_round (inject_Z srcW * scale) = dstW
                   ∨ Math_round (inject_Z srcH * scale) = dstH).
  { destruct (Q.max_spec (inject_Z dstW / inject_Z srcW) (inject_Z dstH / inject_Z srcH))
      as [[_ Hmax] | [_ Hmax]]; [right | left].
    - assert (Heq : inject_Z srcH * scale == inject_Z dstH).
      { unfold scale. rewrite Hmax. field. lra. }
      unfold Math_round. rewrite Heq. apply Math_round_Z.
    - assert (Heq : inject_Z srcW * scale == inject_Z dstW).
      { unfold scale. rewrite Hmax. field. lra. }
      unfold Math_round. rewrite Heq. apply Math_round_Z. }
  pose proof (Math_round_ge _ _ HscW) as Hw. pose proof (Math_round_ge _ _ HscH) as Hh.
  set (w := Math_round (inject_Z srcW * scale)) in *.
  set (h := Math_round (inject_Z srcH * scale)) in *.
  clearbody w h.
  assert (HwQ : inject_Z dstW <= inject_Z w) by (by rewrite <- Zle_Qle).
  assert (HhQ : inject_Z dstH <= inject_Z h) by (by rewrite <- Zle_Qle).
  assert (HhalfW : (inject_Z dstW - inject_Z w) / 2 * 2 == inject_Z dstW - inject_Z w)
    by field.
  assert (HhalfH : (inject_Z dstH - inject_Z h) / 2 * 2 == inject_Z dstH - inject_Z h)
    by field.
  pose proof (Math_round_lower ((inject_Z dstW - inject_Z w) / 2)) as HloW.
  pose proof (Math_round_lower ((inject_Z dstH - inject_Z h) / 2)) as HloH.
  assert (Hx : (Math_round ((inject_Z dstW - inject_Z w) / 2) <= 0)%Z).
  { apply Math_round_le. change (inject_Z 0) with 0. lra. }
  assert (Hy : (Math_round ((inject_Z dstH - inject_Z h) / 2) <= 0)%Z).
  { apply Math_round_le. change (inject_Z 0) with 0. lra. }
  set (x := Math_round ((inject_Z dstW - inject_Z w) / 2)) in *.
  set (y := Math_round ((inject_Z dstH - inject_Z h) / 2)) in *.
  clearbody x y.
  repeat (split; [assumption|]). split.
  - assert (Hgoal : inject_Z (dstW - 1) < inject_Z (x + w)).
    { rewrite inject_Z_sub, inject_Z_plus. change (inject_Z 1) with 1. lra. }
    rewrite <- Zlt_Qlt in Hgoal. lia.
  - assert (Hgoal : inject_Z (dstH - 1) < inject_Z (y + h)).
    { rewrite inject_Z_sub, inject_Z_plus. change (inject_Z 1) with 1. lra. }
    rewrite <- Zlt_Qlt in Hgoal. lia.
Qed.

Lemma computeCoverRect_covers_witness :
  let r := computeCoverRect 1920 1080 1000 1000 in
  (Rect.w r = 1000%Z ∨ Rect.h r = 1000%Z) ∧
  (1000 <= Rect.w r)%Z ∧ (1000 <= Rect.h r)%Z ∧
  (Rect.x r <= 0)%Z ∧ (Rect.y r <= 0)%Z ∧
  (1000 <= Rect.x r + Rect.w r)%Z ∧ (1000 <= Rect.y r + Rect.h r)%Z.
Proof. apply (computeCoverRect_covers 1920 1080 1000 1000); lia. Defined.


(** ** The palm centre *)

(** X3: on a hand of at least 18 landmarks that all lie in a square
    [lo, hi] x [lo, hi], [palmCenter] returns a point of that square; on a
    shorter list it fails (it reads landmark 17). *)
Theorem palmCenter_in_box (landmarks : list Point) (lo hi : Q) :
  (length landmarks < 18 → palmCenter landmarks = None)%nat ∧
  ((18 ≤ length landmarks)%nat → Forall (Point_in lo hi) landmarks →
   ∃ c, palmCenter landmarks = Some c ∧ Point_in lo hi c).
Proof.
  split.
  - intros Hlen. unfold palmCenter, palmIdx. cbn [fold_left].
    pose proof (lookup_ge_None_2 landmarks 17 ltac:(lia)) as H17. unfold Point in *.
    cbn [mbind option_bind].
    destruct (landmarks !! 0%nat); cbn [mbind option_bind]; [|done].
    destruct (landmarks !! 1%nat); cbn [mbind option_bind]; [|done].
    destruct (landmarks !! 5%nat); cbn [mbind option_bind]; [|done].
    destruct (landmarks !! 9%nat); cbn [mbind option_bind]; [|done].
    destruct (landmarks !! 13%nat); cbn [mbind option_bind]; [|done].
    by rewrite H17.
  - intros Hlen Hall.
    assert (Hget : ∀ i, (i < 18)%nat → ∃ p, landmarks !! i = Some p ∧ Point_in lo hi p).
    { intros i Hi. destruct (lookup_lt_is_Some_2 landmarks i) as [p Hp]; [lia|].
      exists p. split; [done|]. by eapply Forall_lookup_1. }
    destruct (Hget 0%nat) as (p0 & E0 & [H0x H0y]); [lia|].
    destruct (Hget 1%nat) as (p1 & E1 & [H1x H1y]); [lia|].
    destruct (Hget 5%nat) as (p5 & E5 & [H5x H5y]); [lia|].
    destruct (Hget 9%nat) as (p9 & E9 & [H9x H9y]); [lia|].
    destruct (Hget 13%nat) as (p13 & E13 & [H13x H13y]); [lia|].
    destruct (Hget 17%nat) as (p17 & E17 & [H17x H17y]); [lia|].
    unfold palmCenter, palmIdx. cbn [fold_left]. unfold Point in *.
    rewrite E0. cbn [mbind option_bind]. rewrite E1. cbn [mbind option_bind].
    rewrite E5. cbn [mbind option_bind]. rewrite E9. cbn [mbind option_bind].
    rewrite E13. cbn [mbind option_bind]. rewrite E17. cbn [mbind option_bind fst snd length].
    eexists. split; [reflexivity|].
    change (inject_Z (Z.of_nat 6)) with 6. unfold Point_in. cbn [fst snd].
    set (sx := 0 + p0.1 + p1.1 + p5.1 + p9.1 + p13.1 + p17.1).
    set (sy := 0 + p0.2 + p1.2 + p5.2 + p9.2 + p13.2 + p17.2).
    assert (Hsx : sx / 6 * 6 == sx) by field.
    assert (Hsy : sy / 6 * 6 == sy) by field.
    unfold sx, sy in *. split; split; lra.
Qed.

Lemma palmCenter_in_box_witness :
  ∃ c, palmCenter palm18 = Some c ∧ Point_in 0 1 c.
Proof.
  apply (proj2 (palmCenter_in_box palm18 0 1)).
  - vm_compute. lia.
  - unfold palm18. apply Forall_replicate. split; split; vm_compute; discriminate.
Defined.


(** ** More on the clap detector *)

Lemma updates_snoc st cs c :
  updates st (cs ++ [c]) =
  ((updates st cs).1 ++ [(step (updates st cs).2 c).1], (step (updates st cs).2 c).2).
Proof. rewrite updates_app. by rewrite updates_cons. Qed.

(** The result of call [j] is that of one step from the state that the
    calls before it leave. *)
Lemma updates_lookup st cs j cj :
  cs !! j = Some cj →
  (updates st cs).1 !! j = Some (step (updates st (take j cs)).2 cj).1.
Proof.
  intros Hj. rewrite <- (take_drop_middle cs j cj Hj) at 1.
  assert (Hlen : length (take j cs) = j).
  { rewrite length_take. apply lookup_lt_Some in Hj. lia. }
  rewrite updates_app. cbn [fst].
  rewrite lookup_app_r by (rewrite updates_length; lia).
  rewrite updates_length, Hlen, Nat.sub_diag, updates_cons. done.
Qed.

Lemma updates_take_S st cs j cj :
  cs !! j = Some cj →
  (updates st (take (S j) cs)).2 = (step (updates st (take j cs)).2 cj).2.
Proof. intros Hj. rewrite (take_S_r cs j cj Hj), updates_snoc. done. Qed.

Lemma step_cooldown_mono st c :
  Clap.cooldownUntil st <= Clap.cooldownUntil (step st c).2.
Proof.
  unfold step, update.
  destruct (bothHands c); cbn [negb]; [|cbn [snd Clap.cooldownUntil]; lra].
  destruct (Qltb_spec (now c) (Clap.cooldownUntil st)); [cbn [snd]; lra|].
  destruct (negb (Clap.inClapZone st) && Qltb (distNorm c) thresholdRel).
  - destruct (Qgeb _ _); cbn [snd Clap.cooldownUntil]; [|lra].
    unfold cooldownMs. lra.
  - destruct (Clap.inClapZone st && Qgtb (distNorm c) hysteresisUp);
      [cbn [snd Clap.cooldownUntil]; lra|].
    destruct (negb (Clap.inClapZone st) && Qgeb (distNorm c) thresholdRel);
      cbn [snd Clap.cooldownUntil]; lra.
Qed.

Lemma updates_cooldown_mono st cs :
  Clap.cooldownUntil st <= Clap.cooldownUntil (updates st cs).2.
Proof.
  revert st. induction cs as [|c cs IH]; intros st; [cbn [updates snd]; lra|].
  rewrite updates_cons. cbn [snd].
  pose proof (step_cooldown_mono st c). pose proof (IH (step st c).2). lra.
Qed.

(** What a trigger needs: both hands, a distance under the threshold, the
    cooldown over and a dwell that started at least [minDurationMs] ago. *)
Lemma step_fires_needs st c :
  (step st c).1 = true →
  bothHands c = true ∧ distNorm c < thresholdRel ∧
  Clap.cooldownUntil st <= now c ∧
  ∃ t, Clap.belowSince st = Some t ∧ minDurationMs <= now c - t.
Proof.
  unfold step, update.
  destruct (bothHands c); cbn [negb]; [|done].
  destruct (Qltb_spec (now c) (Clap.cooldownUntil st)); [done|].
  destruct (Clap.inClapZone st); cbn [negb andb].
  - destruct (Qgtb _ _); done.
  - destruct (Qltb_spec (distNorm c) thresholdRel) as [Hd | Hd].
    + unfold Qgeb.
      destruct (Clap.belowSince st) as [t|].
      * destruct (Qltb_spec (now c - t) minDurationMs); cbn [negb]; [done|].
        intros _. split; [done|]. split; [lra|]. split; [lra|].
        exists t. split; [done | lra].
      * destruct (Qltb_spec (now c - now c) minDurationMs) as [|Hge]; cbn [negb]; [done|].
        unfold minDurationMs in Hge. lra.
    + destruct (Qgeb _ _); done.
Qed.

(** X4: two calls that trigger are at least [cooldownMs] apart. *)
Theorem triggers_spaced (st0 : Clap.t) (cs : list Call) (i j : nat) (ci cj : Call) :
  (i < j)%nat → cs !! i = Some ci → cs !! j = Some cj →
  (updates st0 cs).1 !! i = Some true →
  (updates st0 cs).1 !! j = Some true →
  now ci + cooldownMs <= now cj.
Proof.
  intros Hij Hi Hj Hri Hrj.
  rewrite (updates_lookup _ _ _ _ Hi) in Hri. injection Hri as Hfi.
  rewrite (updates_lookup _ _ _ _ Hj) in Hrj. injection Hrj as Hfj.
  destruct (step_fires _ _ Hfi) as (_ & Hcd & _).
  destruct (step_fires_needs _ _ Hfj) as (_ & _ & Hcool & _).
  rewrite <- (updates_take_S _ _ _ _ Hi) in Hcd.
  assert (Hsplit : take j cs = take (S i) cs ++ drop (S i) (take j cs)).
  { rewrite <- (take_drop (S i) (take j cs)) at 1. f_equal.
    rewrite take_take. f_equal. lia. }
  rewrite Hsplit, updates_app in Hcool. cbn [snd] in Hcool.
  pose proof (updates_cooldown_mono (updates st0 (take (S i) cs)).2
                (drop (S i) (take j cs))) as Hmono.
  rewrite Hcd in Hmono. lra.
Qed.

Lemma triggers_spaced_witness :
  now (Build_Call 0.05 true 100) + cooldownMs <= now (Build_Call 0.05 true 1000).
Proof.
  apply (triggers_spaced createClapDetector twoClaps 1 4); try reflexivity.
  lia.
Defined.

Lemma step_belowSince st c t :
  Clap.belowSince (step st c).2 = Some t →
  bothHands c = true ∧
  (Clap.belowSince st = Some t ∨
   (Clap.belowSince st = None ∧ t = now c ∧ distNorm c < thresholdRel)).
Proof.
  unfold step, update.
  destruct (bothHands c); cbn [negb]; [|done].
  destruct (Qltb_spec (now c) (Clap.cooldownUntil st)); [cbn; auto|].
  destruct (Clap.inClapZone st); cbn [negb andb].
  - destruct (Qgtb _ _); cbn; auto.
  - destruct (Qltb_spec (distNorm c) thresholdRel) as [Hd | Hd].
    + destruct (Clap.belowSince st) as [t'|].
      * destruct (Qgeb _ _); cbn; [done | auto].
      * destruct (Qgeb _ _); cbn; [done|]. intros [= <-]. auto.
    + destruct (Qgeb _ _); cbn; [done | auto].
Qed.

(** A pending dwell was started by an earlier call under the threshold, and
    both hands were present in every call since. *)
Lemma dwell_started (st0 : Clap.t) (cs : list Call) (t : Q) :
  Clap.belowSince st0 = None →
  Clap.belowSince (updates st0 cs).2 = Some t →
  ∃ k ck, cs !! k = Some ck ∧ now ck = t ∧ distNorm ck < thresholdRel ∧
    ∀ i ci, (k ≤ i)%nat → cs !! i = Some ci → bothHands ci = true.
Proof.
  intros H0. revert t. induction cs as [|c cs IH] using rev_ind; intros t Ht.
  - cbn in Ht. congruence.
  - rewrite updates_snoc in Ht. cbn [snd] in Ht.
    destruct (step_belowSince _ _ _ Ht) as [Hb [Hold | (Hnone & -> & Hd)]].
    + destruct (IH t Hold) as (k & ck & Hk & Hnow & Hdist & Hall).
      exists k, ck. split; [by apply lookup_app_l_Some|]. repeat split; try done.
      intros i ci Hki Hi. apply lookup_app_Some in Hi as [Hi | [_ Hi]].
      * by eapply Hall.
      * apply list_lookup_singleton_Some in Hi as [_ <-]. done.
    + exists (length cs), c. split; [by rewrite list_lookup_middle|].
      repeat split; try done.
      intros i ci Hki Hi. apply lookup_app_Some in Hi as [Hi | [_ Hi]].
      * apply lookup_lt_Some in Hi. lia.
      * apply list_lookup_singleton_Some in Hi as [_ <-]. done.
Qed.

(** X5: a trigger needs a dwell: from a new detector, a call that triggers
    comes after an earlier call under the threshold that is at least
    [minDurationMs] older, with both hands present in every call from that
    one on; its own distance is under the threshold too.  In particular the
    first call never triggers. *)
Theorem trigger_needs_dwell (cs : list Call) (j : nat) :
  (updates createClapDetector cs).1 !! j = Some true →
  ∃ k ck cj, (k < j)%nat ∧ cs !! k = Some ck ∧ cs !! j = Some cj ∧
    now ck + minDurationMs <= now cj ∧
    distNorm ck < thresholdRel ∧ distNorm cj < thresholdRel ∧
    ∀ i ci, (k ≤ i ≤ j)%nat → cs !! i = Some ci → bothHands ci = true.
Proof.
  intros Hrj.
  assert (Hlt : (j < length cs)%nat).
  { rewrite <- (updates_length createClapDetector cs). by eapply lookup_lt_Some. }
  destruct (lookup_lt_is_Some_2 cs j Hlt) as [cj Hj].
  rewrite (updates_lookup _ _ _ _ Hj) in Hrj. injection Hrj as Hfj.
  destruct (step_fires_needs _ _ Hfj) as (Hbj & Hdj & _ & t & Ht & Hdwell).
  destruct (dwell_started createClapDetector (take j cs) t eq_refl Ht)
    as (k & ck & Hk & Hnow & Hdk & Hall).
  assert (Hkj : (k < j)%nat).
  { apply lookup_lt_Some in Hk. rewrite length_take in Hk. lia. }
  exists k, ck, cj. rewrite lookup_take_lt in Hk by done.
  repeat split; try done.
  - rewrite Hnow. lra.
  - intros i ci [Hki Hij] Hi. destruct (decide (i = j)) as [-> | Hne].
    + congruence.
    + apply (Hall i ci Hki). rewrite lookup_take_lt by lia. done.
Qed.

Lemma trigger_needs_dwell_witness :
  ∃ k ck cj, (k < 1)%nat ∧ twoClaps !! k = Some ck ∧ twoClaps !! 1%nat = Some cj ∧
    now ck + minDurationMs <= now cj ∧
    distNorm ck < thresholdRel ∧ distNorm cj < thresholdRel ∧
    ∀ i ci, (k ≤ i ≤ 1)%nat → twoClaps !! i = Some ci → bothHands ci = true.
Proof. apply (trigger_needs_dwell twoClaps 1). vm_compute. reflexivity. Defined.

Lemma step_zone_invariant st c :
  (Clap.inClapZone st = true → Clap.belowSince st = None) →
  Clap.inClapZone (step st c).2 = true → Clap.belowSince (step st c).2 = None.
Proof.
  intros Hinv. unfold step, update.
  destruct (bothHands c); cbn [negb]; [|done].
  destruct (Qltb (now c) (Clap.cooldownUntil st)); [done|].
  destruct (Clap.inClapZone st) eqn:Hz; cbn [negb andb].
  - destruct (Qgtb _ _); cbn [snd Clap.inClapZone Clap.belowSince]; [done | auto].
  - destruct (Qltb (distNorm c) thresholdRel).
    + destruct (Qgeb _ _); cbn [snd Clap.inClapZone Clap.belowSince]; done.
    + destruct (Qgeb _ _); cbn [snd Clap.inClapZone Clap.belowSince]; [done | congruence].
Qed.

(** X6: the detector is never in the clap zone with a dwell pending, and
    its cooldown deadline never moves back, whatever the calls. *)
Theorem clap_state_invariant (cs : list Call) :
  let st := (updates createClapDetector cs).2 in
  (Clap.inClapZone st = true → Clap.belowSince st = None) ∧
  ∀ more, Clap.cooldownUntil st <= Clap.cooldownUntil (updates st more).2.
Proof.
  cbv zeta. split; [|intros more; apply updates_cooldown_mono].
  induction cs as [|c cs IH] using rev_ind; [done|].
  rewrite updates_snoc. cbn [snd]. by apply step_zone_invariant.
Qed.

(** ** The point smoother *)

Lemma push_in_box (s : Smoother.t) (x y lo hi : Q) :
  0 <= Smoother.alpha s <= 1 →
  (∀ p, Smoother.pt s = Some p → Point_in lo hi p) →
  Point_in lo hi (x, y) →
  Point_in lo hi (push s x y).1.
Proof.
  intros Ha Hs [Hx Hy]. unfold push. cbn [fst snd] in *.
  destruct (Smoother.pt s) as [p|] eqn:E; cbn [fst snd].
  - destruct (Hs p eq_refl) as [H1 H2]. unfold Point_in. cbn [fst snd].
    set (a := Smoother.alpha s) in *. clearbody a. split; split; nra.
  - split; assumption.
Qed.

(** X7: with a coefficient in [0, 1] the smoother never leaves the box of
    the points it was given: after any sequence of [push] and [reset] calls on
    a smoother without a point, the point it holds (and so the one the last
    [push] returned) lies in every square that contains all pushed points. *)
Theorem smoother_stays_in_box (alpha : Q) (ops : list SmootherOp) (lo hi : Q) :
  0 <= alpha <= 1 →
  Forall (λ op, match op with Push x y => Point_in lo hi (x, y) | Reset => True end) ops →
  ∀ p, get (fold_left smootherStep ops (makePointSmoother (Some alpha))) = Some p →
       Point_in lo hi p.
Proof.
  intros Ha Hops.
  assert (Hgen : ∀ s, 0 <= Smoother.alpha s <= 1 →
            (∀ p, Smoother.pt s = Some p → Point_in lo hi p) →
            ∀ p, Smoother.pt (fold_left smootherStep ops s) = Some p → Point_in lo hi p).
  { induction Hops as [|op ops Hop Hops IH]; intros s Hs Hp; [exact Hp|].
    cbn [fold_left]. apply IH.
    - destruct op; cbn [smootherStep]; [|exact Hs].
      destruct (push_state s x y) as [_ ->]. exact Hs.
    - destruct op; cbn [smootherStep].
      + intros p. destruct (push_state s x y) as [-> _]. intros [= <-].
        apply push_in_box; assumption.
      + intros p. cbn. discriminate. }
  apply Hgen; [exact Ha|]. intros p. cbn. discriminate.
Qed.

Lemma smoother_stays_in_box_witness :
  Point_in 0 1
    (default (0, 0)
       (get (fold_left smootherStep [Push 0 1; Push 1 0; Reset; Push 0.5 0.5; Push 1 1]
               (makePointSmoother (Some 0.4))))).
Proof.
  apply (smoother_stays_in_box 0.4 [Push 0 1; Push 1 0; Reset; Push 0.5 0.5; Push 1 1] 0 1).
  - split; discriminate.
  - repeat constructor; discriminate.
  - reflexivity.
Defined.

(** X8: pushing the same point again and again closes the distance to it
    geometrically: after [n] further pushes of [(x, y)] a smoother that held
    [p] holds a point whose offset from [(x, y)] is [(1 - alpha)^n] times
    that of [p]. *)
Theorem smoother_converges (s : Smoother.t) (p : Point) (x y : Q) (n : nat) :
  get s = Some p →
  ∃ q, get (pushes n s x y) = Some q ∧
       q.1 - x == Qpow (1 - Smoother.alpha s) n * (p.1 - x) ∧
       q.2 - y == Qpow (1 - Smoother.alpha s) n * (p.2 - y).
Proof.
  revert s p. induction n as [|n IH]; intros s p Hp.
  - exists p. cbn [pushes Qpow]. split; [exact Hp|]. split; ring.
  - cbn [pushes Qpow].
    destruct (push_state s x y) as [Hpt Hal].
    destruct (IH (push s x y).2 (push s x y).1 Hpt) as (q & Hq & H1 & H2).
    exists q. split; [exact Hq|]. rewrite Hal in H1, H2.
    unfold get in Hp. unfold push in H1, H2. rewrite Hp in H1, H2.
    cbn [fst snd] in H1, H2. split.
    + rewrite H1. ring.
    + rewrite H2. ring.
Qed.

Lemma smoother_converges_witness :
  ∃ q, get (pushes 3 (push leftSmoother 0 0).2 1 1) = Some q ∧
       q.1 - 1 == Qpow (1 - Smoother.alpha (push leftSmoother 0 0).2) 3 * ((0, 0).1 - 1) ∧
       q.2 - 1 == Qpow (1 - Smoother.alpha (push leftSmoother 0 0).2) 3 * ((0, 0).2 - 1).
Proof.
  apply (smoother_converges (push leftSmoother 0 0).2 (0, 0) 1 1 3). reflexivity.
Defined.

(** ** The table that [generate3DLUT] builds, sampled *)


Lemma clamp01_id (x : Q) : 0 <= x <= 1 → clamp01 x == x.
Proof.
  intros Hx. unfold clamp01, Qgtb.
  destruct (Qltb_spec x 0); [lra|]. destruct (Qltb_spec 1 x); lra.
Qed.


Lemma sampleLUT3D_unit (lut : LUT.t) (r g b : Q) :
  lut_wf lut → in01 r → in01 g → in01 b →
  sampleLUT3D lut r g b =
  Some (trilinear (LUT.data lut) (LUT.size lut) (latticeCell (LUT.size lut) r)
          (latticeCell (LUT.size lut) g) (latticeCell (LUT.size lut) b)).
Proof.
  intros Hwf Hr Hg Hb. pose proof Hwf as [Hn _].
  apply sampleLUT3D_in_table; [exact Hwf|..];
    apply latticeCell_unit; assumption.
Qed.



(** The texel of a grid point of a generated table. *)
Lemma texel_generate3DLUT (n : Z) (f : Q → Q → Q → RGB) (i j k : Z) :
  (2 <= n)%Z → (0 <= i < n)%Z → (0 <= j < n)%Z → (0 <= k < n)%Z →
  texel (LUT.data (generate3DLUT n f)) (lutIdx n i j k)
  = (clamp01 (ch0 (gridEntry n f i j k)), clamp01 (ch1 (gridEntry n f i j k)),
     clamp01 (ch2 (gridEntry n f i j k))).
Proof.
  intros Hn Hi Hj Hk.
  destruct (sampleLUT3D_grid_point n f i j k Hn Hi Hj Hk) as (H0 & H1 & H2 & _).
  unfold texel, lutIdx, gridEntry. rewrite H0, H1, H2. reflexivity.
Qed.

(** Along one axis the two planes of the cell interpolate the coordinate
    itself. *)
Lemma latticeCell_exact (n : Z) (x : Q) :
  (2 <= n)%Z → in01 x →
  (0 <= (latticeCell n x).1.1 < n)%Z ∧ (0 <= (latticeCell n x).1.2 < n)%Z ∧
  mix (clamp01 (inject_Z (latticeCell n x).1.1 / inject_Z (n - 1)))
      (clamp01 (inject_Z (latticeCell n x).1.2 / inject_Z (n - 1)))
      (latticeCell n x).2 == x.
Proof.
  intros Hn Hx.
  destruct (latticeCell_unit n x ltac:(lia) Hx) as [[H0 H1] Ht].
  split; [lia|]. split; [lia|].
  revert H0 H1 Ht. unfold latticeCell. cbn [fst snd].
  set (m := inject_Z (n - 1)).
  assert (Hm : 1 <= m).
  { unfold m. change 1 with (inject_Z 1). rewrite <- Zle_Qle. lia. }
  set (x0 := Qfloor (x * m)). intros H0 H1 Ht.
  assert (Hx0 : inject_Z x0 <= m).
  { unfold m. rewrite <- Zle_Qle. lia. }
  assert (Hx0' : 0 <= inject_Z x0).
  { change 0 with (inject_Z 0). rewrite <- Zle_Qle. lia. }
  assert (Hd0 : inject_Z x0 / m * m == inject_Z x0) by (field; lra).
  assert (Hr0 : 0 <= inject_Z x0 / m <= 1) by (split; nra).
  pose proof (clamp01_id _ Hr0) as C0.
  destruct (Z.eq_dec x0 (n - 1)%Z) as [E|E].
  - rewrite Z.min_l by lia. unfold mix. rewrite C0.
    assert (Hxm : x * m == inject_Z x0).
    { apply Qle_antisym; [|lra]. rewrite E. fold m. destruct Hx. nra. }
    assert (Hq : x == inject_Z x0 / m) by (rewrite <- Hxm; field; lra).
    rewrite <- Hq, Hxm. ring.
  - rewrite Z.min_r by lia.
    assert (H1' : inject_Z (x0 + 1) == inject_Z x0 + 1) by (rewrite inject_Z_plus; reflexivity).
    assert (Hd1 : inject_Z (x0 + 1) / m * m == inject_Z x0 + 1) by (rewrite H1'; field; lra).
    assert (Hle : inject_Z x0 + 1 <= m).
    { rewrite <- H1'. unfold m. rewrite <- Zle_Qle. lia. }
    assert (Hr1 : 0 <= inject_Z (x0 + 1) / m <= 1) by (split; nra).
    pose proof (clamp01_id _ Hr1) as C1.
    unfold mix. rewrite C0, C1, H1'. field. lra.
Qed.

(** Trilinear interpolation reproduces the identity. *)
Lemma sampleLUT3D_identity (n : Z) (r g b : Q) :
  (2 <= n)%Z → in01 r → in01 g → in01 b →
  ∃ c, sampleLUT3D (generate3DLUT n (λ r g b, (r, g, b))) r g b = Some c ∧
       RGB_eq c (r, g, b).
Proof.
  intros Hn Hr Hg Hb. eexists. split.
  - apply sampleLUT3D_unit; [apply generate3DLUT_wf; lia|assumption..].
  - rewrite generate3DLUT_size.
    destruct (latticeCell_exact n r Hn Hr) as (Hr0 & Hr1 & Er).
    destruct (latticeCell_exact n g Hn Hg) as (Hg0 & Hg1 & Eg).
    destruct (latticeCell_exact n b Hn Hb) as (Hb0 & Hb1 & Eb).
    destruct (latticeCell n r) as [[r0 r1] tr].
    destruct (latticeCell n g) as [[g0 g1] tg].
    destruct (latticeCell n b) as [[b0 b1] tb].
    cbn [fst snd] in *. unfold trilinear.
    rewrite !texel_generate3DLUT by assumption.
    unfold RGB_eq, gridEntry, mix3, ch0, ch1, ch2. cbn [fst snd].
    revert Er Eg Eb.
    generalize (clamp01 (inject_Z r0 / inject_Z (n - 1))).
    generalize (clamp01 (inject_Z r1 / inject_Z (n - 1))).
    generalize (clamp01 (inject_Z g0 / inject_Z (n - 1))).
    generalize (clamp01 (inject_Z g1 / inject_Z (n - 1))).
    generalize (clamp01 (inject_Z b0 / inject_Z (n - 1))).
    generalize (clamp01 (inject_Z b1 / inject_Z (n - 1))).
    unfold mix. intros B1 B0 G1 G0 R1 R0 Er Eg Eb.
    split; [|split].
    + rewrite <- Er. ring.
    + rewrite <- Eg. ring.
    + rewrite <- Eb. ring.
Qed.

(** ** The pixel loop of [renderLUT] *)

Lemma arr_get_app {A : Type} (pre l : list A) (c : Z) :
  (0 <= c)%Z → arr_get (pre ++ l) (Z.of_nat (length pre) + c) = arr_get l c.
Proof.
  intros Hc. unfold arr_get.
  destruct (Z.ltb_spec (Z.of_nat (length pre) + c) 0); [lia|].
  destruct (Z.ltb_spec c 0); [lia|].
  rewrite lookup_app_r by lia. f_equal. lia.
Qed.

Lemma insert_app_Z {A : Type} (pre l : list A) (c : Z) (v : A) :
  (0 <= c)%Z →
  <[Z.to_nat (Z.of_nat (length pre) + c) := v]> (pre ++ l) = pre ++ <[Z.to_nat c := v]> l.
Proof.
  intros Hc. rewrite insert_app_r_alt by lia. do 2 f_equal. lia.
Qed.

Lemma length_gradePixel lut s i data : length (gradePixel lut s i data) = length data.
Proof.
  unfold gradePixel. destruct (default _ _) as [[nr ng] nb].
  by rewrite !length_insert.
Qed.

Lemma gradePixel_shift lut s (pre l : list Z) (c : Z) :
  (0 <= c)%Z →
  gradePixel lut s (Z.of_nat (length pre) + c) (pre ++ l) = pre ++ gradePixel lut s c l.
Proof.
  intros Hc. unfold gradePixel.
  rewrite <- !Z.add_assoc, !arr_get_app by lia.
  destruct (default _ _) as [[nr ng] nb].
  rewrite !insert_app_Z by lia. reflexivity.
Qed.

(** An iteration at the offset of a pixel touches that pixel only. *)
Lemma gradePixel_app lut s (pre b rest : list Z) :
  length b = 4%nat →
  gradePixel lut s (Z.of_nat (length pre)) (pre ++ b ++ rest)
  = pre ++ gradePixel lut s 0 b ++ rest.
Proof.
  intros Hb. destruct b as [|r [|g [|bl [|a [|]]]]]; try discriminate. clear Hb.
  rewrite <- (Z.add_0_r (Z.of_nat (length pre))).
  rewrite gradePixel_shift by lia. f_equal.
  unfold gradePixel.
  change (arr_get ([r; g; bl; a] ++ rest) 0) with (Some r).
  change (arr_get ([r; g; bl; a] ++ rest) (0 + 1)) with (Some g).
  change (arr_get ([r; g; bl; a] ++ rest) (0 + 2)) with (Some bl).
  change (arr_get [r; g; bl; a] 0) with (Some r).
  change (arr_get [r; g; bl; a] (0 + 1)) with (Some g).
  change (arr_get [r; g; bl; a] (0 + 2)) with (Some bl).
  destruct (default _ _) as [[nr ng] nb]. reflexivity.
Qed.

Lemma gradeAll_from lut s (blocks : list (list Z)) :
  Forall (λ b, length b = 4%nat) blocks →
  ∀ (pre : list Z) (k : nat), length pre = (4 * k)%nat →
    fold_left (λ acc p, gradePixel lut s (4 * p)%Z acc)
      (seqZ (Z.of_nat k) (Z.of_nat (length blocks))) (pre ++ mjoin blocks)
    = pre ++ mjoin (gradePixel lut s 0 <$> blocks).
Proof.
  induction 1 as [|b blocks Hb _ IH]; intros pre k Hpre; [reflexivity|].
  rewrite seqZ_cons by (cbn [length]; lia).
  cbn [fold_left fmap list_fmap mjoin list_join].
  replace (4 * Z.of_nat k)%Z with (Z.of_nat (length pre)) by lia.
  rewrite gradePixel_app by exact Hb.
  replace (Z.succ (Z.of_nat k)) with (Z.of_nat (S k)) by lia.
  replace (Z.pred (Z.of_nat (length (b :: blocks)))) with (Z.of_nat (length blocks))
    by (cbn [length]; lia).
  rewrite (app_assoc pre (gradePixel lut s 0 b) (mjoin blocks)).
  transitivity ((pre ++ gradePixel lut s 0 b) ++ mjoin (gradePixel lut s 0 <$> blocks)).
  - apply (IH (pre ++ gradePixel lut s 0 b) (S k)).
    rewrite length_app, length_gradePixel. lia.
  - by rewrite <- app_assoc.
Qed.

Lemma length_mjoin_4 (blocks : list (list Z)) :
  Forall (λ b, length b = 4%nat) blocks → length (mjoin blocks) = (4 * length blocks)%nat.
Proof.
  induction 1 as [|b blocks Hb _ IH]; [reflexivity|].
  change (mjoin (b :: blocks)) with (b ++ mjoin blocks).
  rewrite length_app, IH, Hb. cbn [length]. lia.
Qed.

Lemma gradeAll_blocks lut s (blocks : list (list Z)) :
  Forall (λ b, length b = 4%nat) blocks →
  gradeAll lut s (mjoin blocks) = mjoin (gradePixel lut s 0 <$> blocks).
Proof.
  intros Hb. unfold gradeAll, for_stride4. rewrite length_mjoin_4 by exact Hb.
  replace ((Z.of_nat (4 * length blocks) + 3) `div` 4)%Z with (Z.of_nat (length blocks)).
  2:{ apply Z.div_unique with (r := 3%Z); lia. }
  exact (gradeAll_from lut s blocks Hb [] 0%nat eq_refl).
Qed.

Lemma u8_byte_ok (z : Z) : byte_ok (u8 z).
Proof. unfold byte_ok, u8. lia. Qed.

Lemma gradePixel_pixel lut s (r g b a : Z) :
  ∃ r' g' b', gradePixel lut s 0 [r; g; b; a] = [r'; g'; b'; a] ∧
              byte_ok r' ∧ byte_ok g' ∧ byte_ok b'.
Proof.
  unfold gradePixel. destruct (default _ _) as [[nr ng] nb].
  exists (u8 nr), (u8 ng), (u8 nb). split; [reflexivity|].
  repeat split; apply u8_byte_ok.
Qed.

(** X10: the loop of [renderLUT] grades each pixel on its own: on a frame
    given as its pixels of four bytes, the loop over the whole data equals
    one iteration on each pixel separately, and an iteration keeps the alpha
    byte and stores three bytes of [0, 255], whatever the table holds. *)
Theorem renderLUT_loop_pixelwise (lut : LUT.t) (strength : Q) (blocks : list (list Z)) :
  Forall (λ b, length b = 4%nat) blocks →
  gradeAll lut strength (mjoin blocks) = mjoin (gradePixel lut strength 0 <$> blocks) ∧
  length (gradeAll lut strength (mjoin blocks)) = length (mjoin blocks) ∧
  ∀ r g b a,
    ∃ r' g' b', gradePixel lut strength 0 [r; g; b; a] = [r'; g'; b'; a] ∧
                byte_ok r' ∧ byte_ok g' ∧ byte_ok b'.
Proof.
  intros Hb.
  pose proof (gradeAll_blocks lut strength blocks Hb) as E.
  split; [exact E|]. split.
  - rewrite E, !length_mjoin_4, length_fmap; [reflexivity|exact Hb|].
    apply Forall_fmap. eapply Forall_impl; [exact Hb|].
    intros b' Hb'. cbn. by rewrite length_gradePixel.
  - intros r g b a. apply gradePixel_pixel.
Qed.

Lemma renderLUT_loop_pixelwise_witness :
  gradeAll smallLUT 0.95 (mjoin [[1; 2; 3; 255]; [4; 5; 6; 128]]%Z)
  = mjoin (gradePixel smallLUT 0.95 0 <$> [[1; 2; 3; 255]; [4; 5; 6; 128]]%Z) ∧
  length (gradeAll smallLUT 0.95 (mjoin [[1; 2; 3; 255]; [4; 5; 6; 128]]%Z))
  = length (mjoin [[1; 2; 3; 255]; [4; 5; 6; 128]]%Z) ∧
  ∀ r g b a,
    ∃ r' g' b', gradePixel smallLUT 0.95 0 [r; g; b; a] = [r'; g'; b'; a] ∧
                byte_ok r' ∧ byte_ok g' ∧ byte_ok b'.
Proof.
  apply (renderLUT_loop_pixelwise smallLUT 0.95 [[1; 2; 3; 255]; [4; 5; 6; 128]]%Z).
  repeat constructor.
Defined.

Lemma byte_unit (v : Z) : byte_ok v → in01 (inject_Z v / 255).
Proof.
  intros [H0 H1]. apply inject_Z_nonneg in H0.
  assert (H2 : inject_Z v <= 255).
  { change 255 with (inject_Z 255). by rewrite <- Zle_Qle. }
  assert (E : inject_Z v / 255 * 255 == inject_Z v) by (field; lra).
  split; nra.
Qed.

Lemma round_byte (q : Q) (v : Z) :
  byte_ok v → q == inject_Z v / 255 → u8 (Math_round (clamp01 q * 255)) = v.
Proof.
  intros Hv Hq. pose proof (byte_unit v Hv) as Hu. unfold in01 in Hu.
  assert (Hc : clamp01 q == q) by (apply clamp01_id; rewrite Hq; exact Hu).
  assert (E : clamp01 q * 255 == inject_Z v) by (rewrite Hc, Hq; field; lra).
  assert (Math_round (clamp01 q * 255) = v) as ->.
  { apply Z.le_antisymm; [apply Math_round_le | apply Math_round_ge]; rewrite E; lra. }
  unfold u8, byte_ok in *. lia.
Qed.

Lemma gradePixel_sampled lut s (r g b a : Z) (c : RGB) :
  sampleLUT3D lut (inject_Z r / 255) (inject_Z g / 255) (inject_Z b / 255) = Some c →
  gradePixel lut s 0 [r; g; b; a]
  = [u8 (Math_round (clamp01 (mix (inject_Z r / 255) (ch0 c) s) * 255));
     u8 (Math_round (clamp01 (mix (inject_Z g / 255) (ch1 c) s) * 255));
     u8 (Math_round (clamp01 (mix (inject_Z b / 255) (ch2 c) s) * 255)); a].
Proof.
  intros Hc. unfold gradePixel.
  change (arr_get [r; g; b; a] 0) with (Some r).
  change (arr_get [r; g; b; a] (0 + 1)) with (Some g).
  change (arr_get [r; g; b; a] (0 + 2)) with (Some b).
  cbn [fmap option_fmap option_map mbind option_bind]. rewrite Hc.
  reflexivity.
Qed.



(** X12: trilinear interpolation reproduces the identity: a table generated
    from the transform that returns its argument, of any size from 2 on,
    sampled at any colour of the unit cube gives that colour back exactly,
    and grading a pixel with it stores back the bytes that were read, at
    every strength. *)
Theorem identity_lut_is_exact (n : Z) :
  (2 <= n)%Z →
  (∀ r g b, in01 r → in01 g → in01 b →
     ∃ c, sampleLUT3D (generate3DLUT n (λ r g b, (r, g, b))) r g b = Some c ∧
          RGB_eq c (r, g, b)) ∧
  (∀ strength r g b a, byte_ok r → byte_ok g → byte_ok b →
     gradePixel (generate3DLUT n (λ r g b, (r, g, b))) strength 0 [r; g; b; a]
     = [r; g; b; a]).
Proof.
  intros Hn. split.
  - intros r g b. apply sampleLUT3D_identity. exact Hn.
  - intros s r g b a Hr Hg Hb.
    destruct (sampleLUT3D_identity n _ _ _ Hn (byte_unit r Hr) (byte_unit g Hg)
                (byte_unit b Hb)) as (c & Hc & E0 & E1 & E2).
    rewrite (gradePixel_sampled _ s r g b a c Hc).
    unfold ch0, ch1, ch2 in *. cbn [fst snd] in E0, E1, E2.
    rewrite (round_byte _ r), (round_byte _ g), (round_byte _ b);
      [reflexivity|..]; try assumption; unfold mix.
    + rewrite E2. ring.
    + rewrite E1. ring.
    + rewrite E0. ring.
Qed.

Lemma identity_lut_is_exact_witness :
  (∀ r g b, in01 r → in01 g → in01 b →
     ∃ c, sampleLUT3D (generate3DLUT 17 (λ r g b, (r, g, b))) r g b = Some c ∧
          RGB_eq c (r, g, b)) ∧
  (∀ strength r g b a, byte_ok r → byte_ok g → byte_ok b →
     gradePixel (generate3DLUT 17 (λ r g b, (r, g, b))) strength 0 [r; g; b; a]
     = [r; g; b; a]).
Proof. apply (identity_lut_is_exact 17). lia. Defined.

(** ** The Sobel detector on any frame *)

Lemma roundHalfEven_bounds (x : Q) (lo hi : Z) :
  inject_Z lo <= x → x <= inject_Z hi → (lo <= roundHalfEven x <= hi)%Z.
Proof.
  intros Hlo Hhi. unfold roundHalfEven. cbv zeta.
  assert (H1 : (lo <= Qfloor x)%Z).
  { rewrite <- (Qfloor_Z lo). by apply Qfloor_resp_le. }
  assert (H2 : (Qfloor x <= hi)%Z).
  { rewrite <- (Qfloor_Z hi). by apply Qfloor_resp_le. }
  destruct (Qltb (x - inject_Z (Qfloor x)) 0.5) eqn:Hc; [lia|].
  apply Qltb_false in Hc.
  assert (H3 : (Qfloor x + 1 <= hi)%Z).
  { destruct (Z.eq_dec (Qfloor x) hi) as [E|E]; [|lia].
    rewrite E in Hc. lra. }
  destruct (Qltb 0.5 _); [lia|]. destruct (Z.even _); lia.
Qed.

Lemma toUint8Clamped_byte_ok (v : option Q) : byte_ok (toUint8Clamped v).
Proof.
  unfold byte_ok, toUint8Clamped. destruct v as [x|]; [|lia].
  destruct (Qle_bool x 0) eqn:E0; [lia|].
  destruct (Qle_bool 255 x) eqn:E1; [lia|].
  apply roundHalfEven_bounds.
  - apply not_true_iff_false in E0. rewrite Qle_bool_iff in E0.
    change (inject_Z 0) with 0. lra.
  - apply not_true_iff_false in E1. rewrite Qle_bool_iff in E1.
    change (inject_Z 255) with 255. lra.
Qed.

Lemma Forall_fold_poke {A : Type} (P : A → Prop) (val : Z → A) (xs : list Z) (l : list A) :
  (∀ i, P (val i)) → Forall P l → Forall P (fold_left (poke val) xs l).
Proof.
  intros Hval. revert l. induction xs as [|x xs IH]; intros l Hl; [exact Hl|].
  cbn [fold_left]. apply IH. unfold poke. by apply Forall_insert.
Qed.

Section SobelShape.
Context `{Host}.

(** X13: whatever the frame and whatever [Math.sqrt] returns, the image of
    [sobelEdge] has the dimensions and the data length of its input, holds
    bytes of [0, 255] only, is transparent black on the border (and
    everywhere when the frame is less than 3 pixels wide or high) and an
    opaque grey (red = green = blue, alpha 255) at every interior pixel. *)
Theorem sobelEdge_shape (img : ImageData.t) (w h : Z) :
  length (ImageData.data img) = Z.to_nat (w * h * 4) →
  ImageData.width (sobelEdge img w h) = w ∧
  ImageData.height (sobelEdge img w h) = h ∧
  length (ImageData.data (sobelEdge img w h)) = length (ImageData.data img) ∧
  Forall byte_ok (ImageData.data (sobelEdge img w h)) ∧
  (∀ x y, (0 <= x < w)%Z → (0 <= y < h)%Z →
     if interior w h x y
     then ∃ v, byte_ok v ∧ pixel_at (sobelEdge img w h) x y = (v, v, v, 255%Z)
     else pixel_at (sobelEdge img w h) x y = (0, 0, 0, 0)%Z) ∧
  ((w < 3 ∨ h < 3)%Z → ∀ x y, (0 <= x < w)%Z → (0 <= y < h)%Z →
     pixel_at (sobelEdge img w h) x y = (0, 0, 0, 0)%Z).
Proof.
  intros Hlen.
  split; [reflexivity|]. split; [reflexivity|]. split; [apply length_sobelEdge|].
  split; [|split].
  - rewrite sobelEdge_data. apply Forall_fold_poke.
    + intros q. unfold edgeByte. destruct (_ =? _)%Z; [unfold byte_ok; lia|].
      apply toUint8Clamped_byte_ok.
    + apply Forall_replicate. unfold byte_ok. lia.
  - intros x y Hx Hy. rewrite (sobelEdge_pixel img w h x y Hlen Hx Hy).
    destruct (interior w h x y); [|reflexivity].
    eexists. split; [apply toUint8Clamped_byte_ok|reflexivity].
  - intros Hsmall x y Hx Hy. rewrite (sobelEdge_pixel img w h x y Hlen Hx Hy).
    assert (interior w h x y = false) as ->; [|reflexivity].
    unfold interior. apply not_true_iff_false. intros Ht.
    rewrite !andb_true_iff in Ht. lia.
Qed.
End SobelShape.

Lemma sobelEdge_shape_witness :
  ImageData.width (@sobelEdge exampleHost grayFrame3 3 3) = 3%Z ∧
  ImageData.height (@sobelEdge exampleHost grayFrame3 3 3) = 3%Z ∧
  length (ImageData.data (@sobelEdge exampleHost grayFrame3 3 3))
  = length (ImageData.data grayFrame3) ∧
  Forall byte_ok (ImageData.data (@sobelEdge exampleHost grayFrame3 3 3)) ∧
  (∀ x y, (0 <= x < 3)%Z → (0 <= y < 3)%Z →
     if interior 3 3 x y
     then ∃ v, byte_ok v ∧ pixel_at (@sobelEdge exampleHost grayFrame3 3 3) x y
                           = (v, v, v, 255%Z)
     else pixel_at (@sobelEdge exampleHost grayFrame3 3 3) x y = (0, 0, 0, 0)%Z) ∧
  ((3 < 3 ∨ 3 < 3)%Z → ∀ x y, (0 <= x < 3)%Z → (0 <= y < 3)%Z →
     pixel_at (@sobelEdge exampleHost grayFrame3 3 3) x y = (0, 0, 0, 0)%Z).
Proof. apply (@sobelEdge_shape exampleHost grayFrame3 3 3). reflexivity. Defined.

(** ** [resize] *)

Lemma Math_round_div24 (w : Z) : Math_round (inject_Z w / 24) = ((w + 12) `div` 24)%Z.
Proof.
  unfold Math_round. apply Qfloor_between.
  - pose proof (Z.mul_div_le (w + 12) 24 ltac:(lia)) as Hz.
    rewrite Zle_Qle in Hz. rewrite inject_Z_mult, inject_Z_plus in Hz.
    change (inject_Z 24) with 24 in Hz. change (inject_Z 12) with 12 in Hz.
    assert (E : inject_Z w / 24 * 24 == inject_Z w) by field. lra.
  - pose proof (Z.mul_succ_div_gt (w + 12) 24 ltac:(lia)) as Hz.
    rewrite Zlt_Qlt in Hz. rewrite inject_Z_mult, inject_Z_plus in Hz.
    unfold Z.succ in Hz. rewrite inject_Z_plus in Hz.
    change (inject_Z 24) with 24 in Hz. change (inject_Z 12) with 12 in Hz.
    change (inject_Z 1) with 1 in Hz.
    assert (E : inject_Z w / 24 * 24 == inject_Z w) by field. lra.
Qed.

Lemma resize_dims (p : Pipeline.t) (w h : Z) :
  Pipeline.w (resize p w h) = w ∧ Pipeline.h (resize p w h) = h.
Proof.
  unfold resize.
  destruct (Z.eqb_spec (Pipeline.w p) w), (Z.eqb_spec (Pipeline.h p) h); by cbn.
Qed.

(** X14: [resize] records the dimensions and keeps both caches; a second
    call with the same dimensions changes nothing, and neither does a call
    with the dimensions the pipeline has; when a dimension changes, the pixel
    canvas becomes a cleared canvas with one cell per 24 pixels, rounded to
    the nearest, and at least 32 cells, in each direction. *)
Theorem resize_spec (p : Pipeline.t) (w h : Z) :
  Pipeline.w (resize p w h) = w ∧ Pipeline.h (resize p w h) = h ∧
  Pipeline.edgeCache (resize p w h) = Pipeline.edgeCache p ∧
  Pipeline.lutCache (resize p w h) = Pipeline.lutCache p ∧
  resize (resize p w h) w h = resize p w h ∧
  resize p (Pipeline.w p) (Pipeline.h p) = p ∧
  (Pipeline.w p ≠ w ∨ Pipeline.h p ≠ h →
   Pipeline.pixelCtx (resize p w h)
   = setCanvasSize (Z.max 32 ((w + 12) `div` 24)) (Z.max 32 ((h + 12) `div` 24))).
Proof.
  assert (Hsame : ∀ q, resize q (Pipeline.w q) (Pipeline.h q) = q).
  { intros q. unfold resize. by rewrite !Z.eqb_refl. }
  destruct (resize_dims p w h) as [Hw Hh].
  split; [exact Hw|]. split; [exact Hh|].
  split; [unfold resize; by destruct (_ && _)|].
  split; [unfold resize; by destruct (_ && _)|].
  split.
  { pose proof (Hsame (resize p w h)) as Hs. by rewrite Hw, Hh in Hs. }
  split; [apply Hsame|].
  intros Hne. unfold resize.
  destruct (Z.eqb_spec (Pipeline.w p) w), (Z.eqb_spec (Pipeline.h p) h);
    cbn [andb Pipeline.pixelCtx]; rewrite ?Math_round_div24; try reflexivity; tauto.
Qed.

(** ** [renderPixelate] *)




Section Pixelate.
Context `{Host}.


End Pixelate.


(** ** [drawMirrored] *)

Section MirrorState.
Context `{Host}.


(** X17: mirroring is an involution: drawing the mirrored frame of a canvas
    mirrored again gives the frame back, pixel by pixel. *)
Theorem drawMirrored_twice (ctx1 ctx2 : Ctx.t) (video : ImageData.t) (w h x y : Z) :
  DrawState.transform (Ctx.state ctx1) = identityTransform →
  DrawState.transform (Ctx.state ctx2) = identityTransform →
  ImageData.width (Ctx.canvas ctx1) = w → ImageData.height (Ctx.canvas ctx1) = h →
  ImageData.width (Ctx.canvas ctx2) = w → ImageData.height (Ctx.canvas ctx2) = h →
  ImageData.width video = w → ImageData.height video = h →
  (0 <= x < w)%Z → (0 <= y < h)%Z →
  pixel_at (Ctx.canvas (drawMirrored ctx2
              (Ctx.canvas (drawMirrored ctx1 video w h "none")) w h "none")) x y
  = pixel_at video x y.
Proof.
  intros Ht1 Ht2 Hw1 Hh1 Hw2 Hh2 Hvw Hvh Hx Hy.
  rewrite (drawMirrored_pixel ctx2 _ w h x y Ht2 Hw2 Hh2); [|exact Hw1|exact Hh1|exact Hx|exact Hy].
  rewrite (drawMirrored_pixel ctx1 video w h (w - 1 - x) y Ht1 Hw1 Hh1 Hvw Hvh);
    [|lia|exact Hy].
  f_equal. lia.
Qed.
End MirrorState.


Lemma drawMirrored_twice_witness :
  pixel_at (Ctx.canvas (@drawMirrored exampleHost canvas21
              (Ctx.canvas (@drawMirrored exampleHost canvas21 twoPixels 2 1 "none"))
              2 1 "none")) 1 0
  = pixel_at twoPixels 1 0.
Proof.
  apply (@drawMirrored_twice exampleHost canvas21 canvas21 twoPixels 2 1 1 0);
    first [reflexivity | split; discriminate | lia].
Defined.

(** ** The dispatcher across the snapshots of filters.js *)

Section Dispatch.
Context `{Host}.

(** X18: the rewrite of [apply] from a [switch] on the key to a lookup in
    [FilterList] kept its behaviour: on the first list of filters the
    table-driven dispatcher does, for every key, every pipeline and every
    frame, what the [switch] of the first snapshot did; the last [apply] is
    this dispatcher on the last list. *)
Theorem apply_switch_agrees (p : Pipeline.t) (offCtx : Ctx.t) (video : ImageData.t)
    (filterKey : string) (now : Q) :
  apply_v1 p offCtx video filterKey now
  = applyWith FilterList_v1 p offCtx video filterKey now ∧
  apply p offCtx video filterKey now
  = applyWith FilterList p offCtx video filterKey now.
Proof.
  split; [|reflexivity].
  unfold apply_v1, applyWith.
  destruct ((Pipeline.w p =? 0)%Z || (Pipeline.h p =? 0)%Z); [reflexivity|].
  unfold FilterList_v1. cbn [find meta_key].
  rewrite !(String.eqb_sym _ filterKey).
  destruct (String.eqb filterKey "normal"); [reflexivity|].
  destruct (String.eqb filterKey "grayscale"); [reflexivity|].
  destruct (String.eqb filterKey "sepia"); [reflexivity|].
  destruct (String.eqb filterKey "invert"); [reflexivity|].
  destruct (String.eqb filterKey "hue"); [reflexivity|].
  destruct (String.eqb filterKey "blur"); [reflexivity|].
  destruct (String.eqb filterKey "pixelate"); [reflexivity|].
  destruct (String.eqb filterKey "edge"); reflexivity.
Qed.
End Dispatch.

(** ** The handler of the hand-tracking results *)

(** A loop that overwrites a variable at every index that [hit] selects
    leaves the value read at the last such index. *)
Lemma last_hit_fold {A : Type} (hit : Z → bool) (read : Z → option A) (n : nat) (v : A) :
  fold_left (λ acc i, if hit i then read i else acc) (seqZ 0 (Z.of_nat n)) None = Some v ↔
  ∃ i, (0 <= i < Z.of_nat n)%Z ∧ hit i = true ∧ read i = Some v ∧
       ∀ j, (i < j < Z.of_nat n)%Z → hit j = false.
Proof.
  revert v. induction n as [|n IH]; intros v.
  - cbn. split; [discriminate|]. intros (i & Hi & _). lia.
  - rewrite seqZ_S, fold_left_app, Z.add_0_l. cbn [fold_left].
    destruct (hit (Z.of_nat n)) eqn:Hn.
    + split.
      * intros Hv. exists (Z.of_nat n).
        split; [lia|]. split; [exact Hn|]. split; [exact Hv|]. intros j Hj. lia.
      * intros (i & Hi & Hh & Hr & Hlast).
        destruct (Z.eq_dec i (Z.of_nat n)) as [->|Hne]; [exact Hr|].
        rewrite Hlast in Hn by lia. discriminate.
    + rewrite IH. split.
      * intros (i & Hi & Hh & Hr & Hlast). exists i.
        split; [lia|]. split; [exact Hh|]. split; [exact Hr|].
        intros j Hj. destruct (Z.eq_dec j (Z.of_nat n)) as [->|Hne]; [exact Hn|].
        apply Hlast. lia.
      * intros (i & Hi & Hh & Hr & Hlast).
        assert (i ≠ Z.of_nat n) by congruence.
        exists i. split; [lia|]. split; [exact Hh|]. split; [exact Hr|].
        intros j Hj. apply Hlast. lia.
Qed.

Lemma handsByLabel_folds (multi : list (list Point)) (handed : list (option string))
    (xs : list Z) (l r : option (list Point)) :
  fold_left (λ acc i, (λ '(leftLm, rightLm),
      if String.eqb (labelAt handed i) "left" then (arr_get multi i, rightLm)
      else if String.eqb (labelAt handed i) "right" then (leftLm, arr_get multi i)
      else (leftLm, rightLm)) acc) xs (l, r)
  = (fold_left (λ acc i, if String.eqb (labelAt handed i) "left"
                         then arr_get multi i else acc) xs l,
     fold_left (λ acc i, if String.eqb (labelAt handed i) "right"
                         then arr_get multi i else acc) xs r).
Proof.
  revert l r. induction xs as [|x xs IH]; intros l r; [reflexivity|].
  cbn [fold_left].
  destruct (String.eqb (labelAt handed x) "left") eqn:El.
  - apply String.eqb_eq in El. rewrite El. cbn. apply IH.
  - destruct (String.eqb (labelAt handed x) "right"); apply IH.
Qed.

(** X19: the loop of [onHandsResults] keeps, for each of the two labels,
    the last hand whose label, in lower case, is that label; a hand without
    a label, or with another label, is skipped. *)
Theorem handsByLabel_last (multi : list (list Point)) (handed : list (option string))
    (lm : list Point) :
  ((handsByLabel multi handed).1 = Some lm ↔
   ∃ i, (0 <= i < Z.of_nat (length multi))%Z ∧ labelAt handed i = "left" ∧
        arr_get multi i = Some lm ∧
        ∀ j, (i < j < Z.of_nat (length multi))%Z → labelAt handed j ≠ "left") ∧
  ((handsByLabel multi handed).2 = Some lm ↔
   ∃ i, (0 <= i < Z.of_nat (length multi))%Z ∧ labelAt handed i = "right" ∧
        arr_get multi i = Some lm ∧
        ∀ j, (i < j < Z.of_nat (length multi))%Z → labelAt handed j ≠ "right").
Proof.
  unfold handsByLabel, for_range. rewrite Z.sub_0_r, handsByLabel_folds. cbn [fst snd].
  split.
  - rewrite (last_hit_fold (λ i, String.eqb (labelAt handed i) "left")).
    split; intros (i & Hi & Hh & Hr & Hlast); exists i.
    + apply String.eqb_eq in Hh.
      split; [lia|]. split; [exact Hh|]. split; [exact Hr|].
      intros j Hj. apply String.eqb_neq, Hlast, Hj.
    + split; [lia|]. split; [by apply String.eqb_eq|]. split; [exact Hr|].
      intros j Hj. apply String.eqb_neq, Hlast, Hj.
  - rewrite (last_hit_fold (λ i, String.eqb (labelAt handed i) "right")).
    split; intros (i & Hi & Hh & Hr & Hlast); exists i.
    + apply String.eqb_eq in Hh.
      split; [lia|]. split; [exact Hh|]. split; [exact Hr|].
      intros j Hj. apply String.eqb_neq, Hlast, Hj.
    + split; [lia|]. split; [by apply String.eqb_eq|]. split; [exact Hr|].
      intros j Hj. apply String.eqb_neq, Hlast, Hj.
Qed.

Section HandsProofs.
Context `{Host}.

(** X20: what a call of [onHandsResults] does to the state.  It records
    the results, also when [palmCenter] throws; it keeps the filter index
    within [FilterList] and the coefficients of the smoothers; unless a left
    and a right hand are both found, it returns with both smoothers reset
    and the index and the clap detector untouched; and the index changes only
    to the next filter, on a call where both hands are found and the detector,
    which was outside its clap zone, enters it and starts a cooldown. *)
Theorem onHandsResults_index (st : App.t) (results : HandsResults)
    (videoWidth videoHeight offW offH : Z) (now : Q) :
  (0 <= App.filterIndex st < Z.of_nat (length FilterList))%Z →
  App.handsResults
    (outcomeState (onHandsResults st results videoWidth videoHeight offW offH now))
  = Some results ∧
  (0 <= App.filterIndex
          (outcomeState (onHandsResults st results videoWidth videoHeight offW offH now))
     < Z.of_nat (length FilterList))%Z ∧
  Smoother.alpha (App.leftSmoother
    (outcomeState (onHandsResults st results videoWidth videoHeight offW offH now)))
  = Smoother.alpha (App.leftSmoother st) ∧
  Smoother.alpha (App.rightSmoother
    (outcomeState (onHandsResults st results videoWidth videoHeight offW offH now)))
  = Smoother.alpha (App.rightSmoother st) ∧
  ((handsByLabel (default [] (multiHandLandmarks results))
      (default [] (multiHandedness results))).1 = None ∨
   (handsByLabel (default [] (multiHandLandmarks results))
      (default [] (multiHandedness results))).2 = None →
   onHandsResults st results videoWidth videoHeight offW offH now
   = Returned {| App.filterIndex := App.filterIndex st;
                 App.handsResults := Some results;
                 App.leftSmoother := reset (App.leftSmoother st);
                 App.rightSmoother := reset (App.rightSmoother st);
                 App.clapDetector := App.clapDetector st |}) ∧
  (App.filterIndex
     (outcomeState (onHandsResults st results videoWidth videoHeight offW offH now))
   ≠ App.filterIndex st →
   App.filterIndex
     (outcomeState (onHandsResults st results videoWidth videoHeight offW offH now))
   = nextFilter (App.filterIndex st) ∧
   is_Some (handsByLabel (default [] (multiHandLandmarks results))
              (default [] (multiHandedness results))).1 ∧
   is_Some (handsByLabel (default [] (multiHandLandmarks results))
              (default [] (multiHandedness results))).2 ∧
   Clap.inClapZone (App.clapDetector st) = false ∧
   Clap.inClapZone (App.clapDetector
     (outcomeState (onHandsResults st results videoWidth videoHeight offW offH now)))
   = true ∧
   Clap.cooldownUntil (App.clapDetector
     (outcomeState (onHandsResults st results videoWidth videoHeight offW offH now)))
   = now + cooldownMs).
Proof.
  intros Hidx. unfold onHandsResults.
  assert (Hlost : ∀ o,
    o = Returned {| App.filterIndex := App.filterIndex st;
                    App.handsResults := Some results;
                    App.leftSmoother := reset (App.leftSmoother st);
                    App.rightSmoother := reset (App.rightSmoother st);
                    App.clapDetector := App.clapDetector st |} ∨
    o = Threw {| App.filterIndex := App.filterIndex st;
                 App.handsResults := Some results;
                 App.leftSmoother := App.leftSmoother st;
                 App.rightSmoother := App.rightSmoother st;
                 App.clapDetector := App.clapDetector st |} →
    App.handsResults (outcomeState o) = Some results ∧
    (0 <= App.filterIndex (outcomeState o) < Z.of_nat (length FilterList))%Z ∧
    Smoother.alpha (App.leftSmoother (outcomeState o))
    = Smoother.alpha (App.leftSmoother st) ∧
    Smoother.alpha (App.rightSmoother (outcomeState o))
    = Smoother.alpha (App.rightSmoother st) ∧
    App.filterIndex (outcomeState o) = App.filterIndex st).
  { intros o [->| ->]; cbn; repeat split; apply Hidx. }
  destruct (handsByLabel _ _) as [[leftLm|] [rightLm|]]; cbn [fst snd].
  2,3,4: destruct (Hlost _ (or_introl eq_refl)) as (H1 & H2 & H3 & H4 & H5);
    (split; [exact H1|]); (split; [exact H2|]); (split; [exact H3|]);
    (split; [exact H4|]); (split; [reflexivity|]); intros Hne; contradiction.
  destruct (palmCenter leftLm) as [lC|], (palmCenter rightLm) as [rC|].
  2,3,4: destruct (Hlost _ (or_intror eq_refl)) as (H1 & H2 & H3 & H4 & H5);
    (split; [exact H1|]); (split; [exact H2|]); (split; [exact H3|]);
    (split; [exact H4|]); (split; [by intros [?|?]|]); intros Hne; contradiction.
  clear Hlost.
  cbn [App.leftSmoother App.rightSmoother App.clapDetector App.filterIndex
       App.handsResults].
  pose proof (push_state (App.leftSmoother st) lC.1 lC.2) as [_ Hal].
  pose proof (push_state (App.rightSmoother st) rC.1 rC.2) as [_ Har].
  destruct (push (App.leftSmoother st) lC.1 lC.2) as [ls leftS].
  destruct (push (App.rightSmoother st) rC.1 rC.2) as [rs rightS].
  cbn [snd] in Hal, Har.
  match goal with |- context [update ?s ?d true now] =>
    pose proof (step_fires s (Build_Call d true now)) as Hfire;
    change (step s (Build_Call d true now)) with (update s d true now) in Hfire;
    destruct (update s d true now) as [fired clap]
  end.
  cbn [fst snd] in Hfire.
  cbn [outcomeState App.handsResults App.filterIndex App.leftSmoother
       App.rightSmoother App.clapDetector].
  split; [reflexivity|]. split.
  { destruct fired; [|exact Hidx]. apply nextIndex_range. exact Hidx. }
  split; [exact Hal|]. split; [exact Har|].
  split; [by intros [?|?]|].
  intros Hne. destruct fired; [|congruence].
  destruct (Hfire eq_refl) as (Hz & Hc & Hz0).
  split; [reflexivity|]. split; [by eexists|]. split; [by eexists|].
  split; [exact Hz0|]. split; [exact Hz|exact Hc].
Qed.
End HandsProofs.

Lemma onHandsResults_index_witness :
  App.handsResults
    (outcomeState (@onHandsResults exampleHost newApp twoHands 640 480 640 480 0))
  = Some twoHands ∧
  (0 <= App.filterIndex
          (outcomeState (@onHandsResults exampleHost newApp twoHands 640 480 640 480 0))
     < Z.of_nat (length (@FilterList exampleHost)))%Z ∧
  Smoother.alpha (App.leftSmoother
    (outcomeState (@onHandsResults exampleHost newApp twoHands 640 480 640 480 0)))
  = Smoother.alpha (App.leftSmoother newApp) ∧
  Smoother.alpha (App.rightSmoother
    (outcomeState (@onHandsResults exampleHost newApp twoHands 640 480 640 480 0)))
  = Smoother.alpha (App.rightSmoother newApp) ∧
  ((handsByLabel (default [] (multiHandLandmarks twoHands))
      (default [] (multiHandedness twoHands))).1 = None ∨
   (handsByLabel (default [] (multiHandLandmarks twoHands))
      (default [] (multiHandedness twoHands))).2 = None →
   @onHandsResults exampleHost newApp twoHands 640 480 640 480 0
   = Returned {| App.filterIndex := App.filterIndex newApp;
                 App.handsResults := Some twoHands;
                 App.leftSmoother := reset (App.leftSmoother newApp);
                 App.rightSmoother := reset (App.rightSmoother newApp);
                 App.clapDetector := App.clapDetector newApp |}) ∧
  (App.filterIndex
     (outcomeState (@onHandsResults exampleHost newApp twoHands 640 480 640 480 0))
   ≠ App.filterIndex newApp →
   App.filterIndex
     (outcomeState (@onHandsResults exampleHost newApp twoHands 640 480 640 480 0))
   = @nextFilter exampleHost (App.filterIndex newApp) ∧
   is_Some (handsByLabel (default [] (multiHandLandmarks twoHands))
              (default [] (multiHandedness twoHands))).1 ∧
   is_Some (handsByLabel (default [] (multiHandLandmarks twoHands))
              (default [] (multiHandedness twoHands))).2 ∧
   Clap.inClapZone (App.clapDetector newApp) = false ∧
   Clap.inClapZone (App.clapDetector
     (outcomeState (@onHandsResults exampleHost newApp twoHands 640 480 640 480 0)))
   = true ∧
   Clap.cooldownUntil (App.clapDetector
     (outcomeState (@onHandsResults exampleHost newApp twoHands 640 480 640 480 0)))
   = 0 + cooldownMs).
Proof.
  apply (@onHandsResults_index exampleHost newApp twoHands 640 480 640 480 0).
  split; [discriminate|reflexivity].
Defined.

(** ** The ranges of the colour conversions *)

Lemma hue2rgb_between (p q t : Q) :
  p <= q → -1 <= t <= 2 → p <= hue2rgb p q t <= q.
Proof.
  intros Hpq Ht. unfold hue2rgb, Qgtb. cmp; split; nra.
Qed.

Lemma hslToRgb_in01 (h s l : Q) :
  0 <= h <= 1 → 0 <= s <= 1 → 0 <= l <= 1 → RGB_in01 (hslToRgb h s l).
Proof.
  intros Hh Hs Hl. unfold hslToRgb.
  destruct (Qeq_bool s 0); [repeat split; cbn; lra|].
  pose proof third as H3.
  set (q := if Qltb l 0.5 then l * (1 + s) else l + s - l * s).
  assert (Hq : 0 <= 2 * l - q ∧ 2 * l - q <= q ∧ q <= 1).
  { unfold q. destruct (Qltb_spec l 0.5); repeat split; nra. }
  clearbody q. destruct Hq as (Hp0 & Hpq & Hq1).
  unfold RGB_in01, ch0, ch1, ch2. cbn [fst snd].
  pose proof (hue2rgb_between (2 * l - q) q (h + 1 / 3) Hpq ltac:(lra)).
  pose proof (hue2rgb_between (2 * l - q) q h Hpq ltac:(lra)).
  pose proof (hue2rgb_between (2 * l - q) q (h - 1 / 3) Hpq ltac:(lra)).
  repeat split; lra.
Qed.

Lemma rgbToHsl_range (r g b : Q) :
  0 <= r <= 1 → 0 <= g <= 1 → 0 <= b <= 1 →
  0 <= ch0 (rgbToHsl r g b) < 1 ∧ 0 <= ch1 (rgbToHsl r g b) <= 1 ∧
  0 <= ch2 (rgbToHsl r g b) <= 1.
Proof.
  intros Hr Hg Hb.
  destruct (Math_max3_spec r g b) as (HMr & HMg & HMb & HMis).
  destruct (Math_min3_spec r g b) as (Hmr & Hmg & Hmb & Hmis).
  unfold rgbToHsl.
  set (M := Math_max3 r g b) in *. set (m := Math_min3 r g b) in *.
  assert (HMis' : M == r ∨ M == g ∨ M == b)
    by (destruct HMis as [-> | [-> | ->]]; auto using Qeq_refl).
  assert (Hmis' : m == r ∨ m == g ∨ m == b)
    by (destruct Hmis as [-> | [-> | ->]]; auto using Qeq_refl).
  clear HMis Hmis. clearbody M m.
  assert (HM1 : M <= 1) by (destruct HMis' as [-> | [-> | ->]]; lra).
  assert (Hm0 : 0 <= m) by (destruct Hmis' as [-> | [-> | ->]]; lra).
  assert (Hl : (M + m) / 2 * 2 == M + m) by field.
  cbv zeta. unfold ch0, ch1, ch2.
  destruct (Qeq_bool M m) eqn:Hgrey; cbn [fst snd].
  { repeat split; lra. }
  apply Qeq_bool_neq in Hgrey.
  assert (Hd : 0 < M - m) by lra.
  split; [|split; [|split; lra]].
  - (* the hue *)
    assert (Hsix : ∀ x, 0 <= x → x < 6 → 0 <= x / 6 < 1).
    { intros x H0 H6. assert (x / 6 * 6 == x) by field. split; lra. }
    destruct (Qeq_bool M r) eqn:HeqR;
      [apply Qeq_bool_iff in HeqR | apply Qeq_bool_neq in HeqR].
    + assert (Hq : (g - b) / (M - m) * (M - m) == g - b) by (field; lra).
      destruct (Qltb_spec g b); apply Hsix; nra.
    + destruct (Qeq_bool M g) eqn:HeqG;
        [apply Qeq_bool_iff in HeqG | apply Qeq_bool_neq in HeqG].
      * assert (Hq : (b - r) / (M - m) * (M - m) == b - r) by (field; lra).
        apply Hsix; nra.
      * assert (HeqB : M == b) by (destruct HMis' as [? | [? | ?]]; done).
        apply Qeq_bool_iff in HeqB as HeqB'. rewrite HeqB'.
        assert (Hq : (r - g) / (M - m) * (M - m) == r - g) by (field; lra).
        apply Hsix; nra.
  - (* the saturation *)
    unfold Qgtb. destruct (Qltb_spec 0.5 ((M + m) / 2)).
    + assert (Hq : (M - m) / (2 - M - m) * (2 - M - m) == M - m) by (field; lra).
      split; nra.
    + assert (Hq : (M - m) / (M - m) == 1) by (field; lra). lra.
Qed.

(** X21: the two colour conversions stay in range: [rgbToHsl] maps the
    unit cube to a hue of [0, 1), a saturation and a lightness of [0, 1];
    [hslToRgb] maps a hue, a saturation and a lightness of [0, 1] into the
    unit cube. *)
Theorem hsl_conversions_in_range (r g b h s l : Q) :
  0 <= r <= 1 → 0 <= g <= 1 → 0 <= b <= 1 →
  0 <= h <= 1 → 0 <= s <= 1 → 0 <= l <= 1 →
  (0 <= ch0 (rgbToHsl r g b) < 1 ∧ 0 <= ch1 (rgbToHsl r g b) <= 1 ∧
   0 <= ch2 (rgbToHsl r g b) <= 1) ∧
  RGB_in01 (hslToRgb h s l).
Proof.
  intros Hr Hg Hb Hh Hs Hl. split; [by apply rgbToHsl_range | by apply hslToRgb_in01].
Qed.

Lemma hsl_conversions_in_range_witness :
  (0 <= ch0 (rgbToHsl 0.5 0.25 0.75) < 1 ∧ 0 <= ch1 (rgbToHsl 0.5 0.25 0.75) <= 1 ∧
   0 <= ch2 (rgbToHsl 0.5 0.25 0.75) <= 1) ∧
  RGB_in01 (hslToRgb 0.9 1 0.3).
Proof.
  apply (hsl_conversions_in_range 0.5 0.25 0.75 0.9 1 0.3); split; discriminate.
Defined.

Section LooksGamut.
Context `{Host}.


End LooksGamut.

(** ** Where the round trip through HSL is exact *)

(** The hue that [rgbToHsl] computes puts the three channels back, from any
    [p] and [q] that are the minimum and the maximum. *)
Lemma hue_sectors (r g b M m p q : Q) :
  m <= r <= M → m <= g <= M → m <= b <= M →
  M == r ∨ M == g ∨ M == b → m == r ∨ m == g ∨ m == b →
  m < M → p == m → q == M →
  let h :=
    (if Qeq_bool M r then (g - b) / (M - m) + (if Qltb g b then 6 else 0)
     else if Qeq_bool M g then (b - r) / (M - m) + 2
     else if Qeq_bool M b then (r - g) / (M - m) + 4
     else 0) / 6 in
  hue2rgb p q (h + 1 / 3) == r ∧ hue2rgb p q h == g ∧ hue2rgb p q (h - 1 / 3) == b.
Proof.
  intros Hr Hg Hb HMis Hmis Hd Hp Hq. cbv zeta.
  destruct (Qeq_bool M r) eqn:HeqR; [apply Qeq_bool_iff in HeqR | apply Qeq_bool_neq in HeqR].
  - destruct (Qltb_spec g b) as [Hgb | Hgb].
    + assert (Hmg : m == g) by (destruct Hmis as [? | [? | ?]]; lra).
      apply sector_red_down; try lra.
      rewrite <- HeqR, <- Hmg. field. lra.
    + assert (Hmb : m == b) by (destruct Hmis as [? | [? | ?]]; lra).
      apply sector_red_up; try lra.
      rewrite <- HeqR, <- Hmb. field. lra.
  - destruct (Qeq_bool M g) eqn:HeqG;
      [apply Qeq_bool_iff in HeqG | apply Qeq_bool_neq in HeqG].
    + destruct (Qlt_le_dec b r) as [Hbr | Hbr].
      * assert (Hmb : m == b) by (destruct Hmis as [? | [? | ?]]; lra).
        apply sector_green_down; try lra.
        rewrite <- HeqG, <- Hmb. field. lra.
      * assert (Hmr : m == r) by (destruct Hmis as [? | [? | ?]]; lra).
        apply sector_green_up; try lra.
        rewrite <- HeqG, <- Hmr. field. lra.
    + assert (HeqB : M == b) by (destruct HMis as [? | [? | ?]]; done).
      apply Qeq_bool_iff in HeqB as HeqB'. rewrite HeqB'.
      destruct (Qlt_le_dec r g) as [Hrg | Hrg].
      * assert (Hmr : m == r) by (destruct Hmis as [? | [? | ?]]; lra).
        apply sector_blue_down; try lra.
        rewrite <- HeqB, <- Hmr. field. lra.
      * assert (Hmg : m == g) by (destruct Hmis as [? | [? | ?]]; lra).
        apply sector_blue_up; try lra.
        rewrite <- HeqB, <- Hmg. field. lra.
Qed.

(** X23: the conversion to HSL and back gives the colour back on three
    parts of the unit cube: the greys, the colours of lightness above one
    half, and the colours with a channel equal to 0 (for which the saturation
    that the lower branch of [rgbToHsl] computes, always 1, is right). *)
Theorem hsl_round_trip_where_exact (r g b : Q) :
  0 <= r <= 1 → 0 <= g <= 1 → 0 <= b <= 1 →
  Math_max3 r g b == Math_min3 r g b ∨ 1 < Math_max3 r g b + Math_min3 r g b ∨
  Math_min3 r g b == 0 →
  let '(h, s, l) := rgbToHsl r g b in RGB_eq (hslToRgb h s l) (r, g, b).
Proof.
  intros Hr Hg Hb Hcase.
  destruct (Qeq_dec (Math_max3 r g b) (Math_min3 r g b)) as [Hgrey|Hchroma].
  { (* a grey *)
    destruct (Math_max3_spec r g b) as (HMr & HMg & HMb & _).
    destruct (Math_min3_spec r g b) as (Hmr & Hmg & Hmb & _).
    unfold rgbToHsl. cbv zeta.
    apply Qeq_bool_iff in Hgrey as Hgrey'. rewrite Hgrey'.
    unfold hslToRgb. change (Qeq_bool 0 0) with true. cbv iota.
    assert (Hl : (Math_max3 r g b + Math_min3 r g b) / 2 * 2
                 == Math_max3 r g b + Math_min3 r g b) by field.
    unfold RGB_eq, ch0, ch1, ch2. cbn [fst snd]. repeat split; lra. }
  destruct (Qlt_le_dec 1 (Math_max3 r g b + Math_min3 r g b)) as [Hlight|Hdark].
  { by apply hsl_round_trip_above_half. }
  assert (Hm0 : Math_min3 r g b == 0) by (destruct Hcase as [?|[?|?]]; [done|lra|done]).
  clear Hcase.
  destruct (Math_max3_spec r g b) as (HMr & HMg & HMb & HMis).
  destruct (Math_min3_spec r g b) as (Hmr & Hmg & Hmb & Hmis).
  unfold rgbToHsl.
  set (M := Math_max3 r g b) in *. set (m := Math_min3 r g b) in *.
  assert (HMis' : M == r ∨ M == g ∨ M == b)
    by (destruct HMis as [-> | [-> | ->]]; auto using Qeq_refl).
  assert (Hmis' : m == r ∨ m == g ∨ m == b)
    by (destruct Hmis as [-> | [-> | ->]]; auto using Qeq_refl).
  clear HMis Hmis. clearbody M m.
  assert (Hd : 0 < M - m) by lra.
  cbv zeta.
  destruct (Qeq_bool M m) eqn:Hachroma; [by apply Qeq_bool_iff in Hachroma|].
  assert (Hl : (M + m) / 2 * 2 == M + m) by field.
  assert (Hs : (M - m) / (M - m) == 1) by (field; lra).
  unfold Qgtb. destruct (Qltb_spec 0.5 ((M + m) / 2)); [lra|].
  set (l := (M + m) / 2) in *. set (s := (M - m) / (M - m)) in *.
  assert (Hs0 : Qeq_bool s 0 = false).
  { destruct (Qeq_bool s 0) eqn:Hz; [|done]. apply Qeq_bool_iff in Hz. lra. }
  unfold hslToRgb. rewrite Hs0.
  match goal with |- RGB_eq (hue2rgb ?p ?q _, _, _) _ =>
    assert (Hq : q == M) by (destruct (Qltb_spec l 0.5); nra);
    assert (Hp : p == m) by (destruct (Qltb_spec l 0.5); nra);
    exact (hue_sectors r g b M m p q ltac:(lra) ltac:(lra) ltac:(lra)
             HMis' Hmis' ltac:(lra) Hp Hq)
  end.
Qed.

Lemma hsl_round_trip_where_exact_witness :
  let '(h, s, l) := rgbToHsl 0.4 0 0.2 in RGB_eq (hslToRgb h s l) (0.4, 0, 0.2).
Proof.
  apply (hsl_round_trip_where_exact 0.4 0 0.2); try (split; discriminate).
  right. right. reflexivity.
Defined.

(** ** Luma and the contrast curve *)

(** X24: [luma] is a weighted mean, its weights add up to 1: it lies
    between the least and the greatest channel, and the grey level that the
    first loop of [sobelEdge] stores for a pixel is the luma of its bytes. *)
Theorem luma_weighted_mean (r g b : Q) :
  Math_min3 r g b <= luma r g b <= Math_max3 r g b ∧
  (∀ (src : list Z) (w h i rr gg bb : Z),
     (0 <= i < w * h)%Z →
     arr_get src (4 * i) = Some rr → arr_get src (4 * i + 1) = Some gg →
     arr_get src (4 * i + 2) = Some bb →
     gray_at (grayLoop src w h) i
     = Some (luma (inject_Z rr) (inject_Z gg) (inject_Z bb))).
Proof.
  split.
  - destruct (Math_max3_spec r g b) as (HMr & HMg & HMb & _).
    destruct (Math_min3_spec r g b) as (Hmr & Hmg & Hmb & _).
    unfold luma. split; lra.
  - intros src w h i rr gg bb Hi Hr Hg Hb.
    rewrite gray_at_grayLoop by exact Hi.
    unfold grayVal. rewrite Hr, Hg, Hb. reflexivity.
Qed.

(** X25: the contrast curve [sCurve] with a parameter [c] of at least -1
    returns a value of [0, 1], does not decrease when its argument grows,
    keeps the middle grey 0.5, is the identity on [0, 1] for [c] = 0, and for
    a positive [c] moves a value of the upper half further up. *)
Theorem sCurve_spec (x x' c : Q) :
  -1 <= c → x <= x' →
  in01 (sCurve x c) ∧ sCurve x c <= sCurve x' c ∧ sCurve 0.5 c == 0.5 ∧
  (c == 0 → in01 x → sCurve x c == x) ∧
  (0 <= c → 0.5 <= x <= 1 → x <= sCurve x c).
Proof.
  intros Hc Hx. unfold sCurve, clamp01, Qgtb, in01. cbv zeta.
  assert (H5 : 0.5 == 1 # 2) by reflexivity.
  split; [cmp; lra|]. split; [cmp; try lra; nra|]. split; [cmp; try lra; nra|].
  split.
  - intros Hc0 Hx01. cmp; try lra; nra.
  - intros Hc0 Hx01. cmp; try lra; nra.
Qed.

Lemma sCurve_spec_witness :
  in01 (sCurve 0.6 0.25) ∧ sCurve 0.6 0.25 <= sCurve 0.7 0.25 ∧
  sCurve 0.5 0.25 == 0.5 ∧
  (0.25 == 0 → in01 0.6 → sCurve 0.6 0.25 == 0.6) ∧
  (0 <= 0.25 → 0.5 <= 0.6 <= 1 → 0.6 <= sCurve 0.6 0.25).
Proof. apply (sCurve_spec 0.6 0.7 0.25); discriminate. Defined.

(** ** A dwell that outlives the loss of a hand *)

Section HandLoss.
Context `{Host}.

Lemma update_dwell_start (st : Clap.t) (d t : Q) :
  Clap.belowSince st = None → Clap.inClapZone st = false →
  Clap.cooldownUntil st <= t → d < thresholdRel →
  update st d true t
  = (false, {| Clap.belowSince := Some t; Clap.cooldownUntil := Clap.cooldownUntil st;
               Clap.inClapZone := false |}).
Proof.
  intros Hb Hz Hc Hd. unfold update. cbn [negb]. rewrite Hb, Hz. cbn [negb andb].
  destruct (Qltb_spec t (Clap.cooldownUntil st)); [lra|].
  destruct (Qltb_spec d thresholdRel); [|lra].
  unfold Qgeb. destruct (Qltb_spec (t - t) minDurationMs) as [|Hge]; [reflexivity|].
  unfold minDurationMs in Hge. lra.
Qed.

Lemma update_dwell_end (st : Clap.t) (d t0 t : Q) :
  Clap.belowSince st = Some t0 → Clap.inClapZone st = false →
  Clap.cooldownUntil st <= t → d < thresholdRel → minDurationMs <= t - t0 →
  (update st d true t).1 = true.
Proof.
  intros Hb Hz Hc Hd Ht. unfold update. cbn [negb]. rewrite Hb, Hz. cbn [negb andb].
  destruct (Qltb_spec t (Clap.cooldownUntil st)); [lra|].
  destruct (Qltb_spec d thresholdRel); [|lra].
  unfold Qgeb. destruct (Qltb_spec (t - t0) minDurationMs); [lra|reflexivity].
Qed.

(** The distance that [onHandsResults] computes for two palms at the same
    place, on smoothers without a point. *)
Lemma same_palm_distance (sl sr : Smoother.t) (c : Point) (vw vh : Z) :
  (∀ q, q == 0 → Math_sqrt q == 0) →
  Smoother.pt sl = None → Smoother.pt sr = None →
  Math_sqrt (((push sl c.1 c.2).1.1 - (push sr c.1 c.2).1.1) * inject_Z vw
             * (((push sl c.1 c.2).1.1 - (push sr c.1 c.2).1.1) * inject_Z vw)
             + ((push sl c.1 c.2).1.2 - (push sr c.1 c.2).1.2) * inject_Z vh
               * (((push sl c.1 c.2).1.2 - (push sr c.1 c.2).1.2) * inject_Z vh))
  / inject_Z (Z.min vw vh) < thresholdRel.
Proof.
  intros Hsqrt Hl Hr. unfold push. rewrite Hl, Hr. cbn [fst snd].
  rewrite Hsqrt by ring.
  unfold Qdiv. rewrite Qmult_0_l. reflexivity.
Qed.

(** X26: the dwell of a clap is not reset when a hand is lost, because
    [onHandsResults] returns before it calls the detector.  With both palms at
    the same place at a time [t0], then a frame without the two hands, then
    both palms at the same place again at least [minDurationMs] after [t0]:
    the third call advances the filter, whatever happened in between and
    although the hands were seen together in two frames only. *)
Theorem dwell_survives_hand_loss (st : App.t) (both lost : HandsResults)
    (lmL lmR : list Point) (c : Point) (vw vh ow oh : Z) (t0 t1 t2 : Q) :
  (∀ q, q == 0 → Math_sqrt q == 0) →
  Clap.belowSince (App.clapDetector st) = None →
  Clap.inClapZone (App.clapDetector st) = false →
  Clap.cooldownUntil (App.clapDetector st) <= t0 →
  get (App.leftSmoother st) = None → get (App.rightSmoother st) = None →
  handsByLabel (default [] (multiHandLandmarks both)) (default [] (multiHandedness both))
  = (Some lmL, Some lmR) →
  palmCenter lmL = Some c → palmCenter lmR = Some c →
  (handsByLabel (default [] (multiHandLandmarks lost))
     (default [] (multiHandedness lost))).1 = None ∨
  (handsByLabel (default [] (multiHandLandmarks lost))
     (default [] (multiHandedness lost))).2 = None →
  minDurationMs <= t2 - t0 →
  App.filterIndex (outcomeState (onHandsResults st both vw vh ow oh t0))
  = App.filterIndex st ∧
  App.filterIndex
    (outcomeState (onHandsResults
       (outcomeState (onHandsResults st both vw vh ow oh t0)) lost vw vh ow oh t1))
  = App.filterIndex st ∧
  App.filterIndex
    (outcomeState (onHandsResults
       (outcomeState (onHandsResults
          (outcomeState (onHandsResults st both vw vh ow oh t0)) lost vw vh ow oh t1))
       both vw vh ow oh t2))
  = nextFilter (App.filterIndex st).
Proof.
  intros Hsqrt Hb Hz Hc Hsl Hsr Hboth HcL HcR Hlost Ht.
  (* the first call starts the dwell *)
  assert (E1 : ∃ sl sr,
    onHandsResults st both vw vh ow oh t0
    = Returned {| App.filterIndex := App.filterIndex st;
                  App.handsResults := Some both;
                  App.leftSmoother := sl; App.rightSmoother := sr;
                  App.clapDetector :=
                    {| Clap.belowSince := Some t0;
                       Clap.cooldownUntil := Clap.cooldownUntil (App.clapDetector st);
                       Clap.inClapZone := false |} |}).
  { unfold onHandsResults. rewrite Hboth, HcL, HcR.
    cbn [App.leftSmoother App.rightSmoother App.clapDetector App.filterIndex
         App.handsResults].
    pose proof (same_palm_distance (App.leftSmoother st) (App.rightSmoother st) c
                  (orElse vw (orElse ow 1)) (orElse vh (orElse oh 1)) Hsqrt Hsl Hsr) as Hd.
    destruct (push (App.leftSmoother st) c.1 c.2) as [ls leftS].
    destruct (push (App.rightSmoother st) c.1 c.2) as [rs rightS].
    cbn [fst snd] in Hd.
    rewrite (update_dwell_start _ _ t0 Hb Hz Hc Hd).
    exists leftS, rightS. reflexivity. }
  destruct E1 as (sl & sr & ->). cbn [outcomeState App.filterIndex].
  split; [reflexivity|].
  (* the second call resets the smoothers and leaves the detector alone *)
  assert (E2 : ∀ s, onHandsResults s lost vw vh ow oh t1
    = Returned {| App.filterIndex := App.filterIndex s;
                  App.handsResults := Some lost;
                  App.leftSmoother := reset (App.leftSmoother s);
                  App.rightSmoother := reset (App.rightSmoother s);
                  App.clapDetector := App.clapDetector s |}).
  { intros s. unfold onHandsResults.
    destruct (handsByLabel (default [] (multiHandLandmarks lost)) _) as [[l|] [r|]];
      cbn [fst snd] in Hlost;
      try reflexivity. destruct Hlost; discriminate. }
  rewrite E2. cbn [outcomeState App.filterIndex]. split; [reflexivity|].
  (* the third call completes the dwell that the first one started *)
  unfold onHandsResults. rewrite Hboth, HcL, HcR.
  cbn [App.leftSmoother App.rightSmoother App.clapDetector App.filterIndex
       App.handsResults].
  pose proof (same_palm_distance (reset sl) (reset sr) c
                (orElse vw (orElse ow 1)) (orElse vh (orElse oh 1)) Hsqrt
                eq_refl eq_refl) as Hd.
  destruct (push (reset sl) c.1 c.2) as [ls leftS].
  destruct (push (reset sr) c.1 c.2) as [rs rightS].
  cbn [fst snd] in Hd.
  match goal with |- context [update ?s ?d true t2] =>
    pose proof (update_dwell_end s d t0 t2 eq_refl eq_refl) as Hfire;
    destruct (update s d true t2) as [fired clap]
  end.
  cbn [fst Clap.cooldownUntil] in Hfire.
  rewrite Hfire; [reflexivity| |exact Hd|exact Ht].
  unfold minDurationMs in Ht. lra.
Qed.
End HandLoss.

Lemma dwell_survives_hand_loss_witness :
  App.filterIndex (outcomeState (@onHandsResults exampleHost newApp twoHands 640 480 0 0 0))
  = App.filterIndex newApp ∧
  App.filterIndex
    (outcomeState (@onHandsResults exampleHost
       (outcomeState (@onHandsResults exampleHost newApp twoHands 640 480 0 0 0))
       oneHand 640 480 0 0 5000))
  = App.filterIndex newApp ∧
  App.filterIndex
    (outcomeState (@onHandsResults exampleHost
       (outcomeState (@onHandsResults exampleHost
          (outcomeState (@onHandsResults exampleHost newApp twoHands 640 480 0 0 0))
          oneHand 640 480 0 0 5000))
       twoHands 640 480 0 0 10000))
  = @nextFilter exampleHost (App.filterIndex newApp).
Proof.
  apply (@dwell_survives_hand_loss exampleHost newApp twoHands oneHand palm18 palm18
           (default (0, 0) (palmCenter palm18)) 640 480 0 0 0 5000 10000);
    try reflexivity.
  - intros q Hq. cbn. rewrite Hq. reflexivity.
  - discriminate.
  - right. reflexivity.
  - discriminate.
Defined.

(** ** The draw loop *)

Lemma loopRun_cons s e es :
  loopRun s (e :: es) =
  ((loopStep s e).1 :: (loopRun (loopStep s e).2 es).1, (loopRun (loopStep s e).2 es).2).
Proof. cbn [loopRun]. destruct (loopStep s e), (loopRun _ es). reflexivity. Qed.

Lemma loopRun_app s l1 l2 :
  loopRun s (l1 ++ l2) =
  ((loopRun s l1).1 ++ (loopRun (loopRun s l1).2 l2).1, (loopRun (loopRun s l1).2 l2).2).
Proof.
  revert s. induction l1 as [|e l1 IH]; intros s.
  - cbn [app loopRun fst snd]. by destruct (loopRun s l2).
  - rewrite <- app_comm_cons, !loopRun_cons, IH. reflexivity.
Qed.

Lemma loopRun_length s es : length (loopRun s es).1 = length es.
Proof.
  revert s. induction es as [|e es IH]; intros s; [reflexivity|].
  rewrite loopRun_cons. cbn [fst length]. by rewrite IH.
Qed.

Lemma loopRun_lookup s es j e :
  es !! j = Some e →
  (loopRun s es).1 !! j = Some (loopStep (loopRun s (take j es)).2 e).1.
Proof.
  intros Hj. rewrite <- (take_drop_middle es j e Hj) at 1.
  assert (Hlen : length (take j es) = j).
  { rewrite length_take. apply lookup_lt_Some in Hj. lia. }
  rewrite loopRun_app. cbn [fst].
  rewrite lookup_app_r by (rewrite loopRun_length; lia).
  rewrite loopRun_length, Hlen, Nat.sub_diag, loopRun_cons. done.
Qed.

Lemma loopRun_take_S s es j e :
  es !! j = Some e →
  (loopRun s (take (S j) es)).2 = (loopStep (loopRun s (take j es)).2 e).2.
Proof.
  intros Hj. rewrite (take_S_r es j e Hj), loopRun_app.
  cbn [snd]. rewrite loopRun_cons. reflexivity.
Qed.

Lemma loopStep_sends s e :
  (loopStep s e).1 = true →
  ∃ now readyState, e = Drawn now readyState ∧ Loop.handsBusy s = false ∧
    Loop.lastHandsSend s + 33 < now ∧ (2 <= readyState)%Z ∧
    (loopStep s e).2 = {| Loop.handsBusy := true; Loop.lastHandsSend := now |}.
Proof.
  destruct e as [now rs|]; cbn [loopStep]; [|discriminate].
  destruct (Loop.handsBusy s); cbn [negb andb]; [discriminate|].
  unfold Qgtb. destruct (Qltb_spec 33 (now - Loop.lastHandsSend s)); cbn [andb];
    [|discriminate].
  destruct (Z.leb_spec 2 rs); [|discriminate].
  intros _. exists now, rs. repeat split; try done. lra.
Qed.

(** While no promise settles, a busy loop stays busy and sends nothing. *)
Lemma loopRun_busy s es :
  Loop.handsBusy s = true → Forall (λ e, e ≠ Settled) es →
  Loop.handsBusy (loopRun s es).2 = true ∧ Loop.lastHandsSend (loopRun s es).2
                                           = Loop.lastHandsSend s.
Proof.
  intros Hb Hes. revert s Hb. induction Hes as [|e es He _ IH]; intros s Hb; [done|].
  rewrite loopRun_cons. cbn [snd].
  assert (Hstep : loopStep s e = (false, s)).
  { destruct e as [now rs|]; [|done]. cbn [loopStep]. by rewrite Hb. }
  rewrite Hstep. cbn [snd]. by apply IH.
Qed.

Lemma loopStep_last_mono s e :
  Loop.lastHandsSend s <= Loop.lastHandsSend (loopStep s e).2.
Proof.
  destruct e as [now rs|]; cbn [loopStep]; [|cbn; lra].
  destruct (Loop.handsBusy s); cbn [negb andb snd]; [lra|].
  unfold Qgtb. destruct (Qltb_spec 33 (now - Loop.lastHandsSend s)); cbn [andb snd];
    [|lra].
  destruct (2 <=? rs)%Z; cbn [snd Loop.lastHandsSend]; lra.
Qed.

Lemma loopRun_last_mono s es :
  Loop.lastHandsSend s <= Loop.lastHandsSend (loopRun s es).2.
Proof.
  revert s. induction es as [|e es IH]; intros s; [cbn; lra|].
  rewrite loopRun_cons. cbn [snd].
  pose proof (loopStep_last_mono s e). pose proof (IH (loopStep s e).2). lra.
Qed.

(** X27: the draw loop throttles the hand tracker: [hands.send] is called
    only from a frame drawn with [readyState >= 2]; of two calls the later is
    made more than 33 ms after the earlier, and the promise of an earlier call
    has settled in between: no two sends are in flight together. *)
Theorem hands_send_throttled (s0 : Loop.t) (es : list LoopEvent) (i j : nat) :
  (i < j)%nat →
  (loopRun s0 es).1 !! i = Some true →
  (loopRun s0 es).1 !! j = Some true →
  ∃ ti ri tj rj, es !! i = Some (Drawn ti ri) ∧ es !! j = Some (Drawn tj rj) ∧
    (2 <= ri)%Z ∧ (2 <= rj)%Z ∧ ti + 33 < tj ∧
    ∃ k, (i < k < j)%nat ∧ es !! k = Some Settled.
Proof.
  intros Hij Hri Hrj.
  assert (Hi : is_Some (es !! i)).
  { apply lookup_lt_is_Some. rewrite <- (loopRun_length s0 es). by eapply lookup_lt_Some. }
  assert (Hj : is_Some (es !! j)).
  { apply lookup_lt_is_Some. rewrite <- (loopRun_length s0 es). by eapply lookup_lt_Some. }
  destruct Hi as [ei Hi], Hj as [ej Hj].
  rewrite (loopRun_lookup _ _ _ _ Hi) in Hri. injection Hri as Hfi.
  rewrite (loopRun_lookup _ _ _ _ Hj) in Hrj. injection Hrj as Hfj.
  destruct (loopStep_sends _ _ Hfi) as (ti & ri & -> & _ & _ & Hri & Hsi).
  destruct (loopStep_sends _ _ Hfj) as (tj & rj & -> & Hbj & Htj & Hrj & _).
  rewrite <- (loopRun_take_S _ _ _ _ Hi) in Hsi.
  assert (Hsplit : take j es = take (S i) es ++ drop (S i) (take j es)).
  { rewrite <- (take_drop (S i) (take j es)) at 1. f_equal.
    rewrite take_take. f_equal. lia. }
  rewrite Hsplit, loopRun_app in Hbj, Htj. cbn [snd] in Hbj, Htj.
  exists ti, ri, tj, rj. split; [exact Hi|]. split; [exact Hj|].
  split; [exact Hri|]. split; [exact Hrj|]. split.
  - pose proof (loopRun_last_mono (loopRun s0 (take (S i) es)).2
                  (drop (S i) (take j es))) as Hmono.
    rewrite Hsi in Hmono, Htj. cbn [Loop.lastHandsSend] in Hmono. lra.
  - assert (Hdec : ∀ e : LoopEvent, {e = Settled} + {e ≠ Settled})
      by (intros [|]; [right; discriminate | left; reflexivity]).
    destruct (List.Exists_dec (λ e, e = Settled) (drop (S i) (take j es)) Hdec)
      as [Hex|Hno].
    + apply Exists_exists in Hex as (e & Hin & ->).
      apply list_elem_of_lookup in Hin as [k Hk].
      rewrite lookup_drop in Hk.
      assert (Hlt : (S i + k < j)%nat).
      { apply lookup_lt_Some in Hk. rewrite length_take in Hk. lia. }
      rewrite lookup_take_lt in Hk by exact Hlt.
      exists (S i + k)%nat. split; [lia|exact Hk].
    + exfalso. apply List.Forall_Exists_neg in Hno.
      destruct (loopRun_busy (loopRun s0 (take (S i) es)).2 (drop (S i) (take j es)))
        as [Hbusy _].
      * by rewrite Hsi.
      * eapply Forall_impl; [exact Hno|]. intros e He. exact He.
      * congruence.
Qed.

Lemma hands_send_throttled_witness :
  ∃ ti ri tj rj,
    [Drawn 40 4; Drawn 56 4; Settled; Drawn 72 4; Drawn 88 4] !! 0%nat
    = Some (Drawn ti ri) ∧
    [Drawn 40 4; Drawn 56 4; Settled; Drawn 72 4; Drawn 88 4] !! 4%nat
    = Some (Drawn tj rj) ∧
    (2 <= ri)%Z ∧ (2 <= rj)%Z ∧ ti + 33 < tj ∧
    ∃ k, (0 < k < 4)%nat ∧
      [Drawn 40 4; Drawn 56 4; Settled; Drawn 72 4; Drawn 88 4] !! k = Some Settled.
Proof.
  apply (hands_send_throttled newLoop
           [Drawn 40 4; Drawn 56 4; Settled; Drawn 72 4; Drawn 88 4] 0 4).
  - lia.
  - reflexivity.
  - reflexivity.
Defined.

Section DrawSync.
Context `{Host}.

(** [apply] gives the offscreen context back with its drawing state and its
    size, and the pipeline with its dimensions. *)
Lemma apply_context (p : Pipeline.t) (cv : ImageData.t) (video : ImageData.t)
    (filterKey : string) (now : Q) :
  let r := apply p {| Ctx.canvas := cv; Ctx.state := initialDrawState; Ctx.stack := [] |}
             video filterKey now in
  Ctx.state r.1.2 = initialDrawState ∧ Ctx.stack r.1.2 = [] ∧
  ImageData.width (Ctx.canvas r.1.2) = ImageData.width cv ∧
  ImageData.height (Ctx.canvas r.1.2) = ImageData.height cv ∧
  Pipeline.w r.1.1 = Pipeline.w p ∧ Pipeline.h r.1.1 = Pipeline.h p.
Proof.
  cbv zeta. unfold apply.
  destruct ((Pipeline.w p =? 0)%Z || (Pipeline.h p =? 0)%Z) eqn:Hdim; [by repeat split|].
  assert (Hedge : ∀ r, r = renderEdge p
            {| Ctx.canvas := cv; Ctx.state := initialDrawState; Ctx.stack := [] |} video now →
    Ctx.state r.1.2 = initialDrawState ∧ Ctx.stack r.1.2 = [] ∧
    ImageData.width (Ctx.canvas r.1.2) = ImageData.width cv ∧
    ImageData.height (Ctx.canvas r.1.2) = ImageData.height cv ∧
    Pipeline.w r.1.1 = Pipeline.w p ∧ Pipeline.h r.1.1 = Pipeline.h p).
  { intros r ->. unfold renderEdge. rewrite Hdim.
    destruct (_ || negb _); [by repeat split|].
    cbn [EdgeCache.imageData].
    destruct (EdgeCache.imageData (Pipeline.edgeCache p)); by repeat split. }
  assert (Hpix : ∀ r, r = renderPixelate p
            {| Ctx.canvas := cv; Ctx.state := initialDrawState; Ctx.stack := [] |} video →
    Ctx.state r.1.2 = initialDrawState ∧ Ctx.stack r.1.2 = [] ∧
    ImageData.width (Ctx.canvas r.1.2) = ImageData.width cv ∧
    ImageData.height (Ctx.canvas r.1.2) = ImageData.height cv ∧
    Pipeline.w r.1.1 = Pipeline.w p ∧ Pipeline.h r.1.1 = Pipeline.h p).
  { intros r ->. unfold renderPixelate. rewrite Hdim. by repeat split. }
  destruct (find _ _) as [[k n v|k n v|k n mk st|k n|k n]|].
  - by repeat split.
  - by repeat split.
  - unfold renderLUT. rewrite Hdim. unfold getOrCreateLUT.
    destruct (Pipeline.lutCache p !! k); by repeat split.
  - by apply Hpix.
  - by apply Hedge.
  - destruct (String.eqb filterKey "pixelate"); [by apply Hpix|].
    destruct (String.eqb filterKey "edge"); [by apply Hedge|].
    by repeat split.
Qed.

(** X28: the draw loop keeps the pipeline and the offscreen canvas in
    step.  From a state that is in step, a frame leaves a state in step, with
    the offscreen canvas of the size of the video; when the size of the video
    is not that of the canvas, the pipeline gets the size of the video and the
    cover rectangle is computed anew; when it is, the pipeline keeps the
    dimensions it has.  So the pipeline of a new screen stays without
    dimensions, and [apply] draws nothing, for as long as the video is 300 by
    150, the size of a new canvas. *)
Theorem draw_keeps_in_sync (s s' : Screen.t) (filterIndex : Z) (video : ImageData.t)
    (canvasW canvasH : Z) (now : Q) (ev : list Event) :
  inSync s →
  drawFrame s filterIndex video canvasW canvasH now = Some (s', ev) →
  inSync s' ∧
  ImageData.width (Ctx.canvas (Screen.offscreen s')) = ImageData.width video ∧
  ImageData.height (Ctx.canvas (Screen.offscreen s')) = ImageData.height video ∧
  (ImageData.width (Ctx.canvas (Screen.offscreen s)) ≠ ImageData.width video ∨
   ImageData.height (Ctx.canvas (Screen.offscreen s)) ≠ ImageData.height video →
   Pipeline.w (Screen.pipeline s') = ImageData.width video ∧
   Pipeline.h (Screen.pipeline s') = ImageData.height video ∧
   Screen.coverRect s'
   = computeCoverRect (ImageData.width video) (ImageData.height video) canvasW canvasH) ∧
  (ImageData.width (Ctx.canvas (Screen.offscreen s)) = ImageData.width video ∧
   ImageData.height (Ctx.canvas (Screen.offscreen s)) = ImageData.height video →
   Pipeline.w (Screen.pipeline s') = Pipeline.w (Screen.pipeline s) ∧
   Pipeline.h (Screen.pipeline s') = Pipeline.h (Screen.pipeline s) ∧
   Screen.coverRect s' = Screen.coverRect s ∧
   (Pipeline.w (Screen.pipeline s) = 0%Z → s' = s ∧ ev = [])).
Proof.
  intros (Hst & Hstack & Hdims) Hdraw. unfold drawFrame in Hdraw.
  destruct s as [[cv st stack] p rect]. cbn [Screen.offscreen Screen.pipeline
    Screen.coverRect Ctx.canvas Ctx.state Ctx.stack] in *. subst st stack.
  destruct (arr_get FilterList filterIndex) as [meta|] eqn:Hmeta.
  2:{ destruct (_ || _) in Hdraw; discriminate. }
  destruct (Z.eqb_spec (ImageData.width cv) (ImageData.width video)) as [Ew|Ew];
    [destruct (Z.eqb_spec (ImageData.height cv) (ImageData.height video)) as [Eh|Eh]|];
    cbn [negb orb Screen.offscreen Screen.pipeline Screen.coverRect mbind option_bind]
      in Hdraw.
  - (* the offscreen canvas has the size of the video *)
    pose proof (apply_context p cv video (meta_key meta) now) as Hctx. cbv zeta in Hctx.
    destruct (apply p _ video (meta_key meta) now) as [[p' off'] ev'] eqn:Happ.
    cbn [fst snd] in Hctx. destruct Hctx as (H1 & H2 & H3 & H4 & H5 & H6).
    injection Hdraw as <- <-. unfold inSync.
    cbn [Screen.offscreen Screen.pipeline Screen.coverRect].
    split; [|split; [congruence|split; [congruence|split; [tauto|]]]].
    + split; [exact H1|]. split; [exact H2|]. rewrite H3, H4, H5, H6. exact Hdims.
    + intros _. split; [exact H5|]. split; [exact H6|]. split; [reflexivity|].
      intros Hw0. unfold apply in Happ. rewrite Hw0 in Happ.
      cbn [Z.eqb orb] in Happ. by injection Happ as <- <- <-.
  - (* another height *)
    pose proof (apply_context (resize p (ImageData.width video) (ImageData.height video))
                  (blank (ImageData.width video) (ImageData.height video)) video
                  (meta_key meta) now) as Hctx. cbv zeta in Hctx.
    destruct (resize_dims p (ImageData.width video) (ImageData.height video)) as [Hrw Hrh].
    unfold setCanvasSize in Hdraw. cbn [Ctx.canvas blank ImageData.width ImageData.height]
      in Hdraw. fold (blank (ImageData.width video) (ImageData.height video)) in Hdraw.
    destruct (apply _ _ video (meta_key meta) now) as [[p' off'] ev'].
    cbn [fst snd] in Hctx. destruct Hctx as (H1 & H2 & H3 & H4 & H5 & H6).
    injection Hdraw as <- <-. unfold inSync.
    cbn [Screen.offscreen Screen.pipeline Screen.coverRect].
    cbn [blank ImageData.width ImageData.height] in H3, H4.
    split; [|split; [exact H3|split; [exact H4|split; [|tauto]]]].
    + split; [exact H1|]. split; [exact H2|]. left. rewrite H3, H4, H5, H6. by split.
    + intros _. rewrite H5, H6. by repeat split.
  - (* another width *)
    pose proof (apply_context (resize p (ImageData.width video) (ImageData.height video))
                  (blank (ImageData.width video) (ImageData.height video)) video
                  (meta_key meta) now) as Hctx. cbv zeta in Hctx.
    destruct (resize_dims p (ImageData.width video) (ImageData.height video)) as [Hrw Hrh].
    unfold setCanvasSize in Hdraw. cbn [Ctx.canvas blank ImageData.width ImageData.height]
      in Hdraw. fold (blank (ImageData.width video) (ImageData.height video)) in Hdraw.
    destruct (apply _ _ video (meta_key meta) now) as [[p' off'] ev'].
    cbn [fst snd] in Hctx. destruct Hctx as (H1 & H2 & H3 & H4 & H5 & H6).
    injection Hdraw as <- <-. unfold inSync.
    cbn [Screen.offscreen Screen.pipeline Screen.coverRect].
    cbn [blank ImageData.width ImageData.height] in H3, H4.
    split; [|split; [exact H3|split; [exact H4|split; [|tauto]]]].
    + split; [exact H1|]. split; [exact H2|]. left. rewrite H3, H4, H5, H6. by split.
    + intros _. rewrite H5, H6. by repeat split.
Qed.
End DrawSync.

Lemma draw_keeps_in_sync_witness :
  inSync firstScreen ∧
  ImageData.width (Ctx.canvas (Screen.offscreen firstScreen)) = ImageData.width twoPixels ∧
  ImageData.height (Ctx.canvas (Screen.offscreen firstScreen))
  = ImageData.height twoPixels ∧
  (ImageData.width (Ctx.canvas (Screen.offscreen newScreen)) ≠ ImageData.width twoPixels ∨
   ImageData.height (Ctx.canvas (Screen.offscreen newScreen))
   ≠ ImageData.height twoPixels →
   Pipeline.w (Screen.pipeline firstScreen) = ImageData.width twoPixels ∧
   Pipeline.h (Screen.pipeline firstScreen) = ImageData.height twoPixels ∧
   Screen.coverRect firstScreen
   = computeCoverRect (ImageData.width twoPixels) (ImageData.height twoPixels) 800 600) ∧
  (ImageData.width (Ctx.canvas (Screen.offscreen newScreen)) = ImageData.width twoPixels ∧
   ImageData.height (Ctx.canvas (Screen.offscreen newScreen))
   = ImageData.height twoPixels →
   Pipeline.w (Screen.pipeline firstScreen) = Pipeline.w (Screen.pipeline newScreen) ∧
   Pipeline.h (Screen.pipeline firstScreen) = Pipeline.h (Screen.pipeline newScreen) ∧
   Screen.coverRect firstScreen = Screen.coverRect newScreen ∧
   (Pipeline.w (Screen.pipeline newScreen) = 0%Z → firstScreen = newScreen ∧ @nil Event = [])).
Proof.
  apply (@draw_keeps_in_sync exampleHost newScreen firstScreen 0 twoPixels 800 600 0 []).
  - split; [reflexivity|]. split; [reflexivity|]. right. split; reflexivity.
  - reflexivity.
Defined.

(** ** The overlay of the hand landmarks *)

Lemma fold_left_appends {A B : Type} (body : B → list A → list A) (g : B → list A)
    (xs : list B) (init : list A) :
  (∀ i cmds, body i cmds = cmds ++ g i) →
  fold_left (λ acc i, body i acc) xs init = init ++ mjoin (g <$> xs).
Proof.
  intros Hbody. revert init. induction xs as [|x xs IH]; intros init.
  - cbn. by rewrite app_nil_r.
  - cbn [fold_left fmap list_fmap mjoin list_join]. rewrite IH, Hbody.
    by rewrite <- app_assoc.
Qed.

(** The calls made for one hand: its connections, then its points. *)
Lemma overlay_hand (rect : Rect.t) (r : Q) (lm : list Point) (cmds : list DrawCmd) :
  for_range 0 (Z.of_nat (length lm)) (λ k cmds, cmds ++ fillPoint rect lm r k)
    (for_range 0 (Z.of_nat (length HAND_CONNECTIONS))
       (λ j cmds, cmds ++ strokeConnection rect lm j) cmds)
  = cmds ++ (mjoin (strokeConnection rect lm <$> seqZ 0 (Z.of_nat (length HAND_CONNECTIONS)))
             ++ mjoin (fillPoint rect lm r <$> seqZ 0 (Z.of_nat (length lm)))).
Proof.
  unfold for_range. rewrite !Z.sub_0_r.
  rewrite (fold_left_appends (λ j cmds, cmds ++ strokeConnection rect lm j)
             (strokeConnection rect lm)) by reflexivity.
  rewrite (fold_left_appends (λ k cmds, cmds ++ fillPoint rect lm r k)
             (fillPoint rect lm r)) by reflexivity.
  by rewrite <- app_assoc.
Qed.

Lemma inRect_scaled (rect : Rect.t) (p : Point) :
  (0 < Rect.w rect)%Z → (0 < Rect.h rect)%Z → Point_in 0 1 p →
  inRect rect (inject_Z (Rect.x rect) + p.1 * inject_Z (Rect.w rect))
    (inject_Z (Rect.y rect) + p.2 * inject_Z (Rect.h rect)).
Proof.
  intros Hw Hh [Hx Hy]. apply inject_Z_pos in Hw, Hh.
  unfold inRect. split; split; nra.
Qed.

Lemma arr_get_elem_of {A : Type} (l : list A) (i : Z) (x : A) :
  arr_get l i = Some x → x ∈ l.
Proof.
  unfold arr_get. destruct (i <? 0)%Z; [discriminate|]. apply list_elem_of_lookup_2.
Qed.

Lemma strokeConnection_inRect (rect : Rect.t) (lm : list Point) (j : Z) :
  (0 < Rect.w rect)%Z → (0 < Rect.h rect)%Z → Forall (Point_in 0 1) lm →
  Forall (cmdInRect rect) (strokeConnection rect lm j).
Proof.
  intros Hw Hh Hlm. unfold strokeConnection.
  destruct (arr_get HAND_CONNECTIONS j) as [[a b]|]; [|constructor].
  destruct (arr_get lm a) as [pa|] eqn:Ha; [|constructor].
  destruct (arr_get lm b) as [pb|] eqn:Hb; [|constructor].
  rewrite Forall_forall in Hlm.
  constructor; [|constructor]. split; apply inRect_scaled; try assumption;
    apply Hlm; eapply arr_get_elem_of; eassumption.
Qed.

Lemma fillPoint_inRect (rect : Rect.t) (lm : list Point) (r : Q) (k : Z) :
  (0 < Rect.w rect)%Z → (0 < Rect.h rect)%Z → Forall (Point_in 0 1) lm → 2 <= r →
  Forall (cmdInRect rect) (fillPoint rect lm r k).
Proof.
  intros Hw Hh Hlm Hr. unfold fillPoint.
  destruct (arr_get lm k) as [p|] eqn:Hk; [|constructor].
  rewrite Forall_forall in Hlm.
  constructor; [|constructor]. split; [|exact Hr].
  apply inRect_scaled; try assumption. apply Hlm. eapply arr_get_elem_of; eassumption.
Qed.

Lemma fmap_seqZ_arr_get {A B : Type} (f : A → B) (d : A) (l : list A) :
  (λ i, f (default d (arr_get l i))) <$> seqZ 0 (Z.of_nat (length l)) = f <$> l.
Proof.
  apply list_eq. intros k. rewrite !list_lookup_fmap.
  destruct (decide (k < length l)%nat) as [Hk|Hk].
  - rewrite lookup_seqZ_lt by lia. cbn [fmap option_fmap option_map].
    destruct (lookup_lt_is_Some_2 l k Hk) as [x Hx]. rewrite Hx. cbn.
    unfold arr_get. destruct (Z.ltb_spec (0 + Z.of_nat k) 0); [lia|].
    rewrite Z.add_0_l, Nat2Z.id, Hx. reflexivity.
  - rewrite lookup_seqZ_ge by lia. rewrite lookup_ge_None_2 by lia. reflexivity.
Qed.

(** A hand with its 21 landmarks gets its 20 connections and its 21 dots. *)
Lemma overlay_full_hand (rect : Rect.t) (r : Q) (lm : list Point) :
  length lm = 21%nat →
  length (mjoin (strokeConnection rect lm <$> seqZ 0 (Z.of_nat (length HAND_CONNECTIONS)))
          ++ mjoin (fillPoint rect lm r <$> seqZ 0 (Z.of_nat (length lm)))) = 41%nat.
Proof.
  intros Hlen.
  do 21 (destruct lm as [|? lm]; [discriminate|]).
  destruct lm; [|discriminate]. reflexivity.
Qed.

(** X29: the overlay stays within the cover rectangle.  For results with
    landmarks, all of coordinates in [0, 1], and a rectangle of positive
    width and height, [drawHandLandmarksOverlay] saves the context, sets a
    line width of at least 1.5, draws, and restores the context; every line
    it strokes and every dot it fills lies within the rectangle, and the dots
    have a radius of at least 2; hands with their 21 landmarks get 20 lines
    and 21 dots each.  A hand with a landmark missing is drawn without the
    connections to it: the overlay does not throw where [palmCenter] does. *)
Theorem overlay_inside_cover (res : HandsResults) (hands : list (list Point))
    (rect : Rect.t) :
  multiHandLandmarks res = Some hands →
  (0 < Rect.w rect)%Z → (0 < Rect.h rect)%Z →
  Forall (Forall (Point_in 0 1)) hands →
  ∃ lw body,
    drawHandLandmarksOverlay (Some res) rect
    = [CmdSave;
       CmdStyle "round" "round" "rgba(255,255,255,0.9)" "rgba(255,255,255,0.9)" lw]
      ++ body ++ [CmdRestore] ∧
    1.5 <= lw ∧ Forall (cmdInRect rect) body ∧
    (Forall (λ lm, length lm = 21%nat) hands → length body = (41 * length hands)%nat).
Proof.
  intros Hres Hw Hh Hhands. unfold drawHandLandmarksOverlay. rewrite Hres.
  destruct (Z.eqb_spec (Rect.w rect) 0) as [E|_]; [lia|].
  destruct (Z.eqb_spec (Rect.h rect) 0) as [E|_]; [lia|]. cbn [orb].
  set (lw := Qmax 1.5 _). set (r := Qmax 2 _).
  assert (Hlw : 1.5 <= lw) by apply Q.le_max_l.
  assert (Hr : 2 <= r) by apply Q.le_max_l.
  clearbody lw r.
  set (g := λ i : Z,
    mjoin (strokeConnection rect (default [] (arr_get hands i))
             <$> seqZ 0 (Z.of_nat (length HAND_CONNECTIONS)))
    ++ mjoin (fillPoint rect (default [] (arr_get hands i)) r
                <$> seqZ 0 (Z.of_nat (length (default [] (arr_get hands i)))))).
  exists lw, (mjoin (g <$> seqZ 0 (Z.of_nat (length hands)))).
  split; [|split; [exact Hlw|split]].
  - unfold for_range at 1. rewrite Z.sub_0_r.
    rewrite (fold_left_appends _ g); [by rewrite <- app_assoc|].
    intros i cmds. apply overlay_hand.
  - apply Forall_join, Forall_fmap, Forall_forall. intros i _. cbn.
    assert (Hlm : Forall (Point_in 0 1) (default [] (arr_get hands i))).
    { destruct (arr_get hands i) as [lm|] eqn:Hi; [|constructor].
      rewrite Forall_forall in Hhands. apply Hhands.
      eapply arr_get_elem_of; eassumption. }
    unfold g. apply Forall_app. split.
    + apply Forall_join, Forall_fmap, Forall_forall. intros j _. cbn.
      by apply strokeConnection_inRect.
    + apply Forall_join, Forall_fmap, Forall_forall. intros k _. cbn.
      by apply fillPoint_inRect.
  - intros Hfull. unfold g.
    rewrite (fmap_seqZ_arr_get (λ lm,
      mjoin (strokeConnection rect lm <$> seqZ 0 (Z.of_nat (length HAND_CONNECTIONS)))
      ++ mjoin (fillPoint rect lm r <$> seqZ 0 (Z.of_nat (length lm)))) [] hands).
    set (h := λ lm : list Point, _ ++ _).
    clear g Hhands Hres. induction Hfull as [|lm hands Hlm _ IH]; [reflexivity|].
    change (mjoin (h <$> lm :: hands)) with (h lm ++ mjoin (h <$> hands)).
    rewrite length_app, IH. unfold h.
    rewrite (overlay_full_hand rect r lm Hlm). cbn [length]. lia.
Qed.

Lemma overlay_inside_cover_witness :
  ∃ lw body,
    drawHandLandmarksOverlay (Some twoHands) (computeCoverRect 4 2 800 600)
    = [CmdSave;
       CmdStyle "round" "round" "rgba(255,255,255,0.9)" "rgba(255,255,255,0.9)" lw]
      ++ body ++ [CmdRestore] ∧
    1.5 <= lw ∧ Forall (cmdInRect (computeCoverRect 4 2 800 600)) body ∧
    (Forall (λ lm, length lm = 21%nat) [palm18; palm18] →
     length body = (41 * length [palm18; palm18])%nat).
Proof.
  apply (overlay_inside_cover twoHands [palm18; palm18] (computeCoverRect 4 2 800 600)).
  - reflexivity.
  - reflexivity.
  - reflexivity.
  - repeat constructor; discriminate.
Defined.

(** ** [renderLUT], pixel by pixel *)

Lemma pixel_at_blocks (W H : Z) (blk : Z → list Z) (x y : Z) :
  (∀ q, length (blk q) = 4%nat) → (0 <= x < W)%Z → (0 <= y < H)%Z →
  bytes (pixel_at {| ImageData.width := W; ImageData.height := H;
                     ImageData.data := mjoin (blk <$> seqZ 0 (W * H)) |} x y)
  = blk (y * W + x)%Z.
Proof.
  intros Hlen Hx Hy. unfold pixel_at. cbn [ImageData.width ImageData.height ImageData.data].
  rewrite inBitmap_true by done.
  assert (Hbyte : ∀ c : nat, (c < 4)%nat →
    byte_at (mjoin (blk <$> seqZ 0 (W * H))) ((y * W + x) * 4 + Z.of_nat c)
    = default 0%Z (blk (y * W + x)%Z !! c)).
  { intros c Hc. unfold byte_at, arr_get.
    destruct (Z.ltb_spec ((y * W + x) * 4 + Z.of_nat c) 0); [nia|].
    replace (Z.to_nat ((y * W + x) * 4 + Z.of_nat c))
      with (Z.to_nat (y * W + x) * 4 + c)%nat by nia.
    rewrite (lookup_join_blocks 4 blk); [reflexivity|exact Hlen|nia|exact Hc]. }
  pose proof (Hbyte 0%nat ltac:(lia)) as H0. pose proof (Hbyte 1%nat ltac:(lia)) as H1.
  pose proof (Hbyte 2%nat ltac:(lia)) as H2. pose proof (Hbyte 3%nat ltac:(lia)) as H3.
  rewrite Z.add_0_r in H0.
  change (Z.of_nat 1) with 1%Z in H1. change (Z.of_nat 2) with 2%Z in H2.
  change (Z.of_nat 3) with 3%Z in H3.
  rewrite H0, H1, H2, H3. specialize (Hlen (y * W + x)%Z).
  destruct (blk (y * W + x)%Z) as [|a [|b [|c [|d [|]]]]]; try discriminate.
  reflexivity.
Qed.

Section GradeFrame.
Context `{Host}.

(** X30: what a LUT filter shows.  With the offscreen canvas and the video
    of the dimensions of the pipeline, [renderLUT] leaves at column [x], row
    [y] the four bytes that one iteration of its loop makes of the video pixel
    at column [w - 1 - x]: the frame is mirrored, then graded pixel by pixel
    with the table of the key, the one in the cache or else the one that
    [makeLUT] builds, at the strength of the entry or 1; the alpha byte is
    that of the video. *)
Theorem renderLUT_pixel (p : Pipeline.t) (offCtx : Ctx.t) (video : ImageData.t)
    (key : string) (makeLUT : unit → LUT.t) (strength : option Q) (x y : Z) :
  Pipeline.w p ≠ 0%Z → Pipeline.h p ≠ 0%Z →
  DrawState.transform (Ctx.state offCtx) = identityTransform →
  ImageData.width (Ctx.canvas offCtx) = Pipeline.w p →
  ImageData.height (Ctx.canvas offCtx) = Pipeline.h p →
  ImageData.width video = Pipeline.w p →
  ImageData.height video = Pipeline.h p →
  (0 <= x < Pipeline.w p)%Z → (0 <= y < Pipeline.h p)%Z →
  bytes (pixel_at (Ctx.canvas (renderLUT p offCtx video key makeLUT strength).1.2) x y)
  = gradePixel (default (makeLUT ()) (Pipeline.lutCache p !! key)) (default 1.0 strength) 0
      (bytes (pixel_at video (Pipeline.w p - 1 - x) y)) ∧
  ∃ r g b a r' g' b',
    pixel_at video (Pipeline.w p - 1 - x) y = (r, g, b, a) ∧
    pixel_at (Ctx.canvas (renderLUT p offCtx video key makeLUT strength).1.2) x y
    = (r', g', b', a) ∧
    byte_ok r' ∧ byte_ok g' ∧ byte_ok b'.
Proof.
  intros Hw Hh Ht Hcw Hch Hvw Hvh Hx Hy.
  assert (Hmain :
    bytes (pixel_at (Ctx.canvas (renderLUT p offCtx video key makeLUT strength).1.2) x y)
    = gradePixel (default (makeLUT ()) (Pipeline.lutCache p !! key))
        (default 1.0 strength) 0 (bytes (pixel_at video (Pipeline.w p - 1 - x) y))).
  { unfold renderLUT.
    destruct (Z.eqb_spec (Pipeline.w p) 0) as [E|_]; [contradiction|].
    destruct (Z.eqb_spec (Pipeline.h p) 0) as [E|_]; [contradiction|]. cbn [orb].
    set (mirrored := drawMirrored offCtx video (Pipeline.w p) (Pipeline.h p) "none").
    assert (Hlut : ∃ p' ev, getOrCreateLUT p key makeLUT
              = (p', default (makeLUT ()) (Pipeline.lutCache p !! key), ev)).
    { unfold getOrCreateLUT. destruct (Pipeline.lutCache p !! key); do 2 eexists; reflexivity. }
    destruct Hlut as (p' & ev & ->). cbn [fst snd].
    set (lut := default (makeLUT ()) (Pipeline.lutCache p !! key)).
    set (s := default 1.0 strength).
    unfold ctx_putImageData, with_canvas. cbn [Ctx.canvas ImageData.width ImageData.height].
    change (ImageData.width (Ctx.canvas mirrored)) with (ImageData.width (Ctx.canvas offCtx)).
    change (ImageData.height (Ctx.canvas mirrored)) with (ImageData.height (Ctx.canvas offCtx)).
    rewrite Hcw, Hch, pixel_at_tabulate by assumption.
    change (ImageData.width (ctx_getImageData mirrored 0 0 (Pipeline.w p) (Pipeline.h p)))
      with (Pipeline.w p).
    change (ImageData.height (ctx_getImageData mirrored 0 0 (Pipeline.w p) (Pipeline.h p)))
      with (Pipeline.h p).
    rewrite !Z.sub_0_r, inBitmap_true by assumption.
    fold (gradeAll lut s
            (ImageData.data (ctx_getImageData mirrored 0 0 (Pipeline.w p) (Pipeline.h p)))).
    unfold ctx_getImageData, tabulate. cbn [ImageData.data].
    rewrite gradeAll_blocks.
    2:{ apply Forall_fmap, Forall_forall. intros q _. apply length_bytes. }
    rewrite <- list_fmap_compose.
    rewrite pixel_at_blocks; [|intros q; cbn; by rewrite length_gradePixel, length_bytes
                              |assumption..].
    cbn. f_equal. f_equal.
    replace ((y * Pipeline.w p + x) `mod` Pipeline.w p)%Z with x.
    2:{ rewrite Z.add_comm, Z.mod_add by lia. symmetry. apply Z.mod_small. lia. }
    replace ((y * Pipeline.w p + x) `div` Pipeline.w p)%Z with y.
    2:{ rewrite Z.add_comm, Z.div_add by lia. rewrite Z.div_small by lia. lia. }
    rewrite !Z.add_0_l. unfold mirrored. by apply drawMirrored_pixel. }
  split; [exact Hmain|].
  destruct (pixel_at video (Pipeline.w p - 1 - x) y) as [[[r g] b] a] eqn:Hv.
  destruct (gradePixel_pixel (default (makeLUT ()) (Pipeline.lutCache p !! key))
              (default 1.0 strength) r g b a) as (r' & g' & b' & Hg & Hr' & Hg' & Hb').
  exists r, g, b, a, r', g', b'. split; [reflexivity|]. split; [|exact (conj Hr' (conj Hg' Hb'))].
  cbn [bytes] in Hmain. rewrite Hg in Hmain.
  destruct (pixel_at (Ctx.canvas _) x y) as [[[r1 g1] b1] a1].
  cbn [bytes] in Hmain. by injection Hmain as -> -> -> ->.
Qed.
End GradeFrame.

Lemma renderLUT_pixel_witness :
  bytes (pixel_at (Ctx.canvas (@renderLUT exampleHost cachedPipeline canvas21 twoPixels
                                 "wkw_neon" (λ _, smallLUT) (Some 0.95)).1.2) 1 0)
  = gradePixel (default ((λ _, smallLUT) ()) (Pipeline.lutCache cachedPipeline !! "wkw_neon"))
      (default 1.0 (Some 0.95)) 0
      (bytes (pixel_at twoPixels (Pipeline.w cachedPipeline - 1 - 1) 0)) ∧
  ∃ r g b a r' g' b',
    pixel_at twoPixels (Pipeline.w cachedPipeline - 1 - 1) 0 = (r, g, b, a) ∧
    pixel_at (Ctx.canvas (@renderLUT exampleHost cachedPipeline canvas21 twoPixels
                            "wkw_neon" (λ _, smallLUT) (Some 0.95)).1.2) 1 0
    = (r', g', b', a) ∧
    byte_ok r' ∧ byte_ok g' ∧ byte_ok b'.
Proof.
  apply (@renderLUT_pixel exampleHost cachedPipeline canvas21 twoPixels "wkw_neon"
           (λ _, smallLUT) (Some 0.95) 1 0);
    first [discriminate | reflexivity | split; [discriminate|reflexivity]].
Defined.
